(** * CityEngine for Houdini (Palladio): a shallow embedding and its properties

    The file follows the layout of the repository.  Part I embeds the
    data model and the operations of

    - [src/palladio/HoleConverter.{h,cpp}]   (module [HoleConverter]),
    - [src/palladio/Utils.{h,cpp}]           (module [Utils]),
    - [src/palladio/ShapeConverter.cpp]      (module [ShapeConverter]),
    - [src/palladio/PRTContext.cpp]          (module [PRTContext]),
    - [src/palladio/ModelConverter.cpp]      (module [ModelConverter]),
    - [src/codec/encoder/HoudiniEncoder.cpp] (module [HoudiniEncoder]).

    Part II states and proves the properties.

    Conventions.  Fixed-width C++ integers are values of [Z] and every
    conversion or wrap-around the source performs is written out
    ([wrap32], [wrap64], [toInt32]).  A [std::vector] is a [list]; an
    access the C++ standard leaves undefined (indexing past the end)
    makes the embedded function return [None].  Objects of the host
    application's development kit and of the generation engine's SDK are
    records of the observations the code makes on them. *)

From stdpp Require Import gmap strings list fin_maps sorting.
From Stdlib Require Import ZArith Lia Permutation Ascii.

(* ===================================================================== *)
(** * Part I: the embedding                                              *)
(* ===================================================================== *)

(** ** Machine integers *)

Module MachineInt.

Definition wrap32 (x : Z) : Z := (x mod 2 ^ 32)%Z.
Definition wrap64 (x : Z) : Z := (x mod 2 ^ 64)%Z.

(** [static_cast<int32_t>]: the low 32 bits, read in two's complement. *)
Definition toInt32 (x : Z) : Z :=
  let y := wrap32 x in if (y <? 2 ^ 31)%Z then y else (y - 2 ^ 32)%Z.

(** [std::numeric_limits<uint32_t>::max()] *)
Definition UINT32_MAX : Z := 4294967295%Z.

(** [v.size()] as a [size_t]. *)
Definition size {A} (v : list A) : Z := Z.of_nat (length v).

(** [v[i]]: defined only for [0 <= i < v.size()]. *)
Definition at_ {A} (v : list A) (i : Z) : option A :=
  if ((0 <=? i) && (i <? size v))%Z then v !! Z.to_nat i else None.

(** A value converted to [int64_t]: the low 64 bits in two's complement. *)
Definition toInt64 (x : Z) : Z :=
  let y := wrap64 x in if (y <? 2 ^ 63)%Z then y else (y - 2 ^ 64)%Z.

End MachineInt.

Import MachineInt.

(** ** HoleConverter.h / HoleConverter.cpp *)

Module HoleConverter.

(** [using Edge = std::pair<int64_t, int64_t>] *)
Abbreviation Edge := (Z * Z)%type.
Abbreviation Edges := (list (Z * Z)).

(** [struct EdgeSource]: three pure virtual observers. *)
Record EdgeSource : Type := {
  getEdges : Edges;
  getPointIndex : Z -> Z;
  isBridge : Z -> Z -> bool
}.

Abbreviation FaceOrHoleIndices := (list Z).
(** first item is outer ring/face *)
Abbreviation FaceWithHoles := (list (list Z)).

(** [std::pair]'s [operator<]: lexicographic. *)
Definition pairLess (a b : Edge) : bool :=
  ((a.1 <? b.1) || ((a.1 =? b.1) && (a.2 <? b.2)))%Z.

(** The two conditional [std::swap]s of [undirectedLessThan]. *)
Definition orient (e : Edge) : Edge :=
  if (e.1 >? e.2)%Z then (e.2, e.1) else e.

(** [struct undirectedLessThan]: treat (x,y) as (y,x). *)
Definition undirectedLessThan (a b : Edge) : bool :=
  pairLess (orient a) (orient b).

(** [std::set<Edge, undirectedLessThan>]: the elements in the order of the
    comparator, no two of them equivalent under it. *)
Abbreviation UndirectedEdgeSet := (list (Z * Z)).

(** [bridges.emplace(a, b)]: inserted at its place in the order, unless an
    equivalent element is already stored (the set is then left as it is,
    the stored element keeps its own orientation). *)
Fixpoint emplace (e : Edge) (s : UndirectedEdgeSet) : UndirectedEdgeSet :=
  match s with
  | [] => [e]
  | x :: s' =>
      if undirectedLessThan e x then e :: x :: s'
      else if undirectedLessThan x e then x :: emplace e s'
      else x :: s'
  end.

Inductive BridgeEndCheck : Type := EDGE_START | EDGE_END.

(** [checkBridgeEnding]: [std::find_if] over the set, compared with [end()]. *)
Definition checkBridgeEnding (endCheck : BridgeEndCheck)
    (bridges : UndirectedEdgeSet) (startVertexToEndPointEdge : Edge) : bool :=
  let checkStartPoint (bridge : Edge) := (startVertexToEndPointEdge.2 =? bridge.1)%Z in
  let checkEndPoint (bridge : Edge) := (startVertexToEndPointEdge.2 =? bridge.2)%Z in
  let it :=
    match endCheck with
    | EDGE_START => List.find checkStartPoint bridges
    | EDGE_END => List.find checkEndPoint bridges
    end in
  match it with Some _ => true | None => false end.

(** [info[ringIdx].push_back(v)] *)
Definition pushBackAt (info : FaceWithHoles) (ringIdx : Z) (v : Z)
    : option FaceWithHoles :=
  match at_ info ringIdx with
  | Some ring => Some (<[Z.to_nat ringIdx := ring ++ [v]]> info)
  | None => None
  end.

(** One iteration of the loop of [detectFaceAndHoles]; [ringIdx] is a
    [size_t], so [ringIdx--] at 0 wraps to [2^64 - 1]. *)
Definition detectStep (bridges : UndirectedEdgeSet)
    (st : FaceWithHoles * Z) (startVertexToEndPointEdge : Edge)
    : option (FaceWithHoles * Z) :=
  let '(info, ringIdx) := st in
  if checkBridgeEnding EDGE_START bridges startVertexToEndPointEdge then
    (* case 1: edge ends at the start of a bridge *)
    info' ← pushBackAt info ringIdx startVertexToEndPointEdge.1;
    Some (info' ++ [[]], wrap64 (ringIdx + 1))
  else if checkBridgeEnding EDGE_END bridges startVertexToEndPointEdge then
    (* case 2: hole edge ends at the end of a bridge *)
    info' ← pushBackAt info ringIdx startVertexToEndPointEdge.1;
    Some (info', wrap64 (ringIdx - 1))
  else
    (* case 3: no bridge involved *)
    info' ← pushBackAt info ringIdx startVertexToEndPointEdge.1;
    Some (info', ringIdx).

Fixpoint detectLoop (bridges : UndirectedEdgeSet) (st : FaceWithHoles * Z)
    (startVertexToEndPointEdges : Edges) : option (FaceWithHoles * Z) :=
  match startVertexToEndPointEdges with
  | [] => Some st
  | e :: es => st' ← detectStep bridges st e; detectLoop bridges st' es
  end.

Definition detectFaceAndHoles (bridges : UndirectedEdgeSet)
    (startVertexToEndPointEdges : Edges) : option FaceWithHoles :=
  (* FaceWithHoles info(1); size_t ringIdx = 0; *)
  fst <$> detectLoop bridges ([[]], 0%Z) startVertexToEndPointEdges.

(** The first loop of [extractHoles]: bridges go to the set, every other
    edge is kept as (vertex index of its start, point index of its end). *)
Definition collectStep (source : EdgeSource)
    (acc : Edges * UndirectedEdgeSet) (e : Edge) : Edges * UndirectedEdgeSet :=
  let '(vertexIndexA, vertexIndexB) := e in
  let pointIndexA := getPointIndex source vertexIndexA in
  let pointIndexB := getPointIndex source vertexIndexB in
  if isBridge source pointIndexA pointIndexB
  then (acc.1, emplace (pointIndexA, pointIndexB) acc.2)
  else (acc.1 ++ [(vertexIndexA, pointIndexB)], acc.2).

Definition collectEdges (source : EdgeSource) : Edges * UndirectedEdgeSet :=
  fold_left (collectStep source) (getEdges source) ([], []).

Definition extractHoles (source : EdgeSource) : option FaceWithHoles :=
  let '(startVertexToEndPointEdges, bridges) := collectEdges source in
  match bridges with
  | _ :: _ => detectFaceAndHoles bridges startVertexToEndPointEdges
  | [] =>
      (* FaceWithHoles info(1); info.back().push_back(...) for each edge *)
      Some [fold_left (fun back e => back ++ [e.1]) startVertexToEndPointEdges []]
  end.

End HoleConverter.

(** ** Utils.h: [hash_combine] *)

Module Utils.

(** [seed ^= value + 0x9e3779b9 + (seed << 6) + (seed >> 2)] on [size_t]
    (64 bits): every sum and the left shift wrap around. *)
Definition hash_combine (seed value : Z) : Z :=
  Z.lxor seed
    (wrap64 (value + 0x9e3779b9 + wrap64 (Z.shiftl seed 6) + Z.shiftr seed 2)).

(** ** Utils.h / Utils.cpp: strings

    A [std::wstring] or [std::string] is the list of its characters.  A
    position is a natural number (it never exceeds [size()], so no
    [size_t] arithmetic on positions wraps); [npos] is [None].  A call
    that throws [std::out_of_range] has no result. *)
Abbreviation wstring := (list ascii).

(** [s.find_first_of(c, pos)] *)
Definition find_first_of (s : wstring) (c : ascii) (pos : nat) : option nat :=
  (fun found : nat * ascii => pos + found.1) <$> list_find (fun x => x = c) (drop pos s).

(** [s.find_first_not_of(chars, pos)] *)
Definition find_first_not_of (s chars : wstring) (pos : nat) : option nat :=
  (fun found : nat * ascii => pos + found.1) <$> list_find (fun x => x ∉ chars) (drop pos s).

(** [s.substr(pos, n)]: throws for [pos > size()]. *)
Definition substr (s : wstring) (pos n : nat) : option wstring :=
  if decide (pos ≤ length s) then Some (take n (drop pos s)) else None.

(** [s.substr(pos)] *)
Definition substr_from (s : wstring) (pos : nat) : option wstring :=
  if decide (pos ≤ length s) then Some (drop pos s) else None.

(** [s.find(v)]: the first position at which [v] occurs. *)
Fixpoint find (s v : wstring) : option nat :=
  if bool_decide (v `prefix_of` s) then Some 0
  else match s with
       | [] => None
       | _ :: s' => S <$> find s' v
       end.

(** [s.rfind(v, 0)]: the last occurrence that starts at position 0 or
    before, so position 0 is the only one looked at. *)
Definition rfind0 (s v : wstring) : option nat :=
  if bool_decide (v `prefix_of` s) then Some 0 else None.

(** The loop of [tokenizeAll].  [startIdx] is [None] once it is [npos],
    which ends the loop; every iteration but the last moves [startIdx]
    past one more delimiter, and [fuel] bounds their number. *)
Fixpoint tokenizeAllLoop (fuel : nat) (input : wstring) (token : ascii)
    (startIdx : option nat) (out : list wstring) : option (list wstring) :=
  match startIdx with
  | None => Some out
  | Some startIdx =>
      match fuel with
      | O => None
      | S fuel =>
          let endIdx := find_first_of input token startIdx in
          step ←
            match endIdx with
            | None =>
                tokenView ← substr_from input startIdx;
                Some (tokenView, None)
            | Some endIdx =>
                tokenView ← substr input startIdx (endIdx - startIdx);
                Some (tokenView, Some (endIdx + 1))
            end;
          tokenizeAllLoop fuel input token step.2
            (* if (!tokenView.empty()) out.emplace_back(tokenView); *)
            (match step.1 with [] => out | _ :: _ => out ++ [step.1] end)
      end
  end.

(** [tokenizeAll]: one iteration for each delimiter of the input and one
    more. *)
Definition tokenizeAll (input : wstring) (token : ascii) : option (list wstring) :=
  tokenizeAllLoop (S (length input)) input token (Some 0) [].

(** [tokenizeFirst]; [input.length() - 1] is computed in [size_t]. *)
Definition tokenizeFirst (input : wstring) (token : ascii) : option (wstring * wstring) :=
  match find_first_of input token 0 with
  | None => Some ([], input)
  | Some p =>
      let last := wrap64 (size input - 1) in
      if ((Z.of_nat p >? 0) && (Z.of_nat p <? last))%Z then
        style ← substr input 0 p;
        name ← substr_from input (p + 1);
        Some (style, name)
      else if (Z.of_nat p =? 0)%Z then (* empty style *)
        name ← substr_from input 1;
        Some ([], name)
      else if (Z.of_nat p =? last)%Z then (* empty name *)
        style ← substr input 0 p;
        Some (style, [])
      else Some (input, [])
  end.

(** The loop of [replace_all_not_of]; every iteration but the last
    replaces one character, and [fuel] bounds their number. *)
Fixpoint replaceLoop (fuel : nat) (s allowedChars : wstring) (pos : nat)
    : option wstring :=
  if decide (pos < length s) then
    match fuel with
    | O => None
    | S fuel =>
        match find_first_not_of s allowedChars pos with
        | None => Some s (* break *)
        | Some pos' => replaceLoop fuel (<[pos' := "_"%char]> s) allowedChars (S pos')
        end
    end
  else Some s.

Definition replace_all_not_of (s allowedChars : wstring) : option wstring :=
  replaceLoop (length s) s allowedChars 0.

(** [startsWithAnyOf]: [std::any_of] with [s.find(v) == 0]. *)
Definition startsWithAnyOf (s : wstring) (sv : list wstring) : bool :=
  existsb (fun v => bool_decide (find s v = Some 0)) sv.

Definition FILE_ANY : wstring := ["*"%char].
Definition FILE_DOT : wstring := ["."%char].
Definition FILE_EXTENSION_PREFIX : wstring := FILE_ANY ++ FILE_DOT.

Definition cleanFileExtension (extension : wstring) : wstring :=
  match extension with
  | [] => []
  | _ :: _ =>
      if bool_decide (rfind0 extension FILE_EXTENSION_PREFIX = Some 0) then extension
      else if bool_decide (rfind0 extension FILE_DOT = Some 0) then FILE_ANY ++ extension
      else FILE_EXTENSION_PREFIX ++ extension
  end.

Definition getFileExtensionString (extensions : list wstring) : wstring :=
  let extensionString :=
    fold_left
      (fun (extensionString : wstring) (extension : wstring) =>
         match cleanFileExtension extension with
         | [] => extensionString (* continue *)
         | cleanedFileExtension =>
             match extensionString with
             | [] => extensionString ++ cleanedFileExtension
             | _ :: _ => extensionString ++ (" "%char :: cleanedFileExtension)
             end
         end)
      extensions [] in
  match extensionString with
  | [] => FILE_ANY
  | _ :: _ => extensionString
  end.

End Utils.

(** ** ShapeConverter.cpp *)

Module ShapeConverter.

Import HoleConverter Utils.

(** The double-precision operations the converter performs, and
    [std::hash<double>] (whose values are [size_t]).  The embedding is
    generic in them. *)
Class DoubleOps (D : Type) : Type := {
  d_zero : D;
  d_add : D -> D -> D;
  d_div : D -> D -> D;
  d_of_size : Z -> D;
  d_hash : D -> Z
}.

(** [struct UV] *)
Record UV (D : Type) : Type := {
  uvs : list D;
  idx : list Z
}.
Arguments uvs {D}.
Arguments idx {D}.

(** [GA_ROHandleV2D]: [None] when [isInvalid()], otherwise what [get]
    returns ([x()], [y()]) at a vertex offset. *)
Abbreviation GA_ROHandleV2D D := (option (Z -> D * D)).

(** [struct ConversionHelper] *)
Record ConversionHelper (D : Type) : Type := {
  indices : list Z;
  faceCounts : list Z;
  holes : list Z;
  uvSets : list (UV D);
  coords : list D
}.
Arguments indices {D}.
Arguments faceCounts {D}.
Arguments holes {D}.
Arguments uvSets {D}.
Arguments coords {D}.

(** The constructor: [uvSets.resize(uvHandles.size())]. *)
Definition newConversionHelper {D} (c : list D) (uvHandles : list (GA_ROHandleV2D D))
    : ConversionHelper D :=
  {| indices := []; faceCounts := []; holes := [];
     uvSets := replicate (length uvHandles) {| uvs := []; idx := [] |};
     coords := c |}.

(** A polygon primitive ([GA_Primitive] seen as [GEO_Face]): the
    observations [convertPolygon] and [GeoFaceHoleSource] make on it. *)
Record GA_Primitive : Type := {
  primVertexCount : Z;
  primPointIndex : Z -> Z;
  primVertexOffset : Z -> Z;
  faceEdgesByVertex : Edges;
  facePointOffset : Z -> Z;
  faceIsBridge : Z -> Z -> bool
}.

(** [class GeoFaceHoleSource] *)
Definition GeoFaceHoleSource (face : GA_Primitive) : EdgeSource :=
  {| getEdges := faceEdgesByVertex face;
     getPointIndex := facePointOffset face;
     isBridge := faceIsBridge face |}.

(** [GEO_PrimPolySoup::PolygonIterator] *)
Record PolygonIterator : Type := {
  pitVertexCount : Z;
  pitPointIndex : Z -> Z;
  pitVertexOffset : Z -> Z
}.

(** [forEachUVSet]: [ch.uvSets[u]] is updated for every valid handle. *)
Fixpoint forEachUVSetFrom {D} (u : nat) (uvHandles : list (GA_ROHandleV2D D))
    (sets : list (UV D)) (func : (Z -> D * D) -> UV D -> UV D)
    : option (list (UV D)) :=
  match uvHandles with
  | [] => Some sets
  | None :: rest => forEachUVSetFrom (S u) rest sets func
  | Some uvh :: rest =>
      uvSet ← sets !! u;
      forEachUVSetFrom (S u) rest (<[u := func uvh uvSet]> sets) func
  end.

Definition forEachUVSet {D} (uvHandles : list (GA_ROHandleV2D D))
    (ch : ConversionHelper D) (func : (Z -> D * D) -> UV D -> UV D)
    : option (ConversionHelper D) :=
  sets ← forEachUVSetFrom 0 uvHandles (uvSets ch) func;
  Some {| indices := indices ch; faceCounts := faceCounts ch; holes := holes ch;
          uvSets := sets; coords := coords ch |}.

(** The body of the loop over the rings in [convertPolygon]. *)
Definition convertRing {D} (prim : GA_Primitive) (ch : ConversionHelper D)
    (faceOrHole : list Z) : ConversionHelper D :=
  {| holes := holes ch ++ [wrap32 (size (faceCounts ch))];
     faceCounts := faceCounts ch ++ [wrap32 (size faceOrHole)];
     indices :=
       fold_left (fun acc o => acc ++ [wrap32 (primPointIndex prim o)])
                 (rev faceOrHole) (indices ch);
     uvSets := uvSets ch; coords := coords ch |}.

(** The lambda given to [forEachUVSet] in [convertPolygon]. *)
Definition polygonUVs {D} (prim : GA_Primitive) (faceWithHoles : list (list Z))
    (uvh : Z -> D * D) (uvSet : UV D) : UV D :=
  fold_left
    (fun (acc : UV D) (faceOrHole : list Z) =>
       let coordsOut :=
         fold_left (fun c j => let v := uvh (primVertexOffset prim j) in c ++ [v.1; v.2])
                   faceOrHole (uvs acc) in
       (* std::iota from static_cast<int32_t>(uvSet.idx.size()), inserted reversed *)
       let iota := (fun k => (toInt32 (size (idx acc)) + k)%Z) <$> seqZ 0 (size faceOrHole) in
       {| uvs := coordsOut; idx := idx acc ++ (wrap32 <$> rev iota) |})
    faceWithHoles uvSet.

(** [convertPolygon(ConversionHelper&, const GA_Primitive&, ...)] *)
Definition convertPolygon {D} (ch : ConversionHelper D) (prim : GA_Primitive)
    (uvHandles : list (GA_ROHandleV2D D)) : option (ConversionHelper D) :=
  faceWithHoles ← extractHoles (GeoFaceHoleSource prim);
  let ch1 := fold_left (convertRing prim) faceWithHoles ch in
  (* required by PRT to delimit the holes belonging to a face *)
  let ch2 := {| holes := holes ch1 ++ [UINT32_MAX];
                faceCounts := faceCounts ch1; indices := indices ch1;
                uvSets := uvSets ch1; coords := coords ch1 |} in
  forEachUVSet uvHandles ch2 (polygonUVs prim faceWithHoles).

(** The lambda given to [forEachUVSet] for a polygon of a soup. *)
Definition soupUVs {D} (prim : PolygonIterator) (vtxCnt : Z)
    (uvh : Z -> D * D) (uvSet : UV D) : UV D :=
  fold_left
    (fun (acc : UV D) (i : Z) =>
       let v := uvh (pitVertexOffset prim i) in
       {| uvs := uvs acc ++ [v.1; v.2];
          idx := idx acc ++ [wrap32 (size (idx acc))] |})
    (rev (seqZ 0 vtxCnt)) uvSet.

(** [convertPolygon(ConversionHelper&, const PolygonIterator&, ...)]; the
    loops run [i] from [vtxCnt - 1] down to 0. *)
Definition convertSoupPolygon {D} (ch : ConversionHelper D) (prim : PolygonIterator)
    (uvHandles : list (GA_ROHandleV2D D)) : option (ConversionHelper D) :=
  let vtxCnt := pitVertexCount prim in
  let ch1 :=
    {| faceCounts := faceCounts ch ++ [wrap32 vtxCnt];
       indices :=
         fold_left (fun acc i => acc ++ [wrap32 (pitPointIndex prim i)])
                   (rev (seqZ 0 vtxCnt)) (indices ch);
       holes := holes ch; uvSets := uvSets ch; coords := coords ch |} in
  forEachUVSet uvHandles ch1 (soupUVs prim vtxCnt).

(** [getCentroid]: [idx] is a [uint32_t], so [3 * idx + k] is computed in
    32 bits; [coords[...]] outside the vector is undefined. *)
Definition getCentroid {D} `{DoubleOps D} (coords : list D) (ch : ConversionHelper D)
    : option (D * D * D) :=
  sums ← foldl
    (fun (acc : option (D * D * D)) (idx : Z) =>
       '(c0, c1, c2) ← acc;
       x ← at_ coords (wrap32 (3 * idx + 0));
       y ← at_ coords (wrap32 (3 * idx + 1));
       z ← at_ coords (wrap32 (3 * idx + 2));
       Some (d_add c0 x, d_add c1 y, d_add c2 z))
    (Some (d_zero, d_zero, d_zero)) (indices ch);
  let '(c0, c1, c2) := sums in
  let n := d_of_size (size (indices ch)) in
  Some (d_div c0 n, d_div c1 n, d_div c2 n).

Inductive GA_StorageClass : Type :=
  | GA_STORECLASS_INVALID | GA_STORECLASS_INT | GA_STORECLASS_REAL
  | GA_STORECLASS_STRING | GA_STORECLASS_OTHER.

(** A primitive attribute found under [PLD_RANDOM_SEED]: its storage
    class and the integer it stores at an offset.  An attribute of the
    integer class stores integers of 8, 16, 32 or 64 bits; the source does
    not look at the width ("TODO: check for 32bit"). *)
Record SeedAttribute : Type := {
  getStorageClass : GA_StorageClass;
  seedValue : Z -> Z
}.

(** [GA_ROHandleI::get]: the handle is one of 32-bit integers, and the
    source assigns what it reads to an [int32_t].  The host's development
    kit is not part of the repository: a stored integer that does not fit
    in 32 bits is taken to be converted as C++ converts integers.
    Whatever the kit does with it, what is read is an [int32_t], and an
    integer that fits is read as it is. *)
Definition GA_ROHandleI_get (seedRef : SeedAttribute) (off : Z) : Z :=
  toInt32 (seedValue seedRef off).

Definition isIntStorage (c : GA_StorageClass) : bool :=
  match c with GA_STORECLASS_INT => true | _ => false end.

(** [getRandomSeed]; [findSeed] is [detail->findPrimitiveAttribute(PLD_RANDOM_SEED)],
    [None] when the reference is invalid. *)
Definition getRandomSeed {D} `{DoubleOps D} (findSeed : option SeedAttribute)
    (primOffset : Z) (coords : list D) (ch : ConversionHelper D) : option Z :=
  match findSeed with
  | Some seedRef =>
      if isIntStorage (getStorageClass seedRef) (* TODO: check for 32bit *)
      then Some (GA_ROHandleI_get seedRef primOffset)
      else
        '(c0, c1, c2) ← getCentroid coords ch;
        let hash := hash_combine 0 (d_hash c0) in
        let hash := hash_combine hash (d_hash c1) in
        let hash := hash_combine hash (d_hash c2) in
        Some (toInt32 hash)
  | None =>
      '(c0, c1, c2) ← getCentroid coords ch;
      let hash := hash_combine 0 (d_hash c0) in
      let hash := hash_combine hash (d_hash c1) in
      let hash := hash_combine hash (d_hash c2) in
      Some (toInt32 hash)
  end.

(** The primitives of a partition, as [ShapeConverter::get] dispatches on
    them. *)
Inductive PrimitiveGeometry : Type :=
  | GA_PRIMPOLY (prim : GA_Primitive)
  | GA_PRIMPOLYSOUP (polygons : list PolygonIterator)
  | GA_PRIMOTHER.

Record Primitive : Type := {
  getMapOffset : Z;
  getGeometry : PrimitiveGeometry
}.

(** The body of the loop over the primitives of a partition in
    [ShapeConverter::get]: the switch on the type of the primitive. *)
Definition convertPrimitive {D} (ch : ConversionHelper D) (prim : Primitive)
    (uvHandles : list (GA_ROHandleV2D D)) : option (ConversionHelper D) :=
  match getGeometry prim with
  | GA_PRIMPOLY p => convertPolygon ch p uvHandles
  | GA_PRIMPOLYSOUP polygons =>
      foldl (fun acc pit => ch' ← acc; convertSoupPolygon ch' pit uvHandles)
            (Some ch) polygons
  | GA_PRIMOTHER => Some ch
  end.

(** The body of the loop over the partitions in [ShapeConverter::get],
    up to the shape builder: the merged geometry and the random seed.
    [front()] of an empty partition is undefined. *)
Definition convertPartition {D} `{DoubleOps D} (findSeed : option SeedAttribute)
    (coords : list D) (uvHandles : list (GA_ROHandleV2D D)) (prims : list Primitive)
    : option (ConversionHelper D * Z) :=
  ch ← foldl
    (fun (acc : option (ConversionHelper D)) (prim : Primitive) =>
       ch ← acc; convertPrimitive ch prim uvHandles)
    (Some (newConversionHelper coords uvHandles)) prims;
  front ← head prims;
  randomSeed ← getRandomSeed findSeed (getMapOffset front) coords ch;
  Some (ch, randomSeed).

End ShapeConverter.

(** ** The generation engine's SDK, as far as the code observes it *)

Module PRT.

(** [prt::Status]: the values the sources name, and the others by code. *)
Inductive Status : Type :=
  | STATUS_OK
  | STATUS_UNSPECIFIED_ERROR
  | STATUS_ILLEGAL_CALLBACK_OBJECT
  | STATUS_OTHER (code : Z).

(** [prt::LogLevel], in the order of [LEVELS] in LogHandler.h. *)
Inductive LogLevel : Type :=
  | LOG_TRACE | LOG_DEBUG | LOG_INFO | LOG_WARNING | LOG_ERROR | LOG_FATAL.

(** [prt::Attributable::PrimitiveType], with the two types
    [prtx::Material] adds. *)
Inductive PrimitiveType : Type :=
  | PT_UNDEFINED | PT_STRING | PT_FLOAT | PT_BOOL | PT_INT
  | PT_STRING_ARRAY | PT_FLOAT_ARRAY | PT_BOOL_ARRAY | PT_INT_ARRAY
  | PT_BLIND_DATA | PT_BLIND_DATA_ARRAY
  | PT_TEXTURE | PT_TEXTURE_ARRAY.

(** The typed values an attribute map holds. *)
Inductive AttrValue (D : Type) : Type :=
  | AV_Bool (b : bool)
  | AV_Float (d : D)
  | AV_Int (i : Z)
  | AV_String (s : string)
  | AV_BoolArray (bs : list bool)
  | AV_FloatArray (ds : list D)
  | AV_IntArray (ints : list Z)
  | AV_StringArray (ss : list string).
Arguments AV_Bool {D}.
Arguments AV_Float {D}.
Arguments AV_Int {D}.
Arguments AV_String {D}.
Arguments AV_BoolArray {D}.
Arguments AV_FloatArray {D}.
Arguments AV_IntArray {D}.
Arguments AV_StringArray {D}.

(** The type of a value. *)
Definition valueType {D} (v : AttrValue D) : PrimitiveType :=
  match v with
  | AV_Bool _ => PT_BOOL
  | AV_Float _ => PT_FLOAT
  | AV_Int _ => PT_INT
  | AV_String _ => PT_STRING
  | AV_BoolArray _ => PT_BOOL_ARRAY
  | AV_FloatArray _ => PT_FLOAT_ARRAY
  | AV_IntArray _ => PT_INT_ARRAY
  | AV_StringArray _ => PT_STRING_ARRAY
  end.

#[global] Instance PrimitiveType_eq_dec : EqDecision PrimitiveType.
Proof. solve_decision. Defined.

(** [prt::AttributeMapBuilder].  The engine's SDK is not part of the
    repository.  Modelled from the spec: the setters "record a key/value
    pair" in the builder, which holds one typed value under each of its
    keys; a setter records its value under a key that is free or holds a
    value of the same type, and touches no other key.

    What a setter does with a key that holds a value of another type
    (replace it, refuse, ...) is fixed neither by the sources nor by the
    spec.  It is left open: [keyTaken old new] is what the key holds
    afterwards, and everything proved in this file holds for every such
    function. *)
Abbreviation AttributeMapBuilder D := (gmap string (AttrValue D)).

Class KeyTaken (D : Type) : Type :=
  keyTaken : AttrValue D -> AttrValue D -> option (AttrValue D).

Definition setValue {D} `{KeyTaken D} (key : string) (v : AttrValue D)
    (b : AttributeMapBuilder D) : AttributeMapBuilder D :=
  partial_alter
    (fun held =>
       match held with
       | Some old => if decide (valueType old = valueType v) then Some v else keyTaken old v
       | None => Some v
       end)
    key b.

Definition setBool {D} `{KeyTaken D} (key : string) (v : bool) (b : AttributeMapBuilder D) :=
  setValue key (AV_Bool v) b.
Definition setFloat {D} `{KeyTaken D} (key : string) (v : D) (b : AttributeMapBuilder D) :=
  setValue key (AV_Float v) b.
Definition setInt {D} `{KeyTaken D} (key : string) (v : Z) (b : AttributeMapBuilder D) :=
  setValue key (AV_Int v) b.
Definition setString {D} `{KeyTaken D} (key : string) (v : string)
    (b : AttributeMapBuilder D) :=
  setValue key (AV_String v) b.
Definition setBoolArray {D} `{KeyTaken D} (key : string) (v : list bool)
    (b : AttributeMapBuilder D) :=
  setValue key (AV_BoolArray v) b.
Definition setFloatArray {D} `{KeyTaken D} (key : string) (v : list D)
    (b : AttributeMapBuilder D) :=
  setValue key (AV_FloatArray v) b.
Definition setIntArray {D} `{KeyTaken D} (key : string) (v : list Z)
    (b : AttributeMapBuilder D) :=
  setValue key (AV_IntArray v) b.
Definition setStringArray {D} `{KeyTaken D} (key : string) (v : list string)
    (b : AttributeMapBuilder D) :=
  setValue key (AV_StringArray v) b.

(** [prtx::Bool] is a [uint8_t]; [prtx::PRTX_TRUE] is 1. *)
Definition PRTX_TRUE : Z := 1%Z.

End PRT.

(** ** PRTContext.cpp *)

Module PRTContext.

(** [ResolveMapCache::CacheStatus] *)
Inductive CacheStatus : Type := HIT | MISS.

(** [std::filesystem::path].  [string()] returns the pathname as it is
    spelled.  [operator==] does not compare the spellings: it compares the
    paths element by element ([path::compare]: the root name, whether there
    is a root directory, and the file names that iteration over the path
    yields), so that differently spelled pathnames such as /a//b.rpk and
    /a/b.rpk are equal.  The C++ standard library is not part of the
    repository: a path is the record of what these two operations look
    at. *)
Record path : Type := {
  path_string : string;
  root_name : string;
  has_root_directory : bool;
  relative_path : list string
}.

(** [lhs == rhs] on paths. *)
Definition path_equal (lhs rhs : path) : bool :=
  String.eqb (root_name lhs) (root_name rhs)
  && Bool.eqb (has_root_directory lhs) (has_root_directory rhs)
  && bool_decide (relative_path lhs = relative_path rhs).

(** [ResolveMapCache::get] is all [getResolveMap] uses of the resolve-map
    cache (ResolveMapCache.cpp is not among the sources): from the cache
    and the pathname of a package, the map with the status of the lookup,
    and the cache afterwards. *)
Class ResolveMapCacheOps (C RM : Type) : Type := {
  cache_get : C -> string -> (RM * CacheStatus) * C
}.

(** A node of the host's graph below the "obj" manager: the name of its
    operator, the rule package a [SOPAssign] has set, and whether a recook
    was forced on it. *)
Record OP_Node : Type := {
  getOperatorName : string;
  getRPK : path;
  recookForced : bool
}.

Definition forceRecook (n : OP_Node) : OP_Node :=
  {| getOperatorName := getOperatorName n; getRPK := getRPK n; recookForced := true |}.

(** The calls [getResolveMap] makes on the engine's cache object and on
    the host, as a test double would count them. *)
Inductive Call : Type :=
  | CallFlushAll
  | CallScheduleRecook (rpk : path).

(** What [PRTContext::getResolveMap] reads and writes. *)
Record World (C O : Type) : Type := {
  mResolveMapCache : C;
  mPRTCache : list O;
  director : option (list OP_Node);
  calls : list Call
}.
Arguments mResolveMapCache {C O}.
Arguments mPRTCache {C O}.
Arguments director {C O}.
Arguments calls {C O}.

(** [mPRTCache->flushAll()] *)
Definition flushAll {C O} (w : World C O) : World C O :=
  {| mResolveMapCache := mResolveMapCache w; mPRTCache := [];
     director := director w; calls := calls w ++ [CallFlushAll] |}.

(** The [visit] lambda of [scheduleRecook]:
    [n.getOperator()->getName().equal(OP_PLD_ASSIGN)] compares the names,
    [sa.getRPK() == *visitedRPK] compares the paths. *)
Definition visit (OP_PLD_ASSIGN : string) (visitedRPK : path) (n : OP_Node) : OP_Node :=
  if String.eqb (getOperatorName n) OP_PLD_ASSIGN
  then if path_equal (getRPK n) visitedRPK then forceRecook n else n
  else n.

(** [scheduleRecook]: schedule recook of all assign nodes with matching
    rpk; nothing is traversed without a director. *)
Definition scheduleRecook {C O} (OP_PLD_ASSIGN : string) (rpk : path)
    (w : World C O) : World C O :=
  {| mResolveMapCache := mResolveMapCache w; mPRTCache := mPRTCache w;
     director :=
       match director w with
       | Some objMgr => Some (visit OP_PLD_ASSIGN rpk <$> objMgr)
       | None => None
       end;
     calls := calls w ++ [CallScheduleRecook rpk] |}.

(** [PRTContext::getResolveMap], under its lock; the cache is asked for
    [rpk.string()].  [PLD_TEST_EXPORTS] says whether the test build's macro
    is defined, [OP_PLD_ASSIGN] is the operator name of PalladioMain.h. *)
Definition getResolveMap {C O RM} `{ResolveMapCacheOps C RM}
    (PLD_TEST_EXPORTS : bool) (OP_PLD_ASSIGN : string)
    (w : World C O) (rpk : path) : RM * World C O :=
  let '(lookupResult, cache') := cache_get (mResolveMapCache w) (path_string rpk) in
  let w1 := {| mResolveMapCache := cache'; mPRTCache := mPRTCache w;
               director := director w; calls := calls w |} in
  match lookupResult.2 with
  | MISS =>
      let w2 := flushAll w1 in
      (lookupResult.1,
       if PLD_TEST_EXPORTS then w2 else scheduleRecook OP_PLD_ASSIGN rpk w2)
  | HIT => (lookupResult.1, w1)
  end.

End PRTContext.

(** ** ModelConverter.cpp: the callbacks *)

Module ModelConverter.

Import PRT.

(** The members the callbacks below touch, the host detail (untouched by
    them) and what went to [prt::log] through the [LOG_*] macros. *)
Record State (D G : Type) : Type := {
  mDetail : G;
  mStatuses : list Status;
  mShapeAttributeBuilders : gmap Z (AttributeMapBuilder D);
  prtLog : list (LogLevel * string)
}.
Arguments mDetail {D G}.
Arguments mStatuses {D G}.
Arguments mShapeAttributeBuilders {D G}.
Arguments prtLog {D G}.

(** [LOG_WRN << msg]: the [PRTLogger] temporary calls [prt::log] when the
    statement ends. *)
Definition LOG_WRN {D G} (msg : string) (s : State D G) : State D G :=
  {| mDetail := mDetail s; mStatuses := mStatuses s;
     mShapeAttributeBuilders := mShapeAttributeBuilders s;
     prtLog := prtLog s ++ [(LOG_WARNING, msg)] |}.

(** [ModelConverter::generateError]; [mStatuses[isIndex]] past the end of
    the vector is undefined. *)
Definition generateError {D G} (s : State D G) (isIndex : Z) (status : Status)
    (message : string) : option (State D G * Status) :=
  let s1 := LOG_WRN message s in
  match at_ (mStatuses s1) isIndex with
  | Some _ =>
      Some ({| mDetail := mDetail s1;
               mStatuses := <[Z.to_nat isIndex := status]> (mStatuses s1);
               mShapeAttributeBuilders := mShapeAttributeBuilders s1;
               prtLog := prtLog s1 |}, STATUS_OK)
  | None => None
  end.

Definition assetError {D G} (s : State D G) (isIndex : Z) (key uri message : string)
    : State D G * Status :=
  (LOG_WRN (key ++ ": " ++ message) s, STATUS_OK).

Definition cgaError {D G} (s : State D G) (isIndex shapeID methodId pc : Z)
    (message : string) : State D G * Status :=
  (LOG_WRN message s, STATUS_OK).

Definition cgaReportBool {D G} (s : State D G) (isIndex shapeID : Z) (key : string)
    (value : bool) : State D G * Status :=
  (s, STATUS_OK).

Definition cgaReportFloat {D G} (s : State D G) (isIndex shapeID : Z) (key : string)
    (value : D) : State D G * Status :=
  (s, STATUS_OK).

Definition cgaReportString {D G} (s : State D G) (isIndex shapeID : Z) (key : string)
    (value : string) : State D G * Status :=
  (s, STATUS_OK).

(** [getBuilder]: the builder of the shape, created on first use. *)
Definition getBuilder {D} (amb : gmap Z (AttributeMapBuilder D)) (shapeID : Z)
    : AttributeMapBuilder D :=
  match amb !! shapeID with
  | Some b => b
  | None => ∅
  end.

Definition attrBool {D G} `{KeyTaken D} (s : State D G) (isIndex shapeID : Z) (key : string)
    (value : bool) : State D G * Status :=
  ({| mDetail := mDetail s; mStatuses := mStatuses s;
      mShapeAttributeBuilders :=
        <[shapeID := setBool key value (getBuilder (mShapeAttributeBuilders s) shapeID)]>
          (mShapeAttributeBuilders s);
      prtLog := prtLog s |}, STATUS_OK).

Definition attrFloat {D G} `{KeyTaken D} (s : State D G) (isIndex shapeID : Z) (key : string)
    (value : D) : State D G * Status :=
  ({| mDetail := mDetail s; mStatuses := mStatuses s;
      mShapeAttributeBuilders :=
        <[shapeID := setFloat key value (getBuilder (mShapeAttributeBuilders s) shapeID)]>
          (mShapeAttributeBuilders s);
      prtLog := prtLog s |}, STATUS_OK).

Definition attrString {D G} `{KeyTaken D} (s : State D G) (isIndex shapeID : Z) (key : string)
    (value : string) : State D G * Status :=
  ({| mDetail := mDetail s; mStatuses := mStatuses s;
      mShapeAttributeBuilders :=
        <[shapeID := setString key value (getBuilder (mShapeAttributeBuilders s) shapeID)]>
          (mShapeAttributeBuilders s);
      prtLog := prtLog s |}, STATUS_OK).

(** [convertVertices]: [pi] takes the values 0, 3, 6, ... below
    [vtxSize]; [vtx] points to an array of [vtxSize] doubles, and reading
    past it is undefined. *)
Definition convertVertices {D} (vtx : list D) (vtxSize : Z) : option (list (D * D * D)) :=
  mapM (fun pi : Z =>
          x ← at_ vtx pi;
          y ← at_ vtx (pi + 1);
          z ← at_ vtx (pi + 2);
          Some (x, y, z))
       ((fun k => 3 * k)%Z <$> seqZ 0 ((vtxSize + 2) / 3)).

Definition attrBoolArray {D G} `{KeyTaken D} (s : State D G) (isIndex shapeID : Z) (key : string)
    (ptr : list bool) (nRows : Z) : State D G * Status :=
  ({| mDetail := mDetail s; mStatuses := mStatuses s;
      mShapeAttributeBuilders :=
        <[shapeID := setBoolArray key ptr (getBuilder (mShapeAttributeBuilders s) shapeID)]>
          (mShapeAttributeBuilders s);
      prtLog := prtLog s |}, STATUS_OK).

Definition attrFloatArray {D G} `{KeyTaken D} (s : State D G) (isIndex shapeID : Z) (key : string)
    (ptr : list D) (nRows : Z) : State D G * Status :=
  ({| mDetail := mDetail s; mStatuses := mStatuses s;
      mShapeAttributeBuilders :=
        <[shapeID := setFloatArray key ptr (getBuilder (mShapeAttributeBuilders s) shapeID)]>
          (mShapeAttributeBuilders s);
      prtLog := prtLog s |}, STATUS_OK).

Definition attrStringArray {D G} `{KeyTaken D} (s : State D G) (isIndex shapeID : Z) (key : string)
    (ptr : list string) (nRows : Z) : State D G * Status :=
  ({| mDetail := mDetail s; mStatuses := mStatuses s;
      mShapeAttributeBuilders :=
        <[shapeID := setStringArray key ptr (getBuilder (mShapeAttributeBuilders s) shapeID)]>
          (mShapeAttributeBuilders s);
      prtLog := prtLog s |}, STATUS_OK).

(** The loop of [createPrimitives] that collects the hole prims into
    groups: a group is the list of the arguments of its [addIndex] calls,
    the parent face first.  [hi] and [holeIndexPos] are positions in the
    two arrays, [holeIndices[holeIndexPos]] past the array is undefined;
    the sums with [primStartOffset] are 64-bit. *)
Fixpoint holeGroupsLoop (primStartOffset : Z) (holeIndices : list Z) (hi : Z)
    (holeCounts : list Z) (holeIndexPos : Z) (holeGroups : list (list Z))
    : option (list (list Z)) :=
  match holeCounts with
  | [] => Some holeGroups
  | holeCount :: holeCounts' =>
      if (holeCount >? 0)%Z then
        holes ← mapM (fun hip : Z =>
                        h ← at_ holeIndices (holeIndexPos + hip);
                        Some (toInt64 (primStartOffset + h)))
                     (seqZ 0 holeCount);
        holeGroupsLoop primStartOffset holeIndices (hi + 1) holeCounts'
          (holeIndexPos + holeCount)
          (holeGroups ++ [toInt64 (primStartOffset + hi) :: holes])
      else
        holeGroupsLoop primStartOffset holeIndices (hi + 1) holeCounts'
          holeIndexPos holeGroups
  end.

(** "create temporary primitive groups of parent face and hole faces":
    the hole groups after the call, from those before it. *)
Definition createHoleGroups (primStartOffset : Z) (holeCounts holeIndices : list Z)
    (holeGroups : list (list Z)) : option (list (list Z)) :=
  if (size holeCounts >? 0)%Z
  then holeGroupsLoop primStartOffset holeIndices 0 holeCounts 0 holeGroups
  else Some holeGroups.

(** [AttributeConversion::ToHoudini::ArrayHandling], as far as the
    converter names it. *)
Inductive ArrayHandling : Type := ARRAY.

(** A call of [AttributeConversion::ToHoudini::convert]
    (AttributeConversion.h is not among the sources): the attribute map,
    the range of primitives, and the array handling where one is given. *)
Record ConvertCall (D : Type) : Type := {
  convertedMap : AttributeMapBuilder D;
  rangeStart : Z;
  rangeSize : Z;
  arrayHandling : option ArrayHandling
}.
Arguments convertedMap {D}.
Arguments rangeStart {D}.
Arguments rangeSize {D}.
Arguments arrayHandling {D}.

(** [ModelConverter::add] after [createPrimitives] has returned
    [primStartOffset]: "convert materials/reports into primitive attributes
    based on face ranges", as the calls of [convert] in their order.
    [materials] and [reports] are [None] for null pointers; reading an
    array past its end is undefined. *)
Definition addAttributes {D G} (s : State D G) (primStartOffset : Z)
    (faceRanges : list Z) (materials reports : option (list (AttributeMapBuilder D)))
    (shapeIDs : list Z) : option (list (ConvertCall D)) :=
  if (size faceRanges >? 1)%Z then
    calls ←
    mapM (fun fri : Z =>
            first ← at_ faceRanges fri;
            next ← at_ faceRanges (fri + 1);
            let rangeStart := toInt64 (primStartOffset + first) in
            let rangeSize := wrap32 (next - first) in
            fromMaterials ←
              match materials with
              | Some materials =>
                  m ← at_ materials fri;
                  Some [ {| convertedMap := m; rangeStart := rangeStart;
                            rangeSize := rangeSize; arrayHandling := None |} ]
              | None => Some []
              end;
            fromReports ←
              match reports with
              | Some reports =>
                  r ← at_ reports fri;
                  Some [ {| convertedMap := r; rangeStart := rangeStart;
                            rangeSize := rangeSize; arrayHandling := None |} ]
              | None => Some []
              end;
            fromAttributes ←
              (if bool_decide (mShapeAttributeBuilders s = ∅) then Some []
               else
                 (* implicit contract: the attr{Bool,Float,String} callbacks are
                    called prior to ModelConverter::add *)
                 shapeID ← at_ shapeIDs fri;
                 match mShapeAttributeBuilders s !! shapeID with
                 | Some attrMap =>
                     Some [ {| convertedMap := attrMap; rangeStart := rangeStart;
                               rangeSize := rangeSize; arrayHandling := Some ARRAY |} ]
                 | None => Some []
                 end);
            Some (fromMaterials ++ fromReports ++ fromAttributes))
         (seqZ 0 (size faceRanges - 1));
    Some (concat calls)
  else Some [].

End ModelConverter.

(** ** HoudiniEncoder.cpp *)

Module HoudiniEncoder.

Import PRT.

(** *** Materials *)

(** [prtx::Texture]: its URI as a string, and [isValid()]. *)
Record Texture : Type := {
  getURI : string;
  isValid : bool
}.

(** [prtx::Material], through the getters the encoder calls. *)
Record Material (D : Type) : Type := {
  getType : string -> PrimitiveType;
  getBool : string -> Z;
  getFloat : string -> D;
  getInt : string -> Z;
  getString : string -> string;
  getBoolArray : string -> list Z;
  getIntArray : string -> list Z;
  getFloatArray : string -> list D;
  getStringArray : string -> list string;
  getTexture : string -> Texture;
  getTextureArray : string -> list Texture
}.
Arguments getType {D}.
Arguments getBool {D}.
Arguments getFloat {D}.
Arguments getInt {D}.
Arguments getString {D}.
Arguments getBoolArray {D}.
Arguments getIntArray {D}.
Arguments getFloatArray {D}.
Arguments getStringArray {D}.
Arguments getTexture {D}.
Arguments getTextureArray {D}.

(** we blacklist all CGA-style material attribute keys, see prtx/Material.h *)
Definition CGA_STYLE_KEYS : list string :=
  [ "ambient.b"; "ambient.g"; "ambient.r";
    "bumpmap.rw"; "bumpmap.su"; "bumpmap.sv"; "bumpmap.tu"; "bumpmap.tv";
    "color.a"; "color.b"; "color.g"; "color.r"; "color.rgb";
    "colormap.rw"; "colormap.su"; "colormap.sv"; "colormap.tu"; "colormap.tv";
    "dirtmap.rw"; "dirtmap.su"; "dirtmap.sv"; "dirtmap.tu"; "dirtmap.tv";
    "normalmap.rw"; "normalmap.su"; "normalmap.sv"; "normalmap.tu"; "normalmap.tv";
    "opacitymap.rw"; "opacitymap.su"; "opacitymap.sv"; "opacitymap.tu"; "opacitymap.tv";
    "specular.b"; "specular.g"; "specular.r";
    "specularmap.rw"; "specularmap.su"; "specularmap.sv"; "specularmap.tu"; "specularmap.tv";
    "bumpmap"; "colormap"; "dirtmap"; "normalmap"; "opacitymap"; "specularmap" ].

(** also blacklist CGA-style PBR attrs from CE 2019.0, PRT 2.x *)
Definition CGA_STYLE_PBR_KEYS : list string :=
  [ "opacitymap.mode";
    "emissive.b"; "emissive.g"; "emissive.r";
    "emissivemap.rw"; "emissivemap.su"; "emissivemap.sv"; "emissivemap.tu"; "emissivemap.tv";
    "metallicmap.rw"; "metallicmap.su"; "metallicmap.sv"; "metallicmap.tu"; "metallicmap.tv";
    "occlusionmap.rw"; "occlusionmap.su"; "occlusionmap.sv"; "occlusionmap.tu"; "occlusionmap.tv";
    "roughnessmap.rw"; "roughnessmap.su"; "roughnessmap.sv"; "roughnessmap.tu"; "roughnessmap.tv";
    "emissivemap"; "metallicmap"; "occlusionmap"; "roughnessmap" ].

(** [MATERIAL_ATTRIBUTE_BLACKLIST], a [std::set<std::wstring>]; the second
    group is compiled in when [PRT_VERSION_MAJOR > 1]. *)
Definition MATERIAL_ATTRIBUTE_BLACKLIST (PRT_VERSION_MAJOR : Z) : gset string :=
  list_to_set
    (CGA_STYLE_KEYS ++ if (1 <? PRT_VERSION_MAJOR)%Z then CGA_STYLE_PBR_KEYS else []).

(** The body of the loop of [convertMaterialToAttributeMap].  For an
    integer array the source passes [&array[0]]; indexing an empty vector
    is undefined, so there is no result then. *)
Definition convertMaterialKey {D} `{KeyTaken D} (PRT_VERSION_MAJOR : Z)
    (prtxAttr : Material D) (aBuilder : AttributeMapBuilder D) (key : string)
    : option (AttributeMapBuilder D) :=
  if bool_decide (key ∈ MATERIAL_ATTRIBUTE_BLACKLIST PRT_VERSION_MAJOR)
  then Some aBuilder (* continue *)
  else
    match getType prtxAttr key with
    | PT_BOOL => Some (setBool key (getBool prtxAttr key =? PRTX_TRUE)%Z aBuilder)
    | PT_FLOAT => Some (setFloat key (getFloat prtxAttr key) aBuilder)
    | PT_INT => Some (setInt key (getInt prtxAttr key) aBuilder)
    | PT_STRING => Some (setString key (getString prtxAttr key) aBuilder)
    | PT_BOOL_ARRAY =>
        Some (setBoolArray key ((fun b => (b =? PRTX_TRUE)%Z) <$> getBoolArray prtxAttr key)
                aBuilder)
    | PT_INT_ARRAY =>
        let array := getIntArray prtxAttr key in
        _ ← at_ array 0; (* &array[0] *)
        Some (setIntArray key array aBuilder)
    | PT_FLOAT_ARRAY => Some (setFloatArray key (getFloatArray prtxAttr key) aBuilder)
    | PT_STRING_ARRAY => Some (setStringArray key (getStringArray prtxAttr key) aBuilder)
    | PT_TEXTURE => Some (setString key (getURI (getTexture prtxAttr key)) aBuilder)
    | PT_TEXTURE_ARRAY =>
        Some (setStringArray key (getURI <$> getTextureArray prtxAttr key) aBuilder)
    | _ => Some aBuilder
    end.

Definition convertMaterialToAttributeMap {D} `{KeyTaken D} (PRT_VERSION_MAJOR : Z)
    (aBuilder : AttributeMapBuilder D) (prtxAttr : Material D) (keys : list string)
    : option (AttributeMapBuilder D) :=
  foldl (fun (aBuilder : option (AttributeMapBuilder D)) (key : string) =>
           aBuilder ← aBuilder;
           convertMaterialKey PRT_VERSION_MAJOR prtxAttr aBuilder key)
        (Some aBuilder) keys.

(** *** Textures and UV sets *)

(** [struct TextureUVMapping] *)
Record TextureUVMapping : Type := {
  key : string;
  index : Z;
  uvSet : Z
}.

(** [TEXTURE_UV_MAPPINGS]: shader key | idx | uv set *)
Definition TEXTURE_UV_MAPPINGS (PRT_VERSION_MAJOR : Z) : list TextureUVMapping :=
  [ {| key := "diffuseMap"; index := 0; uvSet := 0 |};   (* colormap *)
    {| key := "bumpMap"; index := 0; uvSet := 1 |};      (* bumpmap *)
    {| key := "diffuseMap"; index := 1; uvSet := 2 |};   (* dirtmap *)
    {| key := "specularMap"; index := 0; uvSet := 3 |};  (* specularmap *)
    {| key := "opacityMap"; index := 0; uvSet := 4 |};   (* opacitymap *)
    {| key := "normalMap"; index := 0; uvSet := 5 |} ]   (* normalmap *)
  ++ (if (1 <? PRT_VERSION_MAJOR)%Z
      then [ {| key := "emissiveMap"; index := 0; uvSet := 6 |};
             {| key := "occlusionMap"; index := 0; uvSet := 7 |};
             {| key := "roughnessMap"; index := 0; uvSet := 8 |};
             {| key := "metallicMap"; index := 0; uvSet := 9 |} ]
      else []).

(** [ta.size() > t.index && ta[t.index]->isValid()] *)
Definition validTextureAt {D} (mat : Material D) (t : TextureUVMapping) : bool :=
  let ta := getTextureArray mat (key t) in
  (size ta >? index t)%Z &&
  match at_ ta (index t) with Some tex => isValid tex | None => false end.

(** [scanValidTextures]: return the highest required uv set (where a valid
    texture is present) *)
Definition scanValidTextures {D} (PRT_VERSION_MAJOR : Z) (mat : Material D) : Z :=
  let highestUVSet :=
    fold_left
      (fun (highestUVSet : Z) (t : TextureUVMapping) =>
         if validTextureAt mat t then Z.max highestUVSet (uvSet t) else highestUVSet)
      (TEXTURE_UV_MAPPINGS PRT_VERSION_MAJOR) (-1)%Z in
  if (highestUVSet <? 0)%Z then 0%Z else (highestUVSet + 1)%Z.

(** *** Meshes *)

(** One UV set of a [prtx::Mesh]: [getUVCoords(s)] and, face by face, the
    indices [getFaceUVIndices(fi, s)] points to; [getFaceUVCounts(s)] holds
    the number of indices of each face. *)
Record UVSet (D : Type) : Type := {
  uvCoords : list D;
  faceUVIndices : list (list Z)
}.
Arguments uvCoords {D}.
Arguments faceUVIndices {D}.

(** One face of a mesh: [getFaceVertexIndices(fi)],
    [getFaceVertexNormalIndices(fi)] with [getFaceVertexNormalCount(fi)]
    entries (none for a null pointer), [getFaceHolesIndices(fi)] with
    [getFaceHolesCount(fi)] entries. *)
Record Face : Type := {
  faceVertexIndices : list Z;
  faceVertexNormalIndices : list Z;
  faceHolesIndices : list Z
}.

(** [prtx::Mesh] *)
Record Mesh (D : Type) : Type := {
  getVertexCoords : list D;
  getVertexNormalsCoords : list D;
  getFaces : list Face;
  getUVSets : list (UVSet D)
}.
Arguments getVertexCoords {D}.
Arguments getVertexNormalsCoords {D}.
Arguments getFaces {D}.
Arguments getUVSets {D}.

Definition getFaceCount {D} (mesh : Mesh D) : Z := wrap32 (size (getFaces mesh)).
Definition getUVSetsCount {D} (mesh : Mesh D) : Z := wrap32 (size (getUVSets mesh)).
Definition getFaceVertexCounts {D} (mesh : Mesh D) : list Z :=
  (fun f => wrap32 (size (faceVertexIndices f))) <$> getFaces mesh.
Definition getHolesCount {D} (mesh : Mesh D) : Z :=
  fold_left (fun n f => wrap32 (n + size (faceHolesIndices f))) (getFaces mesh) 0%Z.
Definition getUVCoords {D} (mesh : Mesh D) (uvSet : Z) : list D :=
  match at_ (getUVSets mesh) uvSet with Some s => uvCoords s | None => [] end.
Definition getFaceUVIndicesOf {D} (mesh : Mesh D) (uvSet : Z) : list (list Z) :=
  match at_ (getUVSets mesh) uvSet with Some s => faceUVIndices s | None => [] end.
Definition getFaceUVCounts {D} (mesh : Mesh D) (uvSet : Z) : list Z :=
  (fun f => wrap32 (size f)) <$> getFaceUVIndicesOf mesh uvSet.

(** [prtx::Geometry]: [getMeshes()]. *)
Abbreviation Geometry D := (list (Mesh D)).

(** [p[i]] for an index pointer [p] of a face. *)
Definition deref (p : list Z) (i : Z) : Z := default 0%Z (at_ p i).

(** [struct SerializedGeometry].

    Modelled from the spec: HoudiniEncoder.h, which declares the struct and
    its constructor, is not among the sources.  The spec's Generated
    Geometry is the flat arrays below, with coordinate, count and index
    arrays "per UV channel (0..N-1 ...)": the constructor creates the [N]
    empty channels, the other arguments size the reservations. *)
Record SerializedGeometry (D : Type) : Type := {
  sg_coords : list D;
  sg_normals : list D;
  sg_counts : list Z;
  sg_holeCounts : list Z;
  sg_holeIndices : list Z;
  sg_vertexIndices : list Z;
  sg_normalIndices : list Z;
  sg_uvs : list (list D);
  sg_uvCounts : list (list Z);
  sg_uvIndices : list (list Z)
}.
Arguments sg_coords {D}.
Arguments sg_normals {D}.
Arguments sg_counts {D}.
Arguments sg_holeCounts {D}.
Arguments sg_holeIndices {D}.
Arguments sg_vertexIndices {D}.
Arguments sg_normalIndices {D}.
Arguments sg_uvs {D}.
Arguments sg_uvCounts {D}.
Arguments sg_uvIndices {D}.

Definition newSerializedGeometry {D}
    (numCoords numNormalCoords numCounts numHoles numIndices uvSets : Z)
    : SerializedGeometry D :=
  {| sg_coords := []; sg_normals := []; sg_counts := []; sg_holeCounts := [];
     sg_holeIndices := []; sg_vertexIndices := []; sg_normalIndices := [];
     sg_uvs := replicate (Z.to_nat uvSets) [];
     sg_uvCounts := replicate (Z.to_nat uvSets) [];
     sg_uvIndices := replicate (Z.to_nat uvSets) [] |}.

(** *** [detail::serializeGeometry] *)

(** PASS 1: scan.  The counters are [uint32_t]. *)
Record ScanTotals : Type := {
  numCoords : Z;
  numNormalCoords : Z;
  numCounts : Z;
  numHoles : Z;
  numIndices : Z;
  maxNumUVSets : Z
}.

Definition scanMesh {D} (PRT_VERSION_MAJOR : Z) (t : ScanTotals)
    (mesh : Mesh D) (mat : Material D) : ScanTotals :=
  let requiredUVSetsByMaterial := scanValidTextures PRT_VERSION_MAJOR mat in
  {| numCoords := wrap32 (numCoords t + wrap32 (size (getVertexCoords mesh)));
     numNormalCoords :=
       wrap32 (numNormalCoords t + wrap32 (size (getVertexNormalsCoords mesh)));
     numCounts := wrap32 (numCounts t + getFaceCount mesh);
     numHoles := wrap32 (numHoles t + getHolesCount mesh);
     (* std::accumulate(vtxCnts.begin(), vtxCnts.end(), numIndices) *)
     numIndices :=
       fold_left (fun acc c => wrap32 (acc + c)) (getFaceVertexCounts mesh) (numIndices t);
     maxNumUVSets :=
       Z.max (maxNumUVSets t)
             (Z.max (getUVSetsCount mesh) requiredUVSetsByMaterial) |}.

(** The loop over the meshes of one geometry; [matIt] runs along with the
    meshes, and [*matIt] past the end of [mats] is undefined. *)
Fixpoint scanMeshes {D} (PRT_VERSION_MAJOR : Z) (t : ScanTotals)
    (meshes : list (Mesh D)) (mats : list (Material D)) : option ScanTotals :=
  match meshes with
  | [] => Some t
  | mesh :: meshes' =>
      match mats with
      | [] => None
      | mat :: mats' =>
          scanMeshes PRT_VERSION_MAJOR (scanMesh PRT_VERSION_MAJOR t mesh mat) meshes' mats'
      end
  end.

(** The loop over the geometries, [matsIt] running along. *)
Fixpoint scanGeometries {D} (PRT_VERSION_MAJOR : Z) (t : ScanTotals)
    (geometries : list (Geometry D)) (materials : list (list (Material D)))
    : option ScanTotals :=
  match geometries with
  | [] => Some t
  | geo :: geometries' =>
      match materials with
      | [] => None
      | mats :: materials' =>
          t' ← scanMeshes PRT_VERSION_MAJOR t geo mats;
          scanGeometries PRT_VERSION_MAJOR t' geometries' materials'
      end
  end.

(** PASS 2: copy. *)
Record CopyState (D : Type) : Type := {
  sg : SerializedGeometry D;
  vertexIndexBase : Z;
  normalIndexBase : Z;
  faceIndexBase : Z;
  uvIndexBases : list Z
}.
Arguments sg {D}.
Arguments vertexIndexBase {D}.
Arguments normalIndexBase {D}.
Arguments faceIndexBase {D}.
Arguments uvIndexBases {D}.

(** [mesh->getFaceUVIndices(fi, uvSet)] *)
Definition getFaceUVIndices {D} (mesh : Mesh D) (fi : nat) (uvSet : Z) : list Z :=
  default [] (getFaceUVIndicesOf mesh uvSet !! fi).

(** What one iteration of the loop "for all uv sets" appends to the
    arrays of channel [uvSet], given as [sg.uvs[uvSet]], [sg.uvCounts[uvSet]],
    [sg.uvIndices[uvSet]] and [uvIndexBases[uvSet]]:
    - if mesh has no uv sets but maxNumUVSets is > 0, insert "0" uv face
      counts to keep in sync
    - if mesh has less uv sets than maxNumUVSets, copy uv set 0 to the
      missing higher sets *)
Definition appendUVChannel {D} (mesh : Mesh D) (uvSet : Z)
    (channel : list D * list Z * list Z * Z) : list D * list Z * list Z * Z :=
  let '(tgt, tgtCnts, tgtIdx, uvIndexBase) := channel in
  let numUVSets := getUVSetsCount mesh in
  let uvs0 := if (numUVSets >? 0)%Z then getUVCoords mesh 0 else [] in
  let faceUVCounts0 :=
    if (numUVSets >? 0)%Z then getFaceUVCounts mesh 0
    else replicate (Z.to_nat (getFaceCount mesh)) 0%Z in
  (* append texture coordinates *)
  let uvs := if (uvSet <? numUVSets)%Z then getUVCoords mesh uvSet else [] in
  let src := match uvs with [] => uvs0 | _ :: _ => uvs end in
  (* append uv face counts *)
  let own := (uvSet <? numUVSets)%Z && match uvs with [] => false | _ :: _ => true end in
  let faceUVCounts := if own then getFaceUVCounts mesh uvSet else faceUVCounts0 in
  (* append uv vertex indices *)
  let newIdx :=
    concat (imap
      (fun (fi : nat) (faceUVCnt : Z) =>
         let faceUVIdx0 := if (numUVSets >? 0)%Z then getFaceUVIndices mesh fi 0 else [] in
         let faceUVIdx := if own then getFaceUVIndices mesh fi uvSet else faceUVIdx0 in
         (fun vi => wrap32 (uvIndexBase + deref faceUVIdx (faceUVCnt - vi - 1))) (* reverse winding *)
           <$> seqZ 0 faceUVCnt)
      faceUVCounts) in
  (tgt ++ src, tgtCnts ++ faceUVCounts, tgtIdx ++ newIdx,
   wrap32 (uvIndexBase + wrap32 (size src) / 2)).

(** One iteration of the loop "for all uv sets" on the whole state. *)
Definition copyMeshUVSet {D} (mesh : Mesh D) (st : CopyState D) (uvSet : nat)
    : CopyState D :=
  let g := sg st in
  let '(tgt, tgtCnts, tgtIdx, base) :=
    appendUVChannel mesh (Z.of_nat uvSet)
      (sg_uvs g !!! uvSet, sg_uvCounts g !!! uvSet, sg_uvIndices g !!! uvSet,
       uvIndexBases st !!! uvSet) in
  {| sg := {| sg_coords := sg_coords g; sg_normals := sg_normals g;
              sg_counts := sg_counts g; sg_holeCounts := sg_holeCounts g;
              sg_holeIndices := sg_holeIndices g;
              sg_vertexIndices := sg_vertexIndices g;
              sg_normalIndices := sg_normalIndices g;
              sg_uvs := <[uvSet := tgt]> (sg_uvs g);
              sg_uvCounts := <[uvSet := tgtCnts]> (sg_uvCounts g);
              sg_uvIndices := <[uvSet := tgtIdx]> (sg_uvIndices g) |};
     vertexIndexBase := vertexIndexBase st; normalIndexBase := normalIndexBase st;
     faceIndexBase := faceIndexBase st;
     uvIndexBases := <[uvSet := base]> (uvIndexBases st) |}.

(** The loop "for all uv sets" of one mesh: [uvSet] runs from 0 to
    [sg.uvs.size()]; the four vectors indexed by it have that many
    entries, by the constructor and [uvIndexBases(maxNumUVSets, 0u)]. *)
Definition copyMeshUVs {D} (mesh : Mesh D) (st : CopyState D) : CopyState D :=
  fold_left (copyMeshUVSet mesh) (seq 0 (length (sg_uvs (sg st)))) st.

(** append counts and indices for vertices and vertex normals (one face) *)
Definition copyFace {D} (vertexIndexBase normalIndexBase faceIndexBase : Z)
    (g : SerializedGeometry D) (f : Face) : SerializedGeometry D :=
  let vtxCnt := wrap32 (size (faceVertexIndices f)) in
  let nrmCnt := size (faceVertexNormalIndices f) in
  let holeCount := wrap32 (size (faceHolesIndices f)) in
  let reversed := (fun vi => wrap32 (vtxCnt - vi - 1)) <$> seqZ 0 vtxCnt in
  {| sg_coords := sg_coords g; sg_normals := sg_normals g;
     sg_counts := sg_counts g ++ [vtxCnt];
     sg_vertexIndices :=
       sg_vertexIndices g ++
       ((fun viReversed => wrap32 (vertexIndexBase + deref (faceVertexIndices f) viReversed))
          <$> reversed);
     sg_normalIndices :=
       sg_normalIndices g ++
       ((fun viReversed => wrap32 (normalIndexBase + deref (faceVertexNormalIndices f) viReversed))
          <$> List.filter (fun viReversed => (nrmCnt >? viReversed)%Z) reversed);
     sg_holeCounts := sg_holeCounts g ++ [holeCount];
     sg_holeIndices :=
       sg_holeIndices g ++
       ((fun hi => wrap32 (deref (faceHolesIndices f) hi + faceIndexBase))
          <$> seqZ 0 holeCount);
     sg_uvs := sg_uvs g; sg_uvCounts := sg_uvCounts g; sg_uvIndices := sg_uvIndices g |}.

(** The body of the loop "for all meshes". *)
Definition copyMesh {D} (st : CopyState D) (mesh : Mesh D) : CopyState D :=
  let g := sg st in
  (* append points, append normals *)
  let st1 :=
    {| sg := {| sg_coords := sg_coords g ++ getVertexCoords mesh;
                sg_normals := sg_normals g ++ getVertexNormalsCoords mesh;
                sg_counts := sg_counts g; sg_holeCounts := sg_holeCounts g;
                sg_holeIndices := sg_holeIndices g;
                sg_vertexIndices := sg_vertexIndices g;
                sg_normalIndices := sg_normalIndices g;
                sg_uvs := sg_uvs g; sg_uvCounts := sg_uvCounts g;
                sg_uvIndices := sg_uvIndices g |};
       vertexIndexBase := vertexIndexBase st; normalIndexBase := normalIndexBase st;
       faceIndexBase := faceIndexBase st; uvIndexBases := uvIndexBases st |} in
  let st2 := copyMeshUVs mesh st1 in
  let g3 :=
    fold_left (copyFace (vertexIndexBase st2) (normalIndexBase st2) (faceIndexBase st2))
              (getFaces mesh) (sg st2) in
  {| sg := g3;
     vertexIndexBase :=
       wrap32 (vertexIndexBase st2 + wrap32 (size (getVertexCoords mesh)) / 3);
     normalIndexBase :=
       wrap32 (normalIndexBase st2 + wrap32 (size (getVertexNormalsCoords mesh)) / 3);
     faceIndexBase := wrap32 (faceIndexBase st2 + getFaceCount mesh);
     uvIndexBases := uvIndexBases st2 |}.

Definition serializeGeometry {D} (PRT_VERSION_MAJOR : Z)
    (geometries : list (Geometry D)) (materials : list (list (Material D)))
    : option (SerializedGeometry D) :=
  t ← scanGeometries PRT_VERSION_MAJOR
        {| numCoords := 0; numNormalCoords := 0; numCounts := 0; numHoles := 0;
           numIndices := 0; maxNumUVSets := 0 |}
        geometries materials;
  let sg0 :=
    newSerializedGeometry (numCoords t) (numNormalCoords t) (numCounts t)
                          (numHoles t) (numIndices t) (maxNumUVSets t) in
  let st0 :=
    {| sg := sg0; vertexIndexBase := 0; normalIndexBase := 0; faceIndexBase := 0;
       uvIndexBases := replicate (Z.to_nat (maxNumUVSets t)) 0%Z |} in
  Some (sg (fold_left (fun st geo => fold_left copyMesh geo st) geometries st0)).

(** *** Reports and face ranges *)

(** [prtx::Reports]: the reports of a shape by type, as the pairs of key
    and value its three maps are iterated in. *)
Record Reports (D : Type) : Type := {
  mBools : list (string * bool);
  mFloats : list (string * D);
  mStrings : list (string * string)
}.
Arguments mBools {D}.
Arguments mFloats {D}.
Arguments mStrings {D}.

(** [convertReportsToAttributeMap]; [r] is [None] for a null pointer. *)
Definition convertReportsToAttributeMap {D} `{KeyTaken D} (amb : AttributeMapBuilder D)
    (r : option (Reports D)) : AttributeMapBuilder D :=
  match r with
  | None => amb
  | Some r =>
      let amb := fold_left (fun amb b => setBool b.1 b.2 amb) (mBools r) amb in
      let amb := fold_left (fun amb f => setFloat f.1 f.2 amb) (mFloats r) amb in
      fold_left (fun amb s => setString s.1 s.2 amb) (mStrings r) amb
  end.

(** A finalized instance of the encode preparator: [getGeometry()],
    [getMaterials()] (each material with its [getKeys()]), [getReports()]
    and [getShapeId()]. *)
Record FinalizedInstance (D : Type) : Type := {
  instanceGeometry : Geometry D;
  instanceMaterials : list (Material D * list string);
  instanceReports : option (Reports D);
  instanceShapeId : Z
}.
Arguments instanceGeometry {D}.
Arguments instanceMaterials {D}.
Arguments instanceReports {D}.
Arguments instanceShapeId {D}.

(** What the loops of [convertGeometry] build. *)
Record RangesAndMaps (D : Type) : Type := {
  faceCount : Z;
  faceRanges : list Z;
  matAttrMaps : list (AttributeMapBuilder D);
  reportAttrMaps : list (AttributeMapBuilder D)
}.
Arguments faceCount {D}.
Arguments faceRanges {D}.
Arguments matAttrMaps {D}.
Arguments reportAttrMaps {D}.

(** The body of the loop over the meshes of one geometry; [matIt->at(mi)]
    throws past the end of the materials, and the conversion of a material
    may be undefined.  The builder [amb] is empty at every use,
    [createAttributeMapAndReset] having reset it. *)
Definition convertGeometryMesh {D} `{KeyTaken D} (PRT_VERSION_MAJOR : Z)
    (emitMaterials emitReports : bool)
    (inst : FinalizedInstance D) (acc : option (RangesAndMaps D)) (mi : nat) (m : Mesh D)
    : option (RangesAndMaps D) :=
  acc ← acc;
  mat ← instanceMaterials inst !! mi;
  matAttrMaps' ←
    (if emitMaterials
     then
       converted ← convertMaterialToAttributeMap PRT_VERSION_MAJOR ∅ mat.1 mat.2;
       Some (matAttrMaps acc ++ [converted])
     else Some (matAttrMaps acc));
  Some {| faceRanges := faceRanges acc ++ [faceCount acc];
          matAttrMaps := matAttrMaps';
          reportAttrMaps :=
            if emitReports
            then reportAttrMaps acc ++ [convertReportsToAttributeMap ∅ (instanceReports inst)]
            else reportAttrMaps acc;
          faceCount := wrap32 (faceCount acc + getFaceCount m) |}.

(** The arguments [convertGeometry] passes to [HoudiniCallbacks::add]:
    the serialized geometry, the face ranges, the attribute maps of the
    materials and of the reports ([None] for a null pointer) and the shape
    ids. *)
Record AddArguments (D : Type) : Type := {
  addGeometry : SerializedGeometry D;
  addFaceRanges : list Z;
  addMaterials : option (list (AttributeMapBuilder D));
  addReports : option (list (AttributeMapBuilder D));
  addShapeIDs : list Z
}.
Arguments addGeometry {D}.
Arguments addFaceRanges {D}.
Arguments addMaterials {D}.
Arguments addReports {D}.
Arguments addShapeIDs {D}.

(** [HoudiniEncoder::convertGeometry], up to the call of [add]. *)
Definition convertGeometry {D} `{KeyTaken D} (PRT_VERSION_MAJOR : Z)
    (emitMaterials emitReports : bool)
    (instances : list (FinalizedInstance D)) : option (AddArguments D) :=
  let geometries := instanceGeometry <$> instances in
  let materials := (fun inst => fst <$> instanceMaterials inst) <$> instances in
  let shapeIDs := instanceShapeId <$> instances in
  sg ← serializeGeometry PRT_VERSION_MAJOR geometries materials;
  built ←
    fold_left
      (fun acc inst =>
         fold_left (fun acc mim => convertGeometryMesh PRT_VERSION_MAJOR emitMaterials
                                     emitReports inst acc mim.1 mim.2)
                   (imap pair (instanceGeometry inst)) acc)
      instances
      (Some {| faceCount := 0; faceRanges := []; matAttrMaps := []; reportAttrMaps := [] |});
  Some {| addGeometry := sg;
          addFaceRanges := faceRanges built ++ [faceCount built]; (* close last range *)
          addMaterials :=
            match matAttrMaps built with [] => None | maps => Some maps end;
          addReports :=
            match reportAttrMaps built with [] => None | maps => Some maps end;
          addShapeIDs := shapeIDs |}.

End HoudiniEncoder.

(** ** The vocabulary of the properties *)

Import HoleConverter Utils ShapeConverter PRT PRTContext ModelConverter HoudiniEncoder.

(** *** Hole extraction *)

(** The order of the bridge set. *)
Definition Before (a b : Edge) : Prop := undirectedLessThan a b = true.

(** An edge of the polygon, given by its vertex indices, is a bridge. *)
Definition bridgeEdge (source : EdgeSource) (e : Edge) : bool :=
  isBridge source (getPointIndex source e.1) (getPointIndex source e.2).

(** The same edge by its point indices. *)
Definition pointEdge (source : EdgeSource) (e : Edge) : Edge :=
  (getPointIndex source e.1, getPointIndex source e.2).

Definition nonBridgeEdges (source : EdgeSource) : Edges :=
  List.filter (fun e => negb (bridgeEdge source e)) (getEdges source).

Definition nonBridgeStartVertices (source : EdgeSource) : list Z :=
  map fst (nonBridgeEdges source).

(** The ring index of [detectFaceAndHoles] stays inside the list of rings:
    the walk never leaves more holes than it has entered, unless by its
    last edge.  [depth] is the number of holes entered and not yet left. *)
Fixpoint ringIndexStaysInRange (bridges : UndirectedEdgeSet) (depth : nat)
    (es : Edges) : bool :=
  match es with
  | [] => true
  | e :: es' =>
      if checkBridgeEnding EDGE_START bridges e
      then ringIndexStaysInRange bridges (S depth) es'
      else if checkBridgeEnding EDGE_END bridges e
      then match depth with
           | O => match es' with [] => true | _ :: _ => false end
           | S d => ringIndexStaysInRange bridges d es'
           end
      else ringIndexStaysInRange bridges depth es'
  end.

(** The source with another traversal of the same polygon. *)
Definition withEdges (source : EdgeSource) (es : Edges) : EdgeSource :=
  {| getEdges := es; getPointIndex := getPointIndex source; isBridge := isBridge source |}.

(** [x'] stands where [x] stood in a traversal: either the same edge, or
    both are traversals, in whichever direction, of the bridge [e]. *)
Definition laterTraversal (source : EdgeSource) (e x x' : Edge) : Prop :=
  x' = x ∨
  (bridgeEdge source x = true ∧ bridgeEdge source x' = true ∧
   orient (pointEdge source x) = orient (pointEdge source e) ∧
   orient (pointEdge source x') = orient (pointEdge source e)).

(** *** Random seeds *)

(** The position a face index refers to in the flat coordinate array. *)
Definition referencedPosition {D} (coords : list D) (idx : Z) : option (D * D * D) :=
  x ← at_ coords (wrap32 (3 * idx + 0));
  y ← at_ coords (wrap32 (3 * idx + 1));
  z ← at_ coords (wrap32 (3 * idx + 2));
  Some (x, y, z).

Definition referencedPositions {D} (coords : list D) (ch : ConversionHelper D)
    : option (list (D * D * D)) :=
  mapM (referencedPosition coords) (indices ch).

(** The arithmetic mean: the sum, taken from the left, over the count. *)
Definition mean {D} `{DoubleOps D} (xs : list D) : D :=
  d_div (fold_left d_add xs d_zero) (d_of_size (size xs)).

(** The hashes of the centroid's x, y and z, combined in this order. *)
Definition centroidHash {D} `{DoubleOps D} (ps : list (D * D * D)) : Z :=
  let cx := mean ((fun p => p.1.1) <$> ps) in
  let cy := mean ((fun p => p.1.2) <$> ps) in
  let cz := mean ((fun p => p.2) <$> ps) in
  hash_combine (hash_combine (hash_combine 0 (d_hash cx)) (d_hash cy)) (d_hash cz).

(** The point indices a primitive adds to the geometry of its partition:
    those of its rings, ring by ring (of its polygons, polygon by polygon,
    for a soup), each in reversed order; none where the hole extraction is
    undefined. *)
Definition primitiveIndices (prim : Primitive) : option (list Z) :=
  match getGeometry prim with
  | GA_PRIMPOLY p =>
      rings ← extractHoles (GeoFaceHoleSource p);
      Some (concat ((fun ring => rev ((fun o => wrap32 (primPointIndex p o)) <$> ring))
                      <$> rings))
  | GA_PRIMPOLYSOUP polygons =>
      Some (concat ((fun pit => rev ((fun i => wrap32 (pitPointIndex pit i))
                                       <$> seqZ 0 (pitVertexCount pit)))
                      <$> polygons))
  | GA_PRIMOTHER => Some []
  end.

(** *** Recook passes *)

(** The nodes after a recook pass for [rpk], against the nodes before:
    the same nodes in the same order, each with its operator and its
    package; a node is forced afterwards exactly when it was forced before
    or is an assign node whose package equals [rpk] as a path. *)
Definition recookPassed (OP_PLD_ASSIGN : string) (rpk : path)
    (before after : list OP_Node) : Prop :=
  length after = length before ∧
  ∀ (i : nat) (n : OP_Node), before !! i = Some n →
    ∃ n', after !! i = Some n' ∧
      getOperatorName n' = getOperatorName n ∧ getRPK n' = getRPK n ∧
      (recookForced n' = true ↔
       recookForced n = true ∨
       (getOperatorName n = OP_PLD_ASSIGN ∧ path_equal (getRPK n) rpk = true)).

(** *** Materials *)







(** *** Serialized UV channels *)

(** Channel [k] of the copy state: its coordinates, per-face counts,
    indices and running index base. *)
Definition channel {D} (st : CopyState D) (k : nat) : list D * list Z * list Z * Z :=
  (sg_uvs (sg st) !!! k, sg_uvCounts (sg st) !!! k, sg_uvIndices (sg st) !!! k,
   uvIndexBases st !!! k).

Definition channelCount {D} (st : CopyState D) (n : nat) : Prop :=
  length (sg_uvs (sg st)) = n ∧ length (sg_uvCounts (sg st)) = n ∧
  length (sg_uvIndices (sg st)) = n ∧ length (uvIndexBases st) = n.

(** The data of UV set 0 of a mesh; a mesh without UV sets has no
    coordinates and a count of 0 for each face. *)
Definition uvSet0Coords {D} (mesh : Mesh D) : list D :=
  match getUVSets mesh with s :: _ => uvCoords s | [] => [] end.

Definition uvSet0Counts {D} (mesh : Mesh D) : list Z :=
  match getUVSets mesh with
  | s :: _ => (fun f => size f) <$> faceUVIndices s
  | [] => replicate (length (getFaces mesh)) 0%Z
  end.

(** The indices of UV set 0, each face in reversed winding, offset by
    [base]. *)
Definition uvSet0Indices {D} (mesh : Mesh D) (base : Z) : list Z :=
  match getUVSets mesh with
  | s :: _ => concat ((fun f => (fun i => wrap32 (base + i)) <$> rev f) <$> faceUVIndices s)
  | [] => []
  end.

(** The counts of the mesh fit the [uint32_t] the SDK returns them in. *)
Definition meshFits {D} (mesh : Mesh D) : Prop :=
  (size (getFaces mesh) < 2 ^ 32)%Z ∧ (size (getUVSets mesh) < 2 ^ 32)%Z ∧
  Forall (fun s => Forall (fun f : list Z => (size f < 2 ^ 32)%Z) (faceUVIndices s))
         (getUVSets mesh).

(** Every geometry has a material vector, and it holds a material for
    each of its meshes. *)
Fixpoint materialsCover {D} (geometries : list (Geometry D))
    (materials : list (list (Material D))) : bool :=
  match geometries, materials with
  | [], _ => true
  | geo :: geometries', mats :: materials' =>
      bool_decide (length geo ≤ length mats) && materialsCover geometries' materials'
  | _ :: _, [] => false
  end.

(** The meshes of all geometries, each with its material. *)
Definition meshMaterials {D} (geometries : list (Geometry D))
    (materials : list (list (Material D))) : list (Mesh D * Material D) :=
  concat (zip_with zip geometries materials).

Definition requiredUVSets {D} (PRT_VERSION_MAJOR : Z) (p : Mesh D * Material D) : Z :=
  Z.max (getUVSetsCount p.1) (scanValidTextures PRT_VERSION_MAJOR p.2).

(** ** Example inputs *)

(** An edge source over vertices that are their own points. *)
Definition idSource (es : Edges) (bridge : Z -> Z -> bool) : EdgeSource :=
  {| getEdges := es; getPointIndex := fun v => v; isBridge := bridge |}.

Definition bridge_0_4 (p q : Z) : bool :=
  ((p =? 0) && (q =? 4) || (p =? 4) && (q =? 0))%Z.
Definition bridge_1_4 (p q : Z) : bool :=
  ((p =? 1) && (q =? 4) || (p =? 4) && (q =? 1))%Z.

(** A square 0 1 2 3 with the square hole 4 5 6 7, bridged between 0 and
    4: the outer ring, the bridge inward, the hole, the bridge outward. *)
Definition squareWithHole : EdgeSource :=
  idSource [(0,1); (1,2); (2,3); (3,0); (0,4); (4,5); (5,6); (6,7); (7,4); (4,0)]%Z
           bridge_0_4.

(** The same edges, the two traversals of the bridge exchanged: the
    direction (4,0) now comes first. *)
Definition squareWithHole_outwardFirst : EdgeSource :=
  idSource [(0,1); (1,2); (2,3); (3,0); (4,0); (4,5); (5,6); (6,7); (7,4); (0,4)]%Z
           bridge_0_4.

(** The same closed walk, started on the hole. *)
Definition squareWithHole_fromHole : EdgeSource :=
  idSource [(4,5); (5,6); (6,7); (7,4); (4,0); (0,1); (1,2); (2,3); (3,0); (0,4)]%Z
           bridge_0_4.

(** The walk of [squareWithHole], its second traversal of the bridge
    taken inward again. *)
Definition squareWithHole_inwardTwice : EdgeSource :=
  idSource [(0,1); (1,2); (2,3); (3,0); (0,4); (4,5); (5,6); (6,7); (7,4); (0,4)]%Z
           bridge_0_4.

(** A square 0 1 2 3 whose triangular hole 4 5 6 hangs on vertex 1: the
    outer ring goes on after the hole. *)
Definition squareHoleAtSecondVertex : EdgeSource :=
  idSource [(0,1); (1,4); (4,5); (5,6); (6,4); (4,1); (1,2); (2,3); (3,0)]%Z bridge_1_4.

Definition triangleSource : EdgeSource :=
  idSource [(0,1); (1,2); (2,0)]%Z (fun _ _ => false).

(** A host triangle with point-index order (0,1,2). *)
Definition hostTriangle : GA_Primitive :=
  {| primVertexCount := 3; primPointIndex := fun v => v; primVertexOffset := fun v => v;
     faceEdgesByVertex := [(0, 1); (1, 2); (2, 0)]%Z;
     facePointOffset := fun v => v; faceIsBridge := fun _ _ => false |}.

Definition hostSquareWithHole : GA_Primitive :=
  {| primVertexCount := 10; primPointIndex := fun v => v; primVertexOffset := fun v => v;
     faceEdgesByVertex := getEdges squareWithHole;
     facePointOffset := fun v => v; faceIsBridge := bridge_0_4 |}.

Definition soupTriangle : PolygonIterator :=
  {| pitVertexCount := 3; pitPointIndex := fun v => v; pitVertexOffset := fun v => v |}.

(** Integers in the place of doubles, for the examples. *)
Definition integerOps : DoubleOps Z :=
  {| d_zero := 0%Z; d_add := Z.add; d_div := Z.div; d_of_size := fun n => n;
     d_hash := fun x => wrap64 x |}.

Definition triangleHelper : ConversionHelper Z :=
  {| indices := [2; 1; 0]%Z; faceCounts := [3]%Z; holes := [0; 0xFFFFFFFF]%Z;
     uvSets := []; coords := [0; 0; 0; 3; 0; 0; 0; 3; 0]%Z |}.

Definition intSeedAttribute : SeedAttribute :=
  {| getStorageClass := GA_STORECLASS_INT; seedValue := fun off => (off + 41)%Z |}.

(** An integer attribute of 64 bits that stores 2^32 + 5 everywhere. *)
Definition wideSeedAttribute : SeedAttribute :=
  {| getStorageClass := GA_STORECLASS_INT; seedValue := fun _ => 4294967301%Z |}.

(** A partition of one triangle at map offset 1. *)
Definition trianglePartition : list Primitive :=
  [ {| getMapOffset := 1; getGeometry := GA_PRIMPOLY hostTriangle |} ].

(** One rule package under two spellings, and another package. *)
Definition packagePath : path :=
  {| path_string := "/a/b.rpk"; root_name := ""; has_root_directory := true;
     relative_path := ["a"; "b.rpk"] |}.

Definition packagePathRespelled : path :=
  {| path_string := "/a//b.rpk"; root_name := ""; has_root_directory := true;
     relative_path := ["a"; "b.rpk"] |}.

Definition otherPackagePath : path :=
  {| path_string := "/a/c.rpk"; root_name := ""; has_root_directory := true;
     relative_path := ["a"; "c.rpk"] |}.

(** A graph with an assign node of each package and a node of another
    operator. *)
Definition exampleGraph : World unit unit :=
  {| mResolveMapCache := tt; mPRTCache := [tt];
     director :=
       Some [ {| getOperatorName := "pldAssign"; getRPK := packagePathRespelled;
                 recookForced := false |};
              {| getOperatorName := "pldAssign"; getRPK := otherPackagePath;
                 recookForced := false |};
              {| getOperatorName := "pldGenerate"; getRPK := packagePath;
                 recookForced := false |} ];
     calls := [] |}.

(** Two builders for the examples: on a key that holds a value of another
    type, the setter of the one replaces the value, the setter of the other
    leaves the key as it is. *)
Definition replacingBuilder : KeyTaken Z := fun old new => Some new.
Definition refusingBuilder : KeyTaken Z := fun old new => Some old.


(** A material with the three keys of the blacklist test. *)
Definition exampleMaterial : Material Z :=
  {| getType := fun k => if String.eqb k "diffuseColor" then PT_FLOAT_ARRAY
                         else if String.eqb k "bumpmap.su" then PT_FLOAT
                         else if String.eqb k "color.r" then PT_FLOAT
                         else PT_UNDEFINED;
     getBool := fun _ => 0%Z; getFloat := fun _ => 7%Z; getInt := fun _ => 0%Z;
     getString := fun _ => ""; getBoolArray := fun _ => [];
     getIntArray := fun _ => []; getFloatArray := fun _ => [1; 2; 3]%Z;
     getStringArray := fun _ => [];
     getTexture := fun _ => {| getURI := ""; isValid := false |};
     getTextureArray := fun _ => [] |}.

Definition untextured : Material Z :=
  {| getType := fun _ => PT_UNDEFINED;
     getBool := fun _ => 0%Z; getFloat := fun _ => 0%Z; getInt := fun _ => 0%Z;
     getString := fun _ => ""; getBoolArray := fun _ => [];
     getIntArray := fun _ => []; getFloatArray := fun _ => [];
     getStringArray := fun _ => [];
     getTexture := fun _ => {| getURI := ""; isValid := false |};
     getTextureArray := fun _ => [] |}.

Definition triangleFace : Face :=
  {| faceVertexIndices := [0; 1; 2]%Z; faceVertexNormalIndices := [];
     faceHolesIndices := [] |}.

(** Mesh 1 of the backfill test: UV set 0 only. *)
Definition meshOneUVSet : Mesh Z :=
  {| getVertexCoords := [0; 0; 0; 1; 0; 0; 0; 1; 0]%Z; getVertexNormalsCoords := [];
     getFaces := [triangleFace];
     getUVSets := [ {| uvCoords := [10; 11; 12; 13; 14; 15]%Z;
                       faceUVIndices := [[0; 1; 2]%Z] |} ] |}.

(** Mesh 2 of the backfill test: UV sets 0 and 1. *)
Definition meshTwoUVSets : Mesh Z :=
  {| getVertexCoords := [0; 0; 1; 1; 0; 1; 0; 1; 1]%Z; getVertexNormalsCoords := [];
     getFaces := [triangleFace];
     getUVSets := [ {| uvCoords := [20; 21; 22; 23; 24; 25]%Z;
                       faceUVIndices := [[0; 1; 2]%Z] |};
                    {| uvCoords := [30; 31; 32; 33; 34; 35; 36; 37]%Z;
                       faceUVIndices := [[3; 1; 0]%Z] |} ] |}.

(** A converter state with two initial shapes. *)
Definition twoShapes : State Z unit :=
  {| mDetail := tt; mStatuses := [STATUS_OK; STATUS_OK];
     mShapeAttributeBuilders := ∅; prtLog := [] |}.

(** *** Strings *)

(** The strings [fs], each followed by [sep] but the last. *)
Fixpoint join (sep : ascii) (fs : list wstring) : wstring :=
  match fs with
  | [] => []
  | f :: fs' =>
      match fs' with
      | [] => f
      | _ :: _ => f ++ sep :: join sep fs'
      end
  end.

(** The pieces of [s] between its occurrences of [sep], the empty ones
    included. *)
Fixpoint fields (sep : ascii) (s : wstring) : list wstring :=
  match s with
  | [] => [[]]
  | c :: s' =>
      if decide (c = sep) then [] :: fields sep s'
      else match fields sep s' with
           | f :: fs => (c :: f) :: fs
           | [] => [[c]]
           end
  end.

Definition nonEmpty (s : wstring) : Prop := s ≠ [].

(** What [replace_all_not_of] makes of a character. *)
Definition allowedOrUnderscore (allowedChars : wstring) (c : ascii) : ascii :=
  if decide (c ∈ allowedChars) then c else "_"%char.

(** The text of a literal. *)
Definition text (s : string) : wstring := String.list_ascii_of_string s.

(** The edge ends where a stored bridge starts: the walk goes inward. *)
Definition entersHole (bridges : UndirectedEdgeSet) (e : Edge) : bool :=
  checkBridgeEnding EDGE_START bridges e.

(** *** Attribute callbacks *)

(** A call of one of the six attribute callbacks (the array callbacks
    exist from version 2.2 of the engine on). *)
Inductive AttrCall (D : Type) : Type :=
  | CallAttrBool (isIndex shapeID : Z) (key : string) (value : bool)
  | CallAttrFloat (isIndex shapeID : Z) (key : string) (value : D)
  | CallAttrString (isIndex shapeID : Z) (key : string) (value : string)
  | CallAttrBoolArray (isIndex shapeID : Z) (key : string) (ptr : list bool) (nRows : Z)
  | CallAttrFloatArray (isIndex shapeID : Z) (key : string) (ptr : list D) (nRows : Z)
  | CallAttrStringArray (isIndex shapeID : Z) (key : string) (ptr : list string) (nRows : Z).
Arguments CallAttrBool {D}.
Arguments CallAttrFloat {D}.
Arguments CallAttrString {D}.
Arguments CallAttrBoolArray {D}.
Arguments CallAttrFloatArray {D}.
Arguments CallAttrStringArray {D}.

Definition runAttrCall {D G} `{KeyTaken D} (s : State D G) (c : AttrCall D) : State D G * Status :=
  match c with
  | CallAttrBool isIndex shapeID key value => attrBool s isIndex shapeID key value
  | CallAttrFloat isIndex shapeID key value => attrFloat s isIndex shapeID key value
  | CallAttrString isIndex shapeID key value => attrString s isIndex shapeID key value
  | CallAttrBoolArray isIndex shapeID key ptr nRows =>
      attrBoolArray s isIndex shapeID key ptr nRows
  | CallAttrFloatArray isIndex shapeID key ptr nRows =>
      attrFloatArray s isIndex shapeID key ptr nRows
  | CallAttrStringArray isIndex shapeID key ptr nRows =>
      attrStringArray s isIndex shapeID key ptr nRows
  end.

Definition runAttrCalls {D G} `{KeyTaken D} (s : State D G) (cs : list (AttrCall D)) : State D G :=
  fold_left (fun s c => (runAttrCall s c).1) cs s.

Definition callShapeID {D} (c : AttrCall D) : Z :=
  match c with
  | CallAttrBool _ shapeID _ _ | CallAttrFloat _ shapeID _ _
  | CallAttrString _ shapeID _ _ | CallAttrBoolArray _ shapeID _ _ _
  | CallAttrFloatArray _ shapeID _ _ _ | CallAttrStringArray _ shapeID _ _ _ => shapeID
  end.

Definition callKey {D} (c : AttrCall D) : string :=
  match c with
  | CallAttrBool _ _ key _ | CallAttrFloat _ _ key _
  | CallAttrString _ _ key _ | CallAttrBoolArray _ _ key _ _
  | CallAttrFloatArray _ _ key _ _ | CallAttrStringArray _ _ key _ _ => key
  end.

(** The value a call passes, with its type. *)
Definition callValue {D} (c : AttrCall D) : AttrValue D :=
  match c with
  | CallAttrBool _ _ _ value => AV_Bool value
  | CallAttrFloat _ _ _ value => AV_Float value
  | CallAttrString _ _ _ value => AV_String value
  | CallAttrBoolArray _ _ _ ptr _ => AV_BoolArray ptr
  | CallAttrFloatArray _ _ _ ptr _ => AV_FloatArray ptr
  | CallAttrStringArray _ _ _ ptr _ => AV_StringArray ptr
  end.

(** *** Attribute map builders *)

(** Recording pairs of key and value in a builder, one after the other. *)
Definition recordAll {D} `{KeyTaken D} (kvs : list (string * AttrValue D))
    (b : AttributeMapBuilder D) : AttributeMapBuilder D :=
  fold_left (fun b kv => setValue kv.1 kv.2 b) kvs b.

(** The value of the last pair with the key. *)
Definition lastOf {V} (l : list (string * V)) (key : string) : option V :=
  snd <$> last (filter (fun p : string * V => p.1 = key) l).

(** Under the key there are values of type [t] only: in the pairs, and in
    the builder if it holds the key. *)
Definition ofOneType {D} (t : PrimitiveType) (key : string)
    (kvs : list (string * AttrValue D)) (b : AttributeMapBuilder D) : Prop :=
  (∀ old, b !! key = Some old → valueType old = t) ∧
  Forall (fun kv => kv.1 = key → valueType kv.2 = t) kvs.

(** The keys and values of the calls made for a shape, in their order. *)
Definition shapeCalls {D} (cs : list (AttrCall D)) (shapeID : Z)
    : list (string * AttrValue D) :=
  (fun c => (callKey c, callValue c)) <$> filter (fun c => callShapeID c = shapeID) cs.

(** The reports as keys and values, in the order they are converted:
    bools, floats, strings. *)
Definition reportPairs {D} (r : Reports D) : list (string * AttrValue D) :=
  ((fun b => (b.1, AV_Bool b.2)) <$> mBools r) ++
  ((fun f => (f.1, AV_Float f.2)) <$> mFloats r) ++
  ((fun s => (s.1, AV_String s.2)) <$> mStrings r).

(** A flat array read as points, three coordinates each. *)
Fixpoint points {D} (l : list D) : option (list (D * D * D)) :=
  match l with
  | [] => Some []
  | x :: y :: z :: r => cons (x, y, z) <$> points r
  | _ => None
  end.

(** The coordinates of points, as [ShapeConverter::get] and the encoder
    lay them out: x, y, z of one point after the other. *)
Definition flatten {D} (points : list (D * D * D)) : list D :=
  concat ((fun p : D * D * D => [p.1.1; p.1.2; p.2]) <$> points).

(** *** Serialized faces *)

(** Tuple [i] of a flat array of tuples of [stride] entries. *)
Definition tupleAt {D} (stride : Z) (array : list D) (i : Z) : list (option D) :=
  (fun c => at_ array (stride * i + c)%Z) <$> seqZ 0 stride.

(** The corners of the faces of a mesh as positions, face after face,
    each face in reversed winding. *)
Definition meshCorners {D} (mesh : Mesh D) : list (list (option D)) :=
  concat ((fun f => tupleAt 3 (getVertexCoords mesh) <$> rev (faceVertexIndices f))
            <$> getFaces mesh).

(** The coordinates of a mesh are whole points, and the corners of its
    faces are among them. *)
Definition meshVerticesFit {D} (mesh : Mesh D) : Prop :=
  (size (getVertexCoords mesh) mod 3 = 0)%Z ∧
  Forall (fun f =>
            (size (faceVertexIndices f) < 2 ^ 32)%Z ∧
            Forall (fun i => (0 ≤ i ∧ 3 * i + 3 ≤ size (getVertexCoords mesh))%Z)
                   (faceVertexIndices f))
         (getFaces mesh).

(** The holes of the faces of a mesh are faces of the mesh. *)
Definition meshHolesFit {D} (mesh : Mesh D) : Prop :=
  Forall (fun f =>
            (size (faceHolesIndices f) < 2 ^ 32)%Z ∧
            Forall (fun h => (0 ≤ h < size (getFaces mesh))%Z) (faceHolesIndices f))
         (getFaces mesh).

(** The per-face hole counts of a mesh, as [getFaceHolesCount] returns
    them. *)
Definition getFaceHolesCounts {D} (mesh : Mesh D) : list Z :=
  (fun f => wrap32 (size (faceHolesIndices f))) <$> getFaces mesh.

(** What the loops over the UV sets leave alone. *)
Definition geometryPart {D} (st : CopyState D) :=
  (sg_coords (sg st), sg_normals (sg st), sg_counts (sg st), sg_holeCounts (sg st),
   sg_holeIndices (sg st), sg_vertexIndices (sg st), sg_normalIndices (sg st),
   vertexIndexBase st, normalIndexBase st, faceIndexBase st).

(** The vertex and hole indices one face adds. *)
Definition faceCorners (vertexIndexBase : Z) (f : Face) : list Z :=
  (fun i => wrap32 (vertexIndexBase + i)) <$> rev (faceVertexIndices f).

Definition faceHoles (faceIndexBase : Z) (f : Face) : list Z :=
  (fun h => wrap32 (h + faceIndexBase)) <$> faceHolesIndices f.

(** The vertex indices of the meshes, each mesh offset by the vertices
    before it, and the hole lists of their faces, each mesh offset by the
    faces before it. *)
Fixpoint cornersFrom {D} (vertexIndexBase : Z) (meshes : list (Mesh D)) : list Z :=
  match meshes with
  | [] => []
  | mesh :: meshes' =>
      concat (faceCorners vertexIndexBase <$> getFaces mesh) ++
      cornersFrom (wrap32 (vertexIndexBase + wrap32 (size (getVertexCoords mesh)) / 3)) meshes'
  end.

Fixpoint holesFrom {D} (faceIndexBase : Z) (meshes : list (Mesh D)) : list (list Z) :=
  match meshes with
  | [] => []
  | mesh :: meshes' =>
      (faceHoles faceIndexBase <$> getFaces mesh) ++
      holesFrom (wrap32 (faceIndexBase + getFaceCount mesh)) meshes'
  end.

(** For every face of the meshes, in their order, its holes as numbers
    of faces in this order: a mesh-local face number plus the number of
    faces of the meshes before. *)
Fixpoint globalHoles {D} (facesBefore : Z) (meshes : list (Mesh D)) : list (list Z) :=
  match meshes with
  | [] => []
  | mesh :: meshes' =>
      ((fun f => (fun h => (facesBefore + h)%Z) <$> faceHolesIndices f) <$> getFaces mesh) ++
      globalHoles (facesBefore + size (getFaces mesh)) meshes'
  end.

(** The groups that hold, for every face that has holes, the primitive
    of the face and then those of its holes; the primitive of face [i] is
    [primStartOffset + i]. *)
Definition holeGroupsOf (primStartOffset : Z) (firstFace : Z) (holes : list (list Z))
    : list (list Z) :=
  concat (imap (fun (i : nat) (hs : list Z) =>
                  match hs with
                  | [] => []
                  | _ :: _ =>
                      [(primStartOffset + (firstFace + Z.of_nat i))%Z
                       :: ((fun h => (primStartOffset + h)%Z) <$> hs)]
                  end) holes).

(** The sum of the entries. *)
Definition sumZ (l : list Z) : Z := foldr Z.add 0%Z l.

(** The UV sets of a mesh go face by face, and its counts fit the
    [uint32_t] the SDK returns them in. *)
Definition meshUVsFit {D} (mesh : Mesh D) : Prop :=
  meshFits mesh ∧
  Forall (fun s => length (faceUVIndices s) = length (getFaces mesh)) (getUVSets mesh).

(** A channel goes face by face: it has [faces] counts, and as many
    indices as its counts say. *)
Definition inSync {D} (c : list D * list Z * list Z * Z) (faces : nat) : Prop :=
  length c.1.1.2 = faces ∧ size c.1.2 = sumZ c.1.1.2.

(** *** Reports and face ranges *)

(** The calls that convert the maps of every mesh on the primitives of
    its faces: the ranges follow one another from [primStartOffset] on,
    each as long as its mesh has faces. *)
Fixpoint callsOnFaces {D} (primStartOffset : Z) (facesBefore : Z)
    (meshes : list (Mesh D * list (AttributeMapBuilder D))) : list (ConvertCall D) :=
  match meshes with
  | [] => []
  | (m, maps) :: meshes' =>
      ((fun map => {| convertedMap := map;
                      rangeStart := (primStartOffset + facesBefore)%Z;
                      rangeSize := size (getFaces m);
                      arrayHandling := None |}) <$> maps) ++
      callsOnFaces primStartOffset (facesBefore + size (getFaces m)) meshes'
  end.

(** The face counts before each mesh and after the last, as the loop of
    [convertGeometry] sums them up in [uint32_t]. *)
Fixpoint rangesFrom (faceCount : Z) (counts : list Z) : list Z :=
  match counts with
  | [] => [faceCount]
  | c :: counts' => faceCount :: rangesFrom (wrap32 (faceCount + c)) counts'
  end.

(** A mesh of an instance with the attribute maps of its material and of
    the reports of the instance.  The material is converted only if
    materials are emitted: the empty map stands for its map otherwise
    ([emitted] leaves it out), and there is no result when the conversion
    is undefined. *)
Definition meshWithMaps {D} `{KeyTaken D} (PRT_VERSION_MAJOR : Z) (emitMaterials : bool)
    (inst : FinalizedInstance D) (m : Mesh D) (mat : Material D * list string)
    : option (Mesh D * AttributeMapBuilder D * AttributeMapBuilder D) :=
  materialMap ←
    (if emitMaterials then convertMaterialToAttributeMap PRT_VERSION_MAJOR ∅ mat.1 mat.2
     else Some ∅);
  Some (m, materialMap, convertReportsToAttributeMap ∅ (instanceReports inst)).

(** The meshes of an instance, each with the material at its position. *)
Definition instanceMeshes {D} `{KeyTaken D} (PRT_VERSION_MAJOR : Z) (emitMaterials : bool)
    (inst : FinalizedInstance D)
    : option (list (Mesh D * AttributeMapBuilder D * AttributeMapBuilder D)) :=
  mapM (fun mm : Mesh D * (Material D * list string) =>
          meshWithMaps PRT_VERSION_MAJOR emitMaterials inst mm.1 mm.2)
       (zip (instanceGeometry inst) (instanceMaterials inst)).

Definition meshesWithMaps {D} `{KeyTaken D} (PRT_VERSION_MAJOR : Z) (emitMaterials : bool)
    (instances : list (FinalizedInstance D))
    : option (list (Mesh D * AttributeMapBuilder D * AttributeMapBuilder D)) :=
  all ← mapM (instanceMeshes PRT_VERSION_MAJOR emitMaterials) instances;
  Some (concat all).

(** The maps the encoder emits for a mesh: its material map and its report
    map, each if the option asks for it. *)
Definition emitted {D} (emitMaterials emitReports : bool)
    (t : Mesh D * AttributeMapBuilder D * AttributeMapBuilder D)
    : Mesh D * list (AttributeMapBuilder D) :=
  (t.1.1, (if emitMaterials then [t.1.2] else []) ++ (if emitReports then [t.2] else [])).

(** The meshes of the instances in their order, each with the attribute
    maps the encoder emits for it. *)
Definition emittedMaps {D} `{KeyTaken D} (PRT_VERSION_MAJOR : Z)
    (emitMaterials emitReports : bool) (instances : list (FinalizedInstance D))
    : option (list (Mesh D * list (AttributeMapBuilder D))) :=
  (fun all : list (Mesh D * AttributeMapBuilder D * AttributeMapBuilder D) =>
     emitted emitMaterials emitReports <$> all)
  <$> meshesWithMaps PRT_VERSION_MAJOR emitMaterials instances.

(** A vector of maps as [convertGeometry] hands it to [add]: the vector is
    filled only if the option asks for it, and a null pointer stands for
    the empty vector. *)
Definition dataOrNull {A} (emit : bool) (maps : list A) : option (list A) :=
  match (if emit then maps else []) with
  | [] => None
  | maps => Some maps
  end.

(** The number of faces of each mesh. *)
Definition facesPerMesh {D} (all : list (Mesh D * AttributeMapBuilder D * AttributeMapBuilder D))
    : list Z :=
  (fun t => size (getFaces t.1.1)) <$> all.

(** *** Example inputs of the serialized geometry *)

(** A square with a triangular hole: the hole is face 1 of the mesh. *)
Definition meshWithHole : Mesh Z :=
  {| getVertexCoords := [0; 0; 0; 4; 0; 0; 4; 4; 0; 0; 4; 0; 1; 1; 0; 1; 2; 0; 2; 1; 0]%Z;
     getVertexNormalsCoords := [];
     getFaces := [ {| faceVertexIndices := [0; 1; 2; 3]%Z; faceVertexNormalIndices := [];
                      faceHolesIndices := [1]%Z |};
                   {| faceVertexIndices := [4; 5; 6]%Z; faceVertexNormalIndices := [];
                      faceHolesIndices := [] |} ];
     getUVSets := [] |}.

(** An instance of two meshes with reports. *)
Definition instanceOfTwoMeshes : FinalizedInstance Z :=
  {| instanceGeometry := [meshOneUVSet; meshWithHole];
     instanceMaterials := [(exampleMaterial, ["color.r"]); (untextured, [])];
     instanceReports := Some {| mBools := [("flat", true)]; mFloats := [("area", 16%Z)];
                                mStrings := [] |};
     instanceShapeId := 0 |}.

(** *** Texture coordinates of the initial shape *)

(** The texture coordinate each index entry of a UV set refers to. *)
Definition uvAt {D} (uvSet : UV D) : list (list (option D)) :=
  tupleAt 2 (uvs uvSet) <$> idx uvSet.

(** A UV set holds one texture coordinate for each of its index entries. *)
Definition uvInSync {D} (uvSet : UV D) : Prop :=
  size (uvs uvSet) = (2 * size (idx uvSet))%Z.

(** A texture coordinate as it is read back from a UV set. *)
Definition uvPoint {D} (v : D * D) : list (option D) := [Some v.1; Some v.2].

(** A UV handle for the examples. *)
Definition exampleUVHandle : Z → Z * Z := fun off => (10 * off, 10 * off + 1)%Z.

Arguments detectStep : simpl never.

(* ===================================================================== *)
(** * Part II: properties                                                *)
(* ===================================================================== *)

(** ** Machine integers and vectors *)

Lemma wrap32_small (x : Z) : (0 ≤ x < 2 ^ 32)%Z → wrap32 x = x.
Proof. intros. unfold wrap32. by apply Z.mod_small. Qed.

Lemma wrap32_range (x : Z) : (0 ≤ wrap32 x < 2 ^ 32)%Z.
Proof. unfold wrap32. apply Z.mod_pos_bound. lia. Qed.

Lemma wrap64_small (x : Z) : (0 ≤ x < 2 ^ 64)%Z → wrap64 x = x.
Proof. intros. unfold wrap64. by apply Z.mod_small. Qed.

Lemma toInt32_range (x : Z) :
  (- 2 ^ 31 ≤ toInt32 x < 2 ^ 31)%Z ∧ wrap32 (toInt32 x) = wrap32 x.
Proof.
  unfold toInt32, wrap32.
  pose proof (Z.mod_pos_bound x (2 ^ 32) ltac:(lia)) as Hb.
  destruct (x mod 2 ^ 32 <? 2 ^ 31)%Z eqn:Hlt.
  - apply Z.ltb_lt in Hlt. split; [lia|]. by rewrite Z.mod_mod.
  - apply Z.ltb_ge in Hlt. split; [lia|].
    rewrite Zminus_mod, Z.mod_same, Z.sub_0_r, !Z.mod_mod by lia. done.
Qed.

Lemma at_Some {A} (v : list A) (i : Z) (x : A) :
  at_ v i = Some x ↔ (0 ≤ i)%Z ∧ v !! Z.to_nat i = Some x.
Proof.
  unfold at_, size. split.
  - case_match eqn:Hb; [|done]. intros. split; [lia|done].
  - intros [Hi Hx]. pose proof (lookup_lt_Some _ _ _ Hx).
    case_match eqn:Hb; [done|lia].
Qed.

Lemma at_is_Some {A} (v : list A) (i : Z) :
  is_Some (at_ v i) ↔ (0 ≤ i < size v)%Z.
Proof.
  unfold at_, size. case_match eqn:Hb.
  - rewrite lookup_lt_is_Some. lia.
  - split; [by intros [? ?]|lia].
Qed.

(** A loop of [push_back]s is a [map]. *)
Lemma push_back_each {A B} (f : A → B) (l : list A) (init : list B) :
  fold_left (fun acc x => acc ++ [f x]) l init = init ++ map f l.
Proof.
  revert init. induction l as [|x l IH]; intros init; simpl.
  - by rewrite app_nil_r.
  - by rewrite IH, <- app_assoc.
Qed.

(** ** HoleConverter: the undirected order and the bridge set *)

Section UndirectedOrder.

Lemma orient_flip (a b : Z) : orient (a, b) = orient (b, a).
Proof. unfold orient; simpl. repeat case_match; f_equal; lia. Qed.

Lemma Before_irrefl (a : Edge) : ¬ Before a a.
Proof.
  unfold Before, undirectedLessThan, pairLess.
  destruct (orient a) as [x y]; simpl. lia.
Qed.

Lemma Before_trans (a b c : Edge) : Before a b → Before b c → Before a c.
Proof.
  unfold Before, undirectedLessThan, pairLess.
  destruct (orient a) as [x y], (orient b) as [x' y'], (orient c) as [x'' y''].
  simpl. lia.
Qed.

Lemma undirectedLessThan_orient_l (a a' b : Edge) :
  orient a = orient a' → undirectedLessThan a b = undirectedLessThan a' b.
Proof. unfold undirectedLessThan. by intros ->. Qed.

Lemma undirectedLessThan_orient_r (a b b' : Edge) :
  orient b = orient b' → undirectedLessThan a b = undirectedLessThan a b'.
Proof. unfold undirectedLessThan. by intros ->. Qed.

(** Two edges neither of which comes before the other are the same
    undirected pair. *)
Lemma unordered_orient (a b : Edge) :
  undirectedLessThan a b = false → undirectedLessThan b a = false →
  orient a = orient b.
Proof.
  unfold undirectedLessThan, pairLess.
  destruct (orient a) as [x y], (orient b) as [x' y']. simpl.
  intros. f_equal; lia.
Qed.

Lemma elem_of_emplace_inv (e x : Edge) (s : UndirectedEdgeSet) :
  x ∈ emplace e s → x = e ∨ x ∈ s.
Proof.
  induction s as [|y s IH]; simpl.
  - rewrite list_elem_of_singleton. auto.
  - destruct (undirectedLessThan e y); [|destruct (undirectedLessThan y e)];
      rewrite !elem_of_cons; tauto.
Qed.

Lemma elem_of_emplace_old (e x : Edge) (s : UndirectedEdgeSet) :
  x ∈ s → x ∈ emplace e s.
Proof.
  induction s as [|y s IH]; simpl; [by rewrite elem_of_nil|].
  destruct (undirectedLessThan e y); [|destruct (undirectedLessThan y e)];
    rewrite !elem_of_cons; tauto.
Qed.

(** After [emplace], the set holds the undirected pair of the edge, in
    one direction or the other. *)
Lemma emplace_stores_equivalent (e : Edge) (s : UndirectedEdgeSet) :
  ∃ x, x ∈ emplace e s ∧ orient x = orient e.
Proof.
  induction s as [|y s (x & Hx & Hox)]; simpl.
  - exists e. split; [apply list_elem_of_singleton|]; done.
  - destruct (undirectedLessThan e y) eqn:Hey.
    + exists e. split; [left|done].
    + destruct (undirectedLessThan y e) eqn:Hye.
      * exists x. split; [by right|done].
      * exists y. split; [left|]. by apply unordered_orient.
Qed.

Lemma emplace_length (e : Edge) (s : UndirectedEdgeSet) :
  (length (emplace e s) ≤ S (length s))%nat.
Proof.
  induction s as [|x s IH]; simpl; [lia|].
  destruct (undirectedLessThan e x); [simpl; lia|].
  destruct (undirectedLessThan x e); simpl; lia.
Qed.

Lemma emplace_sorted (e : Edge) (s : UndirectedEdgeSet) :
  StronglySorted Before s → StronglySorted Before (emplace e s).
Proof.
  induction 1 as [|y s Hs IH Hy]; simpl.
  - repeat constructor.
  - destruct (undirectedLessThan e y) eqn:Hey.
    + constructor; [by constructor|].
      constructor; [done|].
      eapply Forall_impl; [exact Hy|]. intros z Hz. by eapply Before_trans.
    + destruct (undirectedLessThan y e) eqn:Hye; [|by constructor].
      constructor; [done|].
      apply Forall_forall. intros z [->|Hz]%elem_of_emplace_inv; [done|].
      rewrite Forall_forall in Hy. by apply Hy.
Qed.

(** A sorted set holds an undirected pair at most once. *)
Lemma sorted_orient_inj (s : UndirectedEdgeSet) (x y : Edge) :
  StronglySorted Before s → x ∈ s → y ∈ s → orient x = orient y → x = y.
Proof.
  induction 1 as [|z s Hs IH Hz]; [by rewrite elem_of_nil|].
  rewrite Forall_forall in Hz.
  intros [->|Hx]%elem_of_cons [->|Hy]%elem_of_cons Ho; auto.
  - exfalso. apply (Before_irrefl y). unfold Before.
    rewrite <- (undirectedLessThan_orient_l _ _ _ Ho). by apply Hz.
  - exfalso. apply (Before_irrefl x). unfold Before.
    rewrite (undirectedLessThan_orient_l _ _ _ Ho). by apply Hz.
Qed.

(** [emplace] of a pair the set already holds, in either direction,
    changes nothing. *)
Lemma emplace_equivalent_noop (e : Edge) (s : UndirectedEdgeSet) :
  StronglySorted Before s → (∃ x, x ∈ s ∧ orient x = orient e) →
  emplace e s = s.
Proof.
  induction 1 as [|y s Hs IH Hy]; intros (x & Hx & Ho).
  - by apply elem_of_nil in Hx.
  - simpl. rewrite Forall_forall in Hy.
    assert (Hxe : ∀ z, undirectedLessThan e z = undirectedLessThan x z)
      by (intros z; by apply undirectedLessThan_orient_l).
    assert (Hex : ∀ z, undirectedLessThan z e = undirectedLessThan z x)
      by (intros z; by apply undirectedLessThan_orient_r).
    apply elem_of_cons in Hx as [->|Hx].
    + rewrite Hxe, Hex.
      destruct (undirectedLessThan y y) eqn:Hyy; [by apply Before_irrefl in Hyy|done].
    + pose proof (Hy _ Hx) as Hyx.
      destruct (undirectedLessThan e y) eqn:Hey.
      * rewrite Hxe in Hey. exfalso. apply (Before_irrefl x).
        by eapply Before_trans.
      * rewrite Hex. unfold Before in Hyx. rewrite Hyx. f_equal. apply IH. eauto.
Qed.

End UndirectedOrder.

(** ** HoleConverter: the two loops of [extractHoles] *)

Section CollectLoop.
Variable source : EdgeSource.

Lemma push_back_loop (es : Edges) (back : list Z) :
  fold_left (fun back e => back ++ [e.1]) es back = back ++ map fst es.
Proof.
  revert back. induction es as [|e es IH]; intros back; simpl.
  - by rewrite app_nil_r.
  - by rewrite IH, <- app_assoc.
Qed.

Lemma collect_loop_fst (es : Edges) acc :
  (fold_left (collectStep source) es acc).1 =
  acc.1 ++ map (fun e => (e.1, getPointIndex source e.2))
               (List.filter (fun e => negb (bridgeEdge source e)) es).
Proof.
  revert acc. induction es as [|[a b] es IH]; intros acc; simpl.
  - by rewrite app_nil_r.
  - rewrite IH. unfold bridgeEdge; simpl.
    destruct (isBridge source _ _); simpl; [done|].
    by rewrite <- app_assoc.
Qed.

Lemma collect_loop_sorted (es : Edges) acc :
  StronglySorted Before acc.2 →
  StronglySorted Before (fold_left (collectStep source) es acc).2.
Proof.
  revert acc. induction es as [|[a b] es IH]; intros acc Hs; simpl; [done|].
  apply IH. destruct (isBridge source _ _); simpl; [|done].
  by apply emplace_sorted.
Qed.

Lemma collect_loop_keeps (es : Edges) acc x :
  x ∈ acc.2 → x ∈ (fold_left (collectStep source) es acc).2.
Proof.
  revert acc. induction es as [|[a b] es IH]; intros acc Hx; simpl; [done|].
  apply IH. destruct (isBridge source _ _); simpl; [|done].
  by apply elem_of_emplace_old.
Qed.

(** Every stored bridge is a bridge edge of the traversal. *)
Lemma collect_loop_origin (es : Edges) acc x :
  x ∈ (fold_left (collectStep source) es acc).2 →
  x ∈ acc.2 ∨ ∃ e, e ∈ es ∧ bridgeEdge source e = true ∧ x = pointEdge source e.
Proof.
  revert acc. induction es as [|[a b] es IH]; intros acc; simpl; [auto|].
  intros [Hx|(e & He & Hb & ->)]%IH.
  - destruct (isBridge source _ _) eqn:Hab; simpl in Hx; [|auto].
    apply elem_of_emplace_inv in Hx as [->|Hx]; [|auto].
    right. exists (a, b). split; [left|done].
  - right. exists e. split; [by right|done].
Qed.

Lemma collect_loop_no_bridge (es : Edges) acc :
  (∀ e, e ∈ es → bridgeEdge source e = false) →
  (fold_left (collectStep source) es acc).2 = acc.2.
Proof.
  revert acc. induction es as [|[a b] es IH]; intros acc Hes; simpl; [done|].
  rewrite IH by (intros e He; apply Hes; by right).
  pose proof (Hes (a, b) ltac:(left)) as Hab. unfold bridgeEdge in Hab.
  simpl in Hab. by rewrite Hab.
Qed.

Lemma collect_loop_length (es : Edges) acc :
  (length (fold_left (collectStep source) es acc).1 +
   length (fold_left (collectStep source) es acc).2
   ≤ length acc.1 + length acc.2 + length es)%nat.
Proof.
  revert acc. induction es as [|[a b] es IH]; intros acc; simpl; [lia|].
  etrans; [apply IH|].
  destruct (isBridge source _ _); simpl.
  - pose proof (emplace_length (getPointIndex source a, getPointIndex source b) acc.2).
    lia.
  - rewrite length_app. simpl. lia.
Qed.

Lemma collectEdges_fst :
  map fst (collectEdges source).1 = nonBridgeStartVertices source.
Proof.
  unfold collectEdges. rewrite collect_loop_fst. simpl.
  by rewrite map_map.
Qed.

Lemma collectEdges_sorted : StronglySorted Before (collectEdges source).2.
Proof. apply collect_loop_sorted. constructor. Qed.

(** Once the bridge [e] is stored, replacing later edges by further
    traversals of it, in whichever direction, leaves both results of the
    loop as they are. *)
Lemma collect_loop_retraversal (e : Edge) post post' acc :
  StronglySorted Before acc.2 →
  (∃ y, y ∈ acc.2 ∧ orient y = orient (pointEdge source e)) →
  Forall2 (laterTraversal source e) post post' →
  fold_left (collectStep source) post acc = fold_left (collectStep source) post' acc.
Proof.
  intros Hs Hy Hpost. revert acc Hs Hy.
  induction Hpost as [|x x' post post' Hx Hpost IH]; intros acc Hs (y & Hy & Hoy);
    simpl; [done|].
  destruct Hx as [->|(Hbx & Hbx' & Hox & Hox')].
  - apply IH.
    + destruct x as [a b]. simpl. destruct (isBridge source _ _); simpl; [|done].
      by apply emplace_sorted.
    + exists y. split; [|done].
      destruct x as [a b]. simpl. destruct (isBridge source _ _); simpl; [|done].
      by apply elem_of_emplace_old.
  - assert (Hstep : ∀ z, bridgeEdge source z = true →
        orient (pointEdge source z) = orient (pointEdge source e) →
        collectStep source acc z = acc).
    { intros [a b] Hb Ho. unfold bridgeEdge in Hb. simpl in *. rewrite Hb.
      rewrite emplace_equivalent_noop; [by destruct acc|done|].
      exists y. split; [done|]. etrans; [exact Hoy|]. symmetry. exact Ho. }
    rewrite !Hstep by done. apply IH; eauto.
Qed.

End CollectLoop.

Section DetectLoop.
Variable bridges : UndirectedEdgeSet.

Lemma pushBackAt_Some (info info' : FaceWithHoles) (ringIdx v : Z) :
  pushBackAt info ringIdx v = Some info' →
  ∃ before ring after,
    info = before ++ ring :: after ∧ info' = before ++ (ring ++ [v]) :: after
    ∧ length before = Z.to_nat ringIdx.
Proof.
  unfold pushBackAt. destruct (at_ info ringIdx) as [ring|] eqn:Hat; [|done].
  intros [= <-]. apply at_Some in Hat as [Hi Hat].
  exists (take (Z.to_nat ringIdx) info), ring, (drop (S (Z.to_nat ringIdx)) info).
  pose proof (lookup_lt_Some _ _ _ Hat) as Hlt.
  split_and!.
  - by rewrite take_drop_middle.
  - by apply insert_take_drop.
  - rewrite length_take. lia.
Qed.

Lemma pushBackAt_is_Some (info : FaceWithHoles) (ringIdx v : Z) :
  (0 ≤ ringIdx < size info)%Z → is_Some (pushBackAt info ringIdx v).
Proof.
  intros Hi. apply at_is_Some in Hi as [ring Hring].
  unfold pushBackAt. rewrite Hring. eauto.
Qed.

Lemma pushBackAt_length (info info' : FaceWithHoles) (ringIdx v : Z) :
  pushBackAt info ringIdx v = Some info' → length info' = length info.
Proof.
  intros (before & ring & after & -> & -> & _)%pushBackAt_Some.
  by rewrite !length_app.
Qed.

(** What one iteration does to the rings, whatever the kind of the edge:
    the start vertex goes to the end of one ring, and at most one empty
    ring is added behind the others. *)
Lemma detectStep_Some info ringIdx e info' ringIdx' :
  detectStep bridges (info, ringIdx) e = Some (info', ringIdx') →
  ∃ before ring after tail,
    info = before ++ ring :: after ∧
    info' = before ++ (ring ++ [e.1]) :: after ++ tail ∧
    (tail = [] ∨ tail = [[]]).
Proof.
  unfold detectStep.
  destruct (checkBridgeEnding EDGE_START bridges e);
    [|destruct (checkBridgeEnding EDGE_END bridges e)];
    destruct (pushBackAt info ringIdx e.1) as [info1|] eqn:Hpush; simpl;
    intros [= <- <-];
    apply pushBackAt_Some in Hpush as (before & ring & after & -> & -> & _);
    exists before, ring, after.
  - exists [[]]. rewrite <- app_assoc. simpl. auto.
  - exists []. rewrite app_nil_r. auto.
  - exists []. rewrite app_nil_r. auto.
Qed.

(** The invariant of the walk: the rings together hold the start vertices
    seen so far, and each ring holds its own in the order of the walk. *)
Lemma detectLoop_rings es info ringIdx info' ringIdx' (seen : list Z) :
  detectLoop bridges (info, ringIdx) es = Some (info', ringIdx') →
  concat info ≡ₚ seen →
  Forall (fun ring => sublist ring seen) info →
  concat info' ≡ₚ seen ++ map fst es ∧
  Forall (fun ring => sublist ring (seen ++ map fst es)) info'.
Proof.
  revert info ringIdx seen.
  induction es as [|e es IH]; intros info ringIdx seen; simpl.
  - intros [= <- <-] ? ?. by rewrite app_nil_r.
  - destruct (detectStep bridges (info, ringIdx) e) as [[info1 ringIdx1]|] eqn:Hstep;
      simpl; [|done].
    intros Hloop Hperm Hsub.
    apply detectStep_Some in Hstep as (before & ring & after & tail & -> & -> & Htail).
    replace (seen ++ e.1 :: map fst es) with ((seen ++ [e.1]) ++ map fst es)
      by (by rewrite <- app_assoc).
    eapply IH; [exact Hloop| |].
    + rewrite <- Hperm. rewrite !concat_app. simpl. rewrite !concat_app.
      replace (concat tail) with (@nil Z) by (by destruct Htail as [-> | ->]).
      rewrite app_nil_r. rewrite <- !app_assoc.
      apply Permutation_app_head. apply Permutation_app_head.
      simpl. apply Permutation_cons_append.
    + rewrite !Forall_app, Forall_cons in Hsub. destruct Hsub as (Hb & Hr & Ha).
      rewrite !Forall_app, Forall_cons. split_and!.
      * eapply Forall_impl; [exact Hb|]. intros r Hr'. by apply sublist_inserts_r.
      * by apply sublist_app.
      * apply Forall_app. split.
        -- eapply Forall_impl; [exact Ha|]. intros r Hr'. by apply sublist_inserts_r.
        -- destruct Htail as [-> | ->]; repeat constructor. apply sublist_nil_l.
Qed.

(** The walk returns whenever the ring index stays in range. *)
Lemma detectLoop_defined es info (depth : nat) :
  ringIndexStaysInRange bridges depth es = true →
  (depth < length info)%nat →
  (size info + size es < 2 ^ 64)%Z →
  is_Some (detectLoop bridges (info, Z.of_nat depth) es).
Proof.
  revert info depth.
  induction es as [|e es IH]; intros info depth Hin Hd Hsz; simpl; [eauto|].
  simpl in Hin. unfold size in *. simpl length in Hsz.
  destruct (pushBackAt_is_Some info (Z.of_nat depth) e.1) as [info1 Hpush];
    [unfold size; lia|].
  pose proof (pushBackAt_length _ _ _ _ Hpush) as Hlen.
  unfold detectStep. rewrite Hpush.
  destruct (checkBridgeEnding EDGE_START bridges e); simpl.
  - rewrite wrap64_small by lia.
    replace (Z.of_nat depth + 1)%Z with (Z.of_nat (S depth)) by lia.
    apply IH; [done| |]; rewrite length_app; cbn [length]; lia.
  - destruct (checkBridgeEnding EDGE_END bridges e); simpl.
    + destruct depth as [|d].
      * destruct es; [simpl; eauto|done].
      * rewrite wrap64_small by lia.
        replace (Z.of_nat (S d) - 1)%Z with (Z.of_nat d) by lia.
        apply IH; [done|lia|lia].
    + apply IH; [done|lia|lia].
Qed.

End DetectLoop.

(** ** HoleConverter: [extractHoles] *)

Lemma extractHoles_rings (source : EdgeSource) rings :
  extractHoles source = Some rings →
  concat rings ≡ₚ nonBridgeStartVertices source ∧
  Forall (fun ring => sublist ring (nonBridgeStartVertices source)) rings.
Proof.
  unfold extractHoles. rewrite <- collectEdges_fst.
  destruct (collectEdges source) as [es [|b bridges]]; simpl.
  - intros [= <-]. rewrite push_back_loop. simpl. rewrite app_nil_r.
    split; [done|]. by repeat constructor.
  - unfold detectFaceAndHoles.
    destruct (detectLoop _ _ es) as [[info ringIdx]|] eqn:Hloop; simpl; [|done].
    intros [= <-].
    apply (detectLoop_rings _ _ _ _ _ _ []) in Hloop; [done|done|].
    repeat constructor.
Qed.

Lemma extractHoles_defined (source : EdgeSource) :
  (size (getEdges source) < 2 ^ 64)%Z →
  ringIndexStaysInRange (collectEdges source).2 0 (collectEdges source).1 = true →
  is_Some (extractHoles source).
Proof.
  intros Hsz Hin. unfold extractHoles.
  pose proof (collect_loop_length source (getEdges source) ([], [])) as Hlen.
  fold (collectEdges source) in Hlen.
  destruct (collectEdges source) as [es [|b bridges]]; simpl in *; [eauto|].
  unfold detectFaceAndHoles.
  destruct (detectLoop_defined (b :: bridges) es [[]] 0) as [st Hst];
    [done|simpl; lia|unfold size in *; simpl; lia|].
  change (Z.of_nat 0) with 0%Z in Hst. rewrite Hst. simpl. eauto.
Qed.

Lemma extractHoles_without_bridges (source : EdgeSource) :
  (∀ e, e ∈ getEdges source → bridgeEdge source e = false) →
  extractHoles source = Some [map fst (getEdges source)].
Proof.
  intros Hnb. unfold extractHoles, collectEdges.
  pose proof (collect_loop_fst source (getEdges source) ([], [])) as Hfst.
  pose proof (collect_loop_no_bridge source (getEdges source) ([], []) Hnb) as Hsnd.
  destruct (fold_left _ _ _) as [nb bs]. simpl in *. subst bs nb.
  rewrite push_back_loop. simpl. do 2 f_equal.
  rewrite map_map. simpl.
  f_equal. apply forallb_filter_id, forallb_forall.
  intros e He%list_elem_of_In. by rewrite Hnb.
Qed.

(** C2.  When [isBridge] holds for no edge of the polygon, [extractHoles]
    returns exactly one ring, and this ring lists the start-vertex index
    of every edge in the order of the traversal. *)
Theorem extractHoles_no_bridges_single_ring (source : EdgeSource) :
  (∀ e, e ∈ getEdges source → bridgeEdge source e = false) →
  extractHoles source = Some [map fst (getEdges source)].
Proof. apply extractHoles_without_bridges. Qed.

Lemma extractHoles_no_bridges_triangle :
  extractHoles triangleSource = Some [[0; 1; 2]%Z].
Proof.
  apply (extractHoles_no_bridges_single_ring triangleSource).
  intros e _. reflexivity.
Defined.

(** C10, as stated, fails: on a square whose hole hangs on its second
    vertex the rings come back outer ring first, which is not the order in
    which the walk met the vertices. *)
Lemma rings_in_ring_order_not_traversal_order :
  extractHoles squareHoleAtSecondVertex = Some [[0; 1; 2; 3]; [4; 5; 6]]%Z ∧
  nonBridgeStartVertices squareHoleAtSecondVertex = [0; 4; 5; 6; 1; 2; 3]%Z ∧
  concat [[0; 1; 2; 3]; [4; 5; 6]]%Z ≠ nonBridgeStartVertices squareHoleAtSecondVertex.
Proof. split_and!; [reflexivity|reflexivity|discriminate]. Qed.

(** C10, amended.  The rings [extractHoles] returns, concatenated outer
    ring first, are a rearrangement of the start-vertex indices of the
    non-bridge edges: every non-bridge edge gives one index to one ring,
    bridge edges give none, the total count is the number of non-bridge
    edges, and each ring lists its indices in the order of the traversal.
    [extractHoles] returns whenever the ring index of the walk stays
    within the list of rings. *)
Theorem extractHoles_rings_partition_non_bridge_edges (source : EdgeSource) :
  (∀ rings, extractHoles source = Some rings →
     concat rings ≡ₚ nonBridgeStartVertices source ∧
     length (concat rings) = length (nonBridgeEdges source) ∧
     Forall (fun ring => sublist ring (nonBridgeStartVertices source)) rings) ∧
  ((size (getEdges source) < 2 ^ 64)%Z →
   ringIndexStaysInRange (collectEdges source).2 0 (collectEdges source).1 = true →
   is_Some (extractHoles source)).
Proof.
  split; [|apply extractHoles_defined].
  intros rings [Hperm Hsub]%extractHoles_rings. split_and!; [done| |done].
  rewrite Hperm. unfold nonBridgeStartVertices. by rewrite length_map.
Qed.

Lemma extractHoles_rings_partition_example :
  concat [[0; 1; 2; 3]; [4; 5; 6]]%Z ≡ₚ nonBridgeStartVertices squareHoleAtSecondVertex ∧
  length (concat [[0; 1; 2; 3]; [4; 5; 6]]%Z)
    = length (nonBridgeEdges squareHoleAtSecondVertex) ∧
  Forall (fun ring => sublist ring (nonBridgeStartVertices squareHoleAtSecondVertex))
    [[0; 1; 2; 3]; [4; 5; 6]]%Z.
Proof.
  apply (proj1 (extractHoles_rings_partition_non_bridge_edges squareHoleAtSecondVertex)).
  reflexivity.
Defined.

(** C7, as stated, fails: the two sources below have the same non-bridge
    edges and the same bridge, and differ only in which direction of the
    bridge the traversal meets first; the first yields the outer ring and
    the hole, the second indexes outside the list of rings.  The same
    closed walk started on the hole yields the two rings exchanged. *)
Lemma bridge_direction_changes_rings :
  nonBridgeEdges squareWithHole_outwardFirst = nonBridgeEdges squareWithHole ∧
  (collectEdges squareWithHole).2 = [(0, 4)%Z] ∧
  (collectEdges squareWithHole_outwardFirst).2 = [(4, 0)%Z] ∧
  extractHoles squareWithHole = Some [[0; 1; 2; 3]; [4; 5; 6; 7]]%Z ∧
  extractHoles squareWithHole_outwardFirst = None ∧
  extractHoles squareWithHole_fromHole = Some [[4; 5; 6; 7]; [0; 1; 2; 3]]%Z.
Proof. split_and!; reflexivity. Qed.

(** C7, amended.  The bridge set is undirected: (a,b) and (b,a) are the
    same element for its order, it holds each bridge once, in the
    direction the traversal meets first, and every later traversal of a
    stored bridge, in either direction, leaves the result of
    [extractHoles] as it is.  The rings do depend on the direction that
    is stored (the code assumes the traversal starts on the outer ring). *)
Theorem bridges_undirected_first_direction_stored (source : EdgeSource) :
  (∀ a b, undirectedLessThan (a, b) (b, a) = false ∧
          undirectedLessThan (b, a) (a, b) = false) ∧
  (∀ x y, x ∈ (collectEdges source).2 → y ∈ (collectEdges source).2 →
          orient x = orient y → x = y) ∧
  (∀ pre e post,
     getEdges source = pre ++ e :: post → bridgeEdge source e = true →
     (∀ e0, e0 ∈ pre → bridgeEdge source e0 = true →
            orient (pointEdge source e0) ≠ orient (pointEdge source e)) →
     pointEdge source e ∈ (collectEdges source).2) ∧
  (∀ pre e post post',
     getEdges source = pre ++ e :: post → bridgeEdge source e = true →
     Forall2 (laterTraversal source e) post post' →
     extractHoles (withEdges source (pre ++ e :: post')) = extractHoles source).
Proof.
  split_and!.
  - intros a b. unfold undirectedLessThan. rewrite (orient_flip a b).
    split; apply not_true_is_false, (Before_irrefl (b, a)).
  - intros x y. apply sorted_orient_inj, collectEdges_sorted.
  - intros pre [a b] post Hedges Hb Hfirst. unfold collectEdges.
    rewrite Hedges, fold_left_app. simpl.
    apply collect_loop_keeps.
    unfold bridgeEdge in Hb. simpl in Hb. rewrite Hb. simpl.
    destruct (emplace_stores_equivalent (pointEdge source (a, b))
                (fold_left (collectStep source) pre ([], [])).2) as (x & Hx & Ho).
    apply elem_of_emplace_inv in Hx as Hx'. destruct Hx' as [->|Hx']; [done|].
    apply collect_loop_origin in Hx' as [Hx'|(e0 & He0 & Hb0 & ->)].
    + by apply elem_of_nil in Hx'.
    + by destruct (Hfirst e0 He0 Hb0).
  - intros pre e post post' Hedges Hb Hpost.
    unfold extractHoles, collectEdges. simpl. rewrite Hedges.
    rewrite !fold_left_app. simpl.
    rewrite (collect_loop_retraversal source e post post'); [done| | |done].
    + destruct e as [a b]. unfold bridgeEdge in Hb. simpl in *. rewrite Hb. simpl.
      apply emplace_sorted, collect_loop_sorted. constructor.
    + destruct e as [a b]. unfold bridgeEdge in Hb. simpl in *. rewrite Hb. simpl.
      apply emplace_stores_equivalent.
Qed.

Lemma later_bridge_direction_ignored :
  extractHoles squareWithHole_inwardTwice = extractHoles squareWithHole.
Proof.
  apply (proj2 (proj2 (proj2 (bridges_undirected_first_direction_stored squareWithHole)))
           [(0,1); (1,2); (2,3); (3,0)]%Z (0,4)%Z
           [(4,5); (5,6); (6,7); (7,4); (4,0)]%Z [(4,5); (5,6); (6,7); (7,4); (0,4)]%Z).
  - reflexivity.
  - reflexivity.
  - repeat (constructor; [by left|]).
    constructor; [|constructor]. right. by split_and!.
Defined.

(** ** ShapeConverter: polygons *)

Section Conversion.
Context {D : Type}.
Implicit Types (ch : ConversionHelper D) (uvHandles : list (GA_ROHandleV2D D)).

Lemma forEachUVSetFrom_defined (u : nat) uvHandles (sets : list (UV D)) func :
  u + length uvHandles ≤ length sets →
  ∃ sets', forEachUVSetFrom u uvHandles sets func = Some sets'
           ∧ length sets' = length sets.
Proof.
  revert u sets. induction uvHandles as [|[uvh|] rest IH]; intros u sets Hlen; simpl in *.
  - eauto.
  - destruct (lookup_lt_is_Some_2 sets u) as [uvSet Hu]; [lia|].
    rewrite Hu. simpl.
    destruct (IH (S u) (<[u := func uvh uvSet]> sets)) as (sets' & Hs & Hl).
    + rewrite length_insert. lia.
    + exists sets'. split; [done|]. by rewrite Hl, length_insert.
  - apply IH. lia.
Qed.

(** The UV pass leaves the geometry arrays alone. *)
Lemma forEachUVSet_geometry uvHandles ch func :
  length uvHandles ≤ length (uvSets ch) →
  ∃ ch', forEachUVSet uvHandles ch func = Some ch' ∧
         indices ch' = indices ch ∧ faceCounts ch' = faceCounts ch ∧
         holes ch' = holes ch ∧ coords ch' = coords ch ∧
         length (uvSets ch') = length (uvSets ch).
Proof.
  intros Hlen. unfold forEachUVSet.
  destruct (forEachUVSetFrom_defined 0 uvHandles (uvSets ch) func) as (sets' & Hs & Hl);
    [lia|].
  rewrite Hs. simpl. eauto 10.
Qed.

Lemma convertRing_loop (prim : GA_Primitive) (rings : list (list Z)) ch :
  let ch' := fold_left (convertRing prim) rings ch in
  holes ch' =
    holes ch ++ imap (fun i _ => wrap32 (size (faceCounts ch) + Z.of_nat i)) rings ∧
  faceCounts ch' = faceCounts ch ++ map (fun ring => wrap32 (size ring)) rings ∧
  indices ch' =
    indices ch ++
    concat (map (fun ring => rev (map (fun o => wrap32 (primPointIndex prim o)) ring)) rings) ∧
  uvSets ch' = uvSets ch ∧ coords ch' = coords ch.
Proof.
  cbv zeta. revert ch. induction rings as [|ring rings IH]; intros ch; simpl.
  - by rewrite !app_nil_r.
  - destruct (IH (convertRing prim ch ring)) as (Hh & Hf & Hi & Hu & Hc).
    rewrite Hh, Hf, Hi, Hu, Hc. simpl.
    rewrite push_back_each, <- !app_assoc, map_rev. simpl.
    split_and!; try done.
    do 2 f_equal. rewrite Z.add_0_r. f_equal.
    apply imap_ext. intros i ring' _. simpl.
    unfold size. rewrite length_app. simpl. f_equal. lia.
Qed.

Lemma convertPolygon_geometry ch (prim : GA_Primitive) uvHandles (rings : list (list Z)) :
  extractHoles (GeoFaceHoleSource prim) = Some rings →
  length uvHandles ≤ length (uvSets ch) →
  ∃ ch', convertPolygon ch prim uvHandles = Some ch' ∧
    holes ch' =
      holes ch ++ imap (fun i _ => wrap32 (size (faceCounts ch) + Z.of_nat i)) rings
               ++ [UINT32_MAX] ∧
    faceCounts ch' = faceCounts ch ++ map (fun ring => wrap32 (size ring)) rings ∧
    indices ch' =
      indices ch ++
      concat (map (fun ring => rev (map (fun o => wrap32 (primPointIndex prim o)) ring)) rings).
Proof.
  intros Hrings Hlen. unfold convertPolygon. rewrite Hrings. simpl.
  destruct (convertRing_loop prim rings ch) as (Hh & Hf & Hi & Hu & Hc).
  match goal with |- context [forEachUVSet _ ?c ?f] =>
    destruct (forEachUVSet_geometry uvHandles c f) as (ch' & Hch' & Hi' & Hf' & Hh' & _)
  end.
  { simpl. by rewrite Hu. }
  exists ch'. split; [done|]. simpl in *.
  rewrite Hh', Hf', Hi', Hh, Hf, Hi. by rewrite <- app_assoc.
Qed.

Lemma convertSoupPolygon_geometry ch (prim : PolygonIterator) uvHandles :
  length uvHandles ≤ length (uvSets ch) →
  ∃ ch', convertSoupPolygon ch prim uvHandles = Some ch' ∧
    holes ch' = holes ch ∧
    faceCounts ch' = faceCounts ch ++ [wrap32 (pitVertexCount prim)] ∧
    indices ch' =
      indices ch ++
      rev (map (fun i => wrap32 (pitPointIndex prim i)) (seqZ 0 (pitVertexCount prim))).
Proof.
  intros Hlen. unfold convertSoupPolygon.
  match goal with |- context [forEachUVSet _ ?c ?f] =>
    destruct (forEachUVSet_geometry uvHandles c f) as (ch' & Hch' & Hi' & Hf' & Hh' & _)
  end; [done|].
  exists ch'. split; [done|]. simpl in *.
  rewrite Hh', Hf', Hi'. split_and!; try done.
  by rewrite push_back_each, map_rev.
Qed.

(** C3.  Converting a plain polygon primitive appends to the hole array,
    for every ring of the primitive (the outer ring and each hole ring),
    the index its face count takes in the face-count array, and after
    them the sentinel 0xFFFFFFFF, once; converting a polygon of a polygon
    soup appends a single face count and nothing to the hole array.  The
    helper has a UV set for every handle, as its constructor makes it. *)
Theorem convertPolygon_emits_hole_delimiters ch uvHandles :
  length uvHandles ≤ length (uvSets ch) →
  (∀ (prim : GA_Primitive) (rings : list (list Z)),
     extractHoles (GeoFaceHoleSource prim) = Some rings →
     ∃ ch', convertPolygon ch prim uvHandles = Some ch' ∧
       faceCounts ch' = faceCounts ch ++ map (fun ring => wrap32 (size ring)) rings ∧
       holes ch' =
         holes ch
         ++ imap (fun i _ => wrap32 (size (faceCounts ch) + Z.of_nat i)) rings
         ++ [0xFFFFFFFF%Z] ∧
       ((size (faceCounts ch) + size rings ≤ 2 ^ 32)%Z →
        ∀ (i : nat) (ring : list Z), rings !! i = Some ring →
          holes ch' !! (length (holes ch) + i)%nat
            = Some (Z.of_nat (length (faceCounts ch) + i)) ∧
          faceCounts ch' !! (length (faceCounts ch) + i)%nat = Some (wrap32 (size ring)))) ∧
  (∀ prim : PolygonIterator,
     ∃ ch', convertSoupPolygon ch prim uvHandles = Some ch' ∧
       faceCounts ch' = faceCounts ch ++ [wrap32 (pitVertexCount prim)] ∧
       holes ch' = holes ch).
Proof.
  intros Hlen. split.
  - intros prim rings Hrings.
    destruct (convertPolygon_geometry ch prim uvHandles rings Hrings Hlen)
      as (ch' & Hch' & Hh & Hf & _).
    exists ch'. split_and!; try done.
    intros Hfit i ring Hi. rewrite Hh, Hf.
    pose proof (lookup_lt_Some _ _ _ Hi) as Hlt.
    split.
    + rewrite lookup_app_r by lia. rewrite lookup_app_l by (rewrite length_imap; lia).
      replace (length (holes ch) + i - length (holes ch))%nat with i by lia.
      rewrite list_lookup_imap, Hi. simpl. f_equal.
      unfold size in *. unfold wrap32. rewrite Z.mod_small; lia.
    + rewrite lookup_app_r by lia.
      replace (length (faceCounts ch) + i - length (faceCounts ch))%nat with i by lia.
      by rewrite list_lookup_fmap, Hi.
  - intros prim.
    destruct (convertSoupPolygon_geometry ch prim uvHandles Hlen) as (ch' & ? & ? & ? & _).
    eauto.
Qed.

(** C6.  The converter appends the point indices of every face in the
    reverse of the host's order: ring by ring for a polygon primitive,
    hence the whole face for a polygon without holes, and the whole
    polygon for a polygon of a soup; the host triangle (0,1,2) gives
    (2,1,0) on both paths. *)
Theorem convertPolygon_reverses_winding ch uvHandles :
  length uvHandles ≤ length (uvSets ch) →
  (∀ (prim : GA_Primitive) (rings : list (list Z)),
     extractHoles (GeoFaceHoleSource prim) = Some rings →
     ∃ ch', convertPolygon ch prim uvHandles = Some ch' ∧
       indices ch' =
         indices ch ++
         concat (map (fun ring => rev (map (fun o => wrap32 (primPointIndex prim o)) ring))
                     rings)) ∧
  (∀ prim : GA_Primitive,
     (∀ e, e ∈ faceEdgesByVertex prim → bridgeEdge (GeoFaceHoleSource prim) e = false) →
     ∃ ch', convertPolygon ch prim uvHandles = Some ch' ∧
       indices ch' =
         indices ch ++
         rev (map (fun o => wrap32 (primPointIndex prim o))
                  (map fst (faceEdgesByVertex prim)))) ∧
  (∀ prim : PolygonIterator,
     ∃ ch', convertSoupPolygon ch prim uvHandles = Some ch' ∧
       indices ch' =
         indices ch ++
         rev (map (fun i => wrap32 (pitPointIndex prim i))
                  (seqZ 0 (pitVertexCount prim)))) ∧
  (indices <$> convertPolygon (newConversionHelper (coords ch) uvHandles) hostTriangle uvHandles
     = Some [2; 1; 0]%Z) ∧
  (indices <$> convertSoupPolygon (newConversionHelper (coords ch) uvHandles) soupTriangle uvHandles
     = Some [2; 1; 0]%Z).
Proof.
  intros Hlen.
  assert (Hnew : length uvHandles ≤
                 length (uvSets (newConversionHelper (coords ch) uvHandles)))
    by (simpl; by rewrite length_replicate).
  split_and!.
  - intros prim rings Hrings.
    destruct (convertPolygon_geometry ch prim uvHandles rings Hrings Hlen)
      as (ch' & Hch' & _ & _ & Hi).
    eauto.
  - intros prim Hnb.
    pose proof (extractHoles_without_bridges (GeoFaceHoleSource prim) Hnb) as Hrings.
    destruct (convertPolygon_geometry ch prim uvHandles _ Hrings Hlen)
      as (ch' & Hch' & _ & _ & Hi).
    exists ch'. split; [done|]. rewrite Hi. simpl. by rewrite app_nil_r.
  - intros prim.
    destruct (convertSoupPolygon_geometry ch prim uvHandles Hlen) as (ch' & ? & _ & _ & ?).
    eauto.
  - destruct (convertPolygon_geometry (newConversionHelper (coords ch) uvHandles)
                hostTriangle uvHandles [[0; 1; 2]%Z] eq_refl Hnew)
      as (ch' & Hch' & _ & _ & Hi).
    rewrite Hch'. simpl. by rewrite Hi.
  - destruct (convertSoupPolygon_geometry (newConversionHelper (coords ch) uvHandles)
                soupTriangle uvHandles Hnew)
      as (ch' & Hch' & _ & _ & Hi).
    rewrite Hch'. simpl. by rewrite Hi.
Qed.

End Conversion.

Lemma convertPolygon_hole_delimiters_example :
  ∃ ch', convertPolygon (newConversionHelper ([] : list Z) []) hostSquareWithHole [] = Some ch'
         ∧ faceCounts ch' = [4; 4]%Z ∧ holes ch' = [0; 1; 0xFFFFFFFF]%Z.
Proof.
  destruct (proj1 (convertPolygon_emits_hole_delimiters
                     (newConversionHelper ([] : list Z) []) [] (le_n 0))
              hostSquareWithHole [[0; 1; 2; 3]; [4; 5; 6; 7]]%Z eq_refl)
    as (ch' & Hch' & Hf & Hh & _).
  exists ch'. done.
Defined.

Lemma convertPolygon_reverses_triangle :
  indices <$> convertPolygon (newConversionHelper ([] : list Z) []) hostTriangle []
    = Some [2; 1; 0]%Z.
Proof.
  exact (proj1 (proj2 (proj2 (proj2 (convertPolygon_reverses_winding
           (newConversionHelper ([] : list Z) []) [] (le_n 0)))))).
Defined.

(** ** ShapeConverter: the random seed *)

Section Seed.
Context {D : Type} `{!DoubleOps D}.

Lemma centroid_sums (coords : list D) (idxs : list Z) (ps : list (D * D * D)) (a b c : D) :
  Forall2 (fun idx p => referencedPosition coords idx = Some p) idxs ps →
  foldl
    (fun (acc : option (D * D * D)) (idx : Z) =>
       '(c0, c1, c2) ← acc;
       x ← at_ coords (wrap32 (3 * idx + 0));
       y ← at_ coords (wrap32 (3 * idx + 1));
       z ← at_ coords (wrap32 (3 * idx + 2));
       Some (d_add c0 x, d_add c1 y, d_add c2 z))
    (Some (a, b, c)) idxs
  = Some (fold_left d_add ((fun p => p.1.1) <$> ps) a,
          fold_left d_add ((fun p => p.1.2) <$> ps) b,
          fold_left d_add ((fun p => p.2) <$> ps) c).
Proof.
  intros Hps. revert a b c.
  induction Hps as [|idx [[x y] z] idxs ps Hp _ IH]; intros a b c; simpl; [done|].
  unfold referencedPosition in Hp.
  destruct (at_ coords (wrap32 (3 * idx + 0))) as [x'|]; simpl in Hp; [|done].
  destruct (at_ coords (wrap32 (3 * idx + 1))) as [y'|]; simpl in Hp; [|done].
  destruct (at_ coords (wrap32 (3 * idx + 2))) as [z'|]; simpl in Hp; [|done].
  injection Hp as -> -> ->. simpl. apply IH.
Qed.

(** [getCentroid] is the arithmetic mean of the referenced positions,
    coordinate by coordinate. *)
Lemma getCentroid_mean (coords : list D) (ch : ConversionHelper D) ps :
  referencedPositions coords ch = Some ps →
  getCentroid coords ch
  = Some (mean ((fun p => p.1.1) <$> ps), mean ((fun p => p.1.2) <$> ps),
          mean ((fun p => p.2) <$> ps)).
Proof.
  unfold referencedPositions. intros Hps%mapM_Some.
  unfold getCentroid. rewrite (centroid_sums _ _ _ _ _ _ Hps). simpl.
  unfold mean, size. rewrite !length_fmap.
  by rewrite (Forall2_length _ _ _ Hps).
Qed.

Lemma hash_combine_arith (seed value : Z) :
  hash_combine seed value
  = Z.lxor seed ((value + 2654435769 + seed * 64 + seed / 4) mod 2 ^ 64)%Z.
Proof.
  unfold hash_combine, wrap64. f_equal.
  rewrite Z.shiftl_mul_pow2, Z.shiftr_div_pow2 by lia.
  change (2 ^ 6)%Z with 64%Z. change (2 ^ 2)%Z with 4%Z.
  rewrite <- (Zplus_mod_idemp_l (value + 2654435769 + (seed * 64) mod 2 ^ 64)).
  rewrite Zplus_mod_idemp_r.
  by rewrite Zplus_mod_idemp_l.
Qed.

Lemma getRandomSeed_derived (findSeed : option SeedAttribute) (primOffset : Z)
    (coords : list D) (ch : ConversionHelper D) ps :
  (∀ seedRef, findSeed = Some seedRef → getStorageClass seedRef ≠ GA_STORECLASS_INT) →
  referencedPositions coords ch = Some ps →
  getRandomSeed findSeed primOffset coords ch = Some (toInt32 (centroidHash ps)).
Proof.
  intros Hno Hps. unfold getRandomSeed.
  rewrite (getCentroid_mean _ _ _ Hps). simpl.
  destruct findSeed as [seedRef|]; [|done].
  specialize (Hno seedRef eq_refl).
  destruct (getStorageClass seedRef); done.
Qed.

(** The UV pass keeps the number of UV sets. *)
Lemma forEachUVSetFrom_length (uvHandles : list (GA_ROHandleV2D D)) func :
  ∀ (u : nat) (sets sets' : list (UV D)),
  forEachUVSetFrom u uvHandles sets func = Some sets' → length sets' = length sets.
Proof.
  induction uvHandles as [|[uvh|] rest IH]; intros u sets sets' Hrun; cbn in Hrun.
  - by injection Hrun as <-.
  - destruct (sets !! u) as [uvSet|]; [|done]. cbn in Hrun.
    rewrite (IH _ _ _ Hrun). apply length_insert.
  - by apply (IH _ _ _ Hrun).
Qed.

Lemma forEachUVSet_length (uvHandles : list (GA_ROHandleV2D D)) (ch ch' : ConversionHelper D)
    func :
  forEachUVSet uvHandles ch func = Some ch' → length (uvSets ch') = length (uvSets ch).
Proof.
  unfold forEachUVSet. destruct (forEachUVSetFrom _ _ _ _) as [sets'|] eqn:Hsets; [|done].
  cbn. intros [= <-]. cbn. by apply (forEachUVSetFrom_length _ _ _ _ _ Hsets).
Qed.

(** Converting a primitive appends its point indices to those of the
    partition. *)
Lemma convertPrimitive_indices (ch : ConversionHelper D) (prim : Primitive)
    (uvHandles : list (GA_ROHandleV2D D)) (idxs : list Z) :
  length uvHandles ≤ length (uvSets ch) →
  primitiveIndices prim = Some idxs →
  ∃ ch', convertPrimitive ch prim uvHandles = Some ch' ∧
         indices ch' = indices ch ++ idxs ∧
         length (uvSets ch') = length (uvSets ch).
Proof.
  intros Hlen. unfold primitiveIndices, convertPrimitive.
  destruct (getGeometry prim) as [p|polygons|].
  - destruct (extractHoles (GeoFaceHoleSource p)) as [rings|] eqn:Hrings; [|done].
    cbn. intros [= <-].
    destruct (convertPolygon_geometry ch p uvHandles rings Hrings Hlen)
      as (ch' & Hch' & _ & _ & Hi).
    exists ch'. split_and!; [done|exact Hi|].
    unfold convertPolygon in Hch'. rewrite Hrings in Hch'. cbn in Hch'.
    rewrite (forEachUVSet_length _ _ _ _ Hch'). cbn.
    by destruct (convertRing_loop p rings ch) as (_ & _ & _ & -> & _).
  - intros [= <-]. clear prim. revert ch Hlen.
    induction polygons as [|pit polygons IH]; intros ch Hlen.
    + exists ch. cbn. by rewrite app_nil_r.
    + destruct (convertSoupPolygon_geometry ch pit uvHandles Hlen)
        as (ch1 & Hch1 & _ & _ & Hi1).
      assert (Hlen1 : length (uvSets ch1) = length (uvSets ch)).
      { unfold convertSoupPolygon in Hch1. by rewrite (forEachUVSet_length _ _ _ _ Hch1). }
      destruct (IH ch1) as (ch' & Hch' & Hi & Hl); [lia|].
      exists ch'. cbn [foldl fmap list_fmap concat]. cbn [mbind option_bind].
      rewrite Hch1. split_and!; [exact Hch'| |lia].
      rewrite Hi, Hi1, <- app_assoc. done.
  - intros [= <-]. exists ch. by rewrite app_nil_r.
Qed.

(** The geometry merged from the primitives of a partition holds their
    point indices, one primitive after the other. *)
Lemma mergePrimitives_indices (uvHandles : list (GA_ROHandleV2D D)) (prims : list Primitive) :
  ∀ (ch : ConversionHelper D) (idxs : list (list Z)),
  length uvHandles ≤ length (uvSets ch) →
  mapM primitiveIndices prims = Some idxs →
  ∃ ch', foldl (fun (acc : option (ConversionHelper D)) (prim : Primitive) =>
                  ch ← acc; convertPrimitive ch prim uvHandles) (Some ch) prims
         = Some ch' ∧
         indices ch' = indices ch ++ concat idxs.
Proof.
  induction prims as [|prim prims IH]; intros ch idxs Hlen Hidx.
  - cbn in Hidx. injection Hidx as <-. exists ch. cbn. by rewrite app_nil_r.
  - cbn [mapM] in Hidx.
    destruct (primitiveIndices prim) as [idx|] eqn:Hprim; [|done].
    cbn [mbind option_bind] in Hidx.
    destruct (mapM primitiveIndices prims) as [rest|] eqn:Hrest; [|done].
    cbn in Hidx. injection Hidx as <-.
    destruct (convertPrimitive_indices ch prim uvHandles idx Hlen Hprim)
      as (ch1 & Hch1 & Hi1 & Hl1).
    destruct (IH ch1 rest) as (ch' & Hch' & Hi); [lia|done|].
    exists ch'. cbn [foldl]. cbn [mbind option_bind]. rewrite Hch1.
    split; [exact Hch'|]. rewrite Hi, Hi1. cbn [concat]. by rewrite <- app_assoc.
Qed.

(** The seed of a partition is [getRandomSeed] at the map offset of its
    first primitive, on the geometry merged from all its primitives. *)
Lemma convertPartition_seed (findSeed : option SeedAttribute) (coords : list D)
    (uvHandles : list (GA_ROHandleV2D D)) (prims : list Primitive) (front : Primitive)
    (idxs : list (list Z)) :
  head prims = Some front →
  mapM primitiveIndices prims = Some idxs →
  ∃ ch', indices ch' = concat idxs ∧
         convertPartition findSeed coords uvHandles prims
         = (fun seed => (ch', seed))
             <$> getRandomSeed findSeed (getMapOffset front) coords ch'.
Proof.
  intros Hfront Hidx. unfold convertPartition.
  destruct (mergePrimitives_indices uvHandles prims (newConversionHelper coords uvHandles)
              idxs) as (ch' & Hch' & Hi); [|done|].
  { cbn. by rewrite length_replicate. }
  exists ch'. split; [exact Hi|]. rewrite Hch', Hfront. cbn.
  by destruct (getRandomSeed findSeed (getMapOffset front) coords ch').
Qed.

Lemma toInt32_exact (x : Z) : toInt32 x = x ↔ (- 2 ^ 31 ≤ x < 2 ^ 31)%Z.
Proof.
  split.
  - intros <-. apply toInt32_range.
  - intros Hx. unfold toInt32, wrap32.
    destruct (decide (0 ≤ x)%Z) as [Hpos|Hneg].
    + rewrite Z.mod_small by lia.
      replace (x <? 2 ^ 31)%Z with true by (symmetry; apply Z.ltb_lt; lia). done.
    + replace (x mod 2 ^ 32)%Z with (x + 2 ^ 32)%Z.
      2:{ apply Z.mod_unique with (q := (-1)%Z); lia. }
      replace (x + 2 ^ 32 <? 2 ^ 31)%Z with false by (symmetry; apply Z.ltb_ge; lia). lia.
Qed.

(** C4, amended.  With a primitive attribute of the integer storage class
    under the random-seed key, the seed is the integer the attribute stores
    at the (first primitive's) offset, read as an [int32_t]: it is the
    stored value itself exactly when this fits in 32 bits, as every value
    of a 32-bit attribute does.  Otherwise the seed is the hash obtained by
    combining, with [seed ^= value + 0x9e3779b9 + (seed<<6) + (seed>>2)],
    the hashes of the x, y and z of the arithmetic mean of the positions
    the partition's indices refer to, truncated to 32 bits; so two
    partitions that refer to the same positions and have no integer seed
    attribute get the same seed.  The geometry of a partition holds the
    point indices of all its primitives, its seed is computed this way at
    the offset of its first primitive, and the partition is converted
    whenever the seed is. *)
Theorem getRandomSeed_explicit_else_centroid_hash
    (findSeed : option SeedAttribute) (primOffset : Z) (coords : list D)
    (ch : ConversionHelper D) :
  (∀ seedRef, findSeed = Some seedRef → getStorageClass seedRef = GA_STORECLASS_INT →
     getRandomSeed findSeed primOffset coords ch
     = Some (toInt32 (seedValue seedRef primOffset)) ∧
     (- 2 ^ 31 ≤ toInt32 (seedValue seedRef primOffset) < 2 ^ 31)%Z ∧
     (toInt32 (seedValue seedRef primOffset) = seedValue seedRef primOffset ↔
      (- 2 ^ 31 ≤ seedValue seedRef primOffset < 2 ^ 31)%Z)) ∧
  (∀ ps,
     (∀ seedRef, findSeed = Some seedRef → getStorageClass seedRef ≠ GA_STORECLASS_INT) →
     referencedPositions coords ch = Some ps →
     getRandomSeed findSeed primOffset coords ch = Some (toInt32 (centroidHash ps)) ∧
     (- 2 ^ 31 ≤ toInt32 (centroidHash ps) < 2 ^ 31)%Z ∧
     wrap32 (toInt32 (centroidHash ps)) = wrap32 (centroidHash ps)) ∧
  (∀ seed value,
     hash_combine seed value
     = Z.lxor seed ((value + 0x9e3779b9 + seed * 2 ^ 6 + seed / 2 ^ 2) mod 2 ^ 64)%Z) ∧
  (∀ findSeed' primOffset' coords' ch' ps,
     (∀ seedRef, findSeed = Some seedRef → getStorageClass seedRef ≠ GA_STORECLASS_INT) →
     (∀ seedRef, findSeed' = Some seedRef → getStorageClass seedRef ≠ GA_STORECLASS_INT) →
     referencedPositions coords ch = Some ps →
     referencedPositions coords' ch' = Some ps →
     getRandomSeed findSeed primOffset coords ch
     = getRandomSeed findSeed' primOffset' coords' ch') ∧
  (∀ uvHandles prims front idxs,
     head prims = Some front →
     mapM primitiveIndices prims = Some idxs →
     ∃ merged, indices merged = concat idxs ∧
       convertPartition findSeed coords uvHandles prims
       = (fun seed => (merged, seed))
           <$> getRandomSeed findSeed (getMapOffset front) coords merged).
Proof.
  split_and!.
  - intros seedRef -> Hint. split; [|split].
    + simpl. by rewrite Hint.
    + apply toInt32_range.
    + apply toInt32_exact.
  - intros ps Hno Hps. split; [by apply getRandomSeed_derived|apply toInt32_range].
  - intros seed value. apply hash_combine_arith.
  - intros fs' off' cs' c' ps Hno Hno' Hps Hps'.
    by rewrite (getRandomSeed_derived _ _ _ _ _ Hno Hps),
               (getRandomSeed_derived _ _ _ _ _ Hno' Hps').
  - intros uvHandles prims front idxs. apply convertPartition_seed.
Qed.

End Seed.

#[local] Existing Instance integerOps.

Lemma getRandomSeed_example :
  getRandomSeed (Some intSeedAttribute) 1 (coords triangleHelper) triangleHelper = Some 42%Z ∧
  getRandomSeed None 1 (coords triangleHelper) triangleHelper
    = Some (toInt32 (centroidHash [(0, 3, 0); (3, 0, 0); (0, 0, 0)]%Z)) ∧
  (∃ merged, indices merged = [2; 1; 0]%Z ∧
     convertPartition (Some intSeedAttribute) (coords triangleHelper) [] trianglePartition
     = Some (merged, 42%Z)).
Proof.
  pose proof (getRandomSeed_explicit_else_centroid_hash (D := Z)) as Hseed.
  split_and!.
  - apply (proj1 (proj1 (Hseed (Some intSeedAttribute) 1%Z (coords triangleHelper)
                           triangleHelper) intSeedAttribute eq_refl eq_refl)).
  - apply (proj1 (proj2 (Hseed None 1%Z (coords triangleHelper) triangleHelper))
             [(0, 3, 0); (3, 0, 0); (0, 0, 0)]%Z); [intros ? [=]|reflexivity].
  - destruct (proj2 (proj2 (proj2 (proj2
                (Hseed (Some intSeedAttribute) 1%Z (coords triangleHelper) triangleHelper))))
                [] trianglePartition _ [[2; 1; 0]%Z] eq_refl eq_refl)
      as (merged & Hi & Hpart).
    exists merged. split; [exact Hi|]. exact Hpart.
Defined.

(** C4, as stated, fails: an attribute of the integer storage class may
    be one of 64-bit integers, and the seed read from one that stores
    2^32 + 5 is 5, not the value of the attribute. *)
Lemma wide_seed_attribute_is_not_read_exactly :
  getStorageClass wideSeedAttribute = GA_STORECLASS_INT ∧
  seedValue wideSeedAttribute 1 = 4294967301%Z ∧
  getRandomSeed (Some wideSeedAttribute) 1 (coords triangleHelper) triangleHelper
  = Some 5%Z.
Proof. split_and!; reflexivity. Qed.

(** ** PRTContext: [getResolveMap] *)

Section ResolveMap.
Context {C O RM : Type} `{!ResolveMapCacheOps C RM}.

(** Paths are equal when they agree in what [path::compare] looks at,
    whatever their spelling. *)
Lemma path_equal_spec (lhs rhs : path) :
  path_equal lhs rhs = true ↔
  root_name lhs = root_name rhs ∧ has_root_directory lhs = has_root_directory rhs ∧
  relative_path lhs = relative_path rhs.
Proof.
  unfold path_equal. rewrite !andb_true_iff, bool_decide_eq_true, String.eqb_eq.
  destruct (has_root_directory lhs), (has_root_directory rhs); simpl; intuition congruence.
Qed.

(** The pass forces exactly the assign nodes set to the path. *)
Lemma visit_forces_matching_assign_nodes (OP_PLD_ASSIGN : string) (rpk : path) (n : OP_Node) :
  getOperatorName (visit OP_PLD_ASSIGN rpk n) = getOperatorName n ∧
  getRPK (visit OP_PLD_ASSIGN rpk n) = getRPK n ∧
  recookForced (visit OP_PLD_ASSIGN rpk n)
  = (bool_decide (getOperatorName n = OP_PLD_ASSIGN ∧ path_equal (getRPK n) rpk = true)
     || recookForced n).
Proof.
  unfold visit.
  destruct (String.eqb_spec (getOperatorName n) OP_PLD_ASSIGN) as [Hop|Hop];
    [destruct (path_equal (getRPK n) rpk) eqn:Hrpk|]; simpl;
    split_and!; try done.
  - by rewrite bool_decide_eq_true_2.
  - rewrite bool_decide_eq_false_2; [done|]. intros [_ ?]. done.
  - rewrite bool_decide_eq_false_2; [done|]. tauto.
Qed.

Lemma scheduleRecook_nodes (OP_PLD_ASSIGN : string) (rpk : path) (w : World C O) :
  match director w with
  | None => director (scheduleRecook OP_PLD_ASSIGN rpk w) = None
  | Some nodes =>
      ∃ nodes', director (scheduleRecook OP_PLD_ASSIGN rpk w) = Some nodes' ∧
                recookPassed OP_PLD_ASSIGN rpk nodes nodes'
  end.
Proof.
  unfold scheduleRecook. simpl. destruct (director w) as [nodes|]; [|done].
  eexists. split; [done|]. split; [by rewrite length_fmap|].
  intros i n Hn. exists (visit OP_PLD_ASSIGN rpk n).
  rewrite list_lookup_fmap, Hn.
  destruct (visit_forces_matching_assign_nodes OP_PLD_ASSIGN rpk n) as (Hop & Hrpk & Hf).
  split_and!; [done|done|done|]. rewrite Hf, orb_true_iff, bool_decide_eq_true. tauto.
Qed.

(** C1.  A call of [getResolveMap] whose cache lookup returns MISS makes
    exactly one full flush of the engine's default cache and, outside of
    test builds, exactly one recook-scheduling pass for the requested
    path, in this order, and returns the map of the lookup.  The pass
    forces a recook of the assign nodes whose package equals the requested
    path (as paths compare, not by spelling) and of no other node, and
    leaves the nodes as they are otherwise.  A call whose lookup returns
    HIT makes neither. *)
Theorem getResolveMap_miss_flushes_and_recooks_once
    (PLD_TEST_EXPORTS : bool) (OP_PLD_ASSIGN : string) (w : World C O) (rpk : path) :
  let lookup := (cache_get (mResolveMapCache w) (path_string rpk)).1 in
  let result := getResolveMap PLD_TEST_EXPORTS OP_PLD_ASSIGN w rpk in
  result.1 = lookup.1 ∧
  mResolveMapCache result.2 = (cache_get (mResolveMapCache w) (path_string rpk)).2 ∧
  match lookup.2 with
  | MISS =>
      calls result.2 =
        calls w ++ CallFlushAll ::
          (if PLD_TEST_EXPORTS then [] else [CallScheduleRecook rpk]) ∧
      mPRTCache result.2 = [] ∧
      (if PLD_TEST_EXPORTS then director result.2 = director w
       else match director w with
            | None => director result.2 = None
            | Some nodes =>
                ∃ nodes', director result.2 = Some nodes' ∧
                          recookPassed OP_PLD_ASSIGN rpk nodes nodes'
            end)
  | HIT =>
      calls result.2 = calls w ∧
      mPRTCache result.2 = mPRTCache w ∧
      director result.2 = director w
  end.
Proof.
  unfold getResolveMap. cbv zeta.
  destruct (cache_get (mResolveMapCache w) (path_string rpk)) as [[rm status] cache'].
  destruct status; simpl; [done|].
  destruct PLD_TEST_EXPORTS; simpl.
  - done.
  - split_and!; try done; [by rewrite <- app_assoc|].
    exact (scheduleRecook_nodes OP_PLD_ASSIGN rpk
             (flushAll {| mResolveMapCache := cache'; mPRTCache := mPRTCache w;
                          director := director w; calls := calls w |})).
Qed.

End ResolveMap.

(** ** ModelConverter: error and report callbacks *)

Section Callbacks.
Context {D G : Type}.

(** C9.  [generateError] logs the message at warning severity, records
    the status in the status array at the index of the initial shape
    (leaving every other slot and the rest of the converter as they were)
    and returns success; [cgaReportBool], [cgaReportFloat] and
    [cgaReportString] change nothing and return success.  The index is one
    of the status array. *)
Theorem generateError_records_status_and_reports_are_noops
    (s : State D G) (isIndex : Z) (status : Status) (message : string) :
  (0 ≤ isIndex < size (mStatuses s))%Z →
  (∃ s', generateError s isIndex status message = Some (s', STATUS_OK) ∧
     mStatuses s' !! Z.to_nat isIndex = Some status ∧
     length (mStatuses s') = length (mStatuses s) ∧
     (∀ j, j ≠ Z.to_nat isIndex → mStatuses s' !! j = mStatuses s !! j) ∧
     prtLog s' = prtLog s ++ [(LOG_WARNING, message)] ∧
     mDetail s' = mDetail s ∧
     mShapeAttributeBuilders s' = mShapeAttributeBuilders s) ∧
  (∀ shapeID key b, cgaReportBool s isIndex shapeID key b = (s, STATUS_OK)) ∧
  (∀ shapeID key d, cgaReportFloat s isIndex shapeID key d = (s, STATUS_OK)) ∧
  (∀ shapeID key v, cgaReportString s isIndex shapeID key v = (s, STATUS_OK)).
Proof.
  intros Hi. split; [|done].
  unfold generateError.
  destruct (at_ (mStatuses (LOG_WRN message s)) isIndex) as [old|] eqn:Hat.
  - eexists. split; [reflexivity|]. simpl.
    unfold size in Hi.
    split_and!; try done.
    + apply list_lookup_insert_eq. lia.
    + apply length_insert.
    + intros j Hj. by apply list_lookup_insert_ne.
  - destruct (proj2 (at_is_Some (mStatuses (LOG_WRN message s)) isIndex) Hi) as [? ?].
    congruence.
Qed.

End Callbacks.

Lemma generateError_example :
  ∃ s', generateError twoShapes 1 STATUS_UNSPECIFIED_ERROR "no rule file" = Some (s', STATUS_OK)
        ∧ mStatuses s' !! 1%nat = Some STATUS_UNSPECIFIED_ERROR
        ∧ prtLog s' = [(LOG_WARNING, "no rule file")].
Proof.
  destruct (proj1 (generateError_records_status_and_reports_are_noops
                     twoShapes 1 STATUS_UNSPECIFIED_ERROR "no rule file"
                     ltac:(unfold size; simpl; lia)))
    as (s' & Hs' & Hst & _ & _ & Hlog & _).
  exists s'. done.
Defined.

(** ** HoudiniEncoder: materials *)

Section Builders.
Context {D : Type} `{!KeyTaken D}.
Implicit Types (b : AttributeMapBuilder D) (v : AttrValue D)
  (kvs : list (string * AttrValue D)).

(** A setter touches no other key. *)
Lemma setValue_lookup_ne (key key' : string) v b :
  key ≠ key' → setValue key v b !! key' = b !! key'.
Proof. intros Hne. unfold setValue. by apply lookup_partial_alter_ne. Qed.

(** A setter records its value under a key that is free or holds a value
    of the same type. *)
Lemma setValue_lookup (key : string) v b :
  (∀ old, b !! key = Some old → valueType old = valueType v) →
  setValue key v b !! key = Some v.
Proof.
  intros Hold. unfold setValue. rewrite lookup_partial_alter_eq.
  destruct (b !! key) as [old|] eqn:Hb; [|done].
  by rewrite decide_True by (by apply Hold).
Qed.

Lemma recordAll_lookup_absent kvs : ∀ b (key : string),
  Forall (fun kv => kv.1 ≠ key) kvs → recordAll kvs b !! key = b !! key.
Proof.
  induction kvs as [|[k v] kvs IH]; intros b key Hkvs; [done|].
  apply Forall_cons in Hkvs as [Hk Hkvs]. cbn [recordAll fold_left] in *.
  change (fold_left _ kvs ?b0) with (recordAll kvs b0).
  rewrite IH by done. by apply setValue_lookup_ne.
Qed.

(** Where a key is used with one type only, it holds the value recorded
    last under it. *)
Lemma recordAll_lookup kvs : ∀ b (key : string) (t : PrimitiveType),
  ofOneType t key kvs b →
  recordAll kvs b !! key
  = match lastOf kvs key with
    | Some v => Some v
    | None => b !! key
    end.
Proof.
  induction kvs as [|[k v] kvs IH]; intros b key t [Hb Hkvs]; [done|].
  apply Forall_cons in Hkvs as [Hk Hkvs]. cbn [fst snd] in Hk.
  cbn [recordAll fold_left].
  change (fold_left _ kvs ?b0) with (recordAll kvs b0). cbn [fst snd].
  assert (Hone : ofOneType t key kvs (setValue k v b)).
  { split; [|done]. intros old. destruct (decide (k = key)) as [->|Hne].
    - rewrite setValue_lookup by (intros o Ho; rewrite (Hb o Ho); symmetry; by apply Hk).
      intros [= <-]. by apply Hk.
    - rewrite setValue_lookup_ne by done. apply Hb. }
  rewrite (IH _ _ t Hone). unfold lastOf.
  destruct (decide (k = key)) as [->|Hne].
  - rewrite (filter_cons_True _ (key, v)) by done. rewrite last_cons.
    destruct (last (filter _ kvs)) as [[k' v']|]; [done|]. cbn.
    apply setValue_lookup. intros o Ho. rewrite (Hb o Ho). symmetry. by apply Hk.
  - rewrite (filter_cons_False _ (k, v)) by done.
    destruct (last (filter _ kvs)) as [[k' v']|]; [done|]. cbn.
    by apply setValue_lookup_ne.
Qed.

End Builders.

Section MaterialConversion.
Context {D : Type} `{!KeyTaken D}.
Implicit Types (aBuilder : AttributeMapBuilder D) (prtxAttr : Material D).







End MaterialConversion.

#[local] Existing Instance refusingBuilder.


(** ** HoudiniEncoder: [serializeGeometry] *)

Lemma deref_lookup (p : list Z) (i : nat) (x : Z) :
  p !! i = Some x → deref p (Z.of_nat i) = x.
Proof.
  intros Hi. unfold deref.
  rewrite (proj2 (at_Some p (Z.of_nat i) x)); [done|].
  split; [lia|]. by rewrite Nat2Z.id.
Qed.

Lemma reverse_read {B} (g : Z → B) (p : list Z) :
  (fun vi => g (deref p (size p - vi - 1))) <$> seqZ 0 (size p) = g <$> rev p.
Proof.
  rewrite rev_alt. change (rev_append p []) with (reverse p).
  apply list_eq. intros i. rewrite !list_lookup_fmap. unfold size.
  destruct (decide (i < length p)) as [Hi|Hi].
  - rewrite lookup_seqZ_lt by lia. rewrite reverse_lookup by done. simpl.
    destruct (lookup_lt_is_Some_2 p (length p - S i)) as [x Hx]; [lia|].
    rewrite Hx. simpl. do 2 f_equal.
    replace (Z.of_nat (length p) - (0 + Z.of_nat i) - 1)%Z
      with (Z.of_nat (length p - S i)) by lia.
    by apply deref_lookup.
  - rewrite lookup_seqZ_ge by lia.
    rewrite (proj2 (lookup_ge_None (reverse p) i)); [done|].
    rewrite length_reverse. lia.
Qed.

Lemma concat_imap_nil {A B} (f : nat → A → list B) (l : list A) :
  (∀ i x, l !! i = Some x → f i x = []) → concat (imap f l) = [].
Proof.
  revert f. induction l as [|x l IH]; intros f Hf; simpl; [done|].
  rewrite (Hf 0 x eq_refl). simpl. apply IH. intros i y Hy. by apply (Hf (S i)).
Qed.

Section Channels.
Context {D : Type}.
Implicit Types (mesh : Mesh D) (st : CopyState D).

Lemma getUVSetsCount_fits mesh :
  meshFits mesh → getUVSetsCount mesh = size (getUVSets mesh).
Proof.
  intros (_ & Hs & _). unfold getUVSetsCount, size in *. apply wrap32_small. lia.
Qed.

(** *** Missing channels *)
Lemma appendUVChannel_missing mesh (uvSet : Z) tgt tgtCnts tgtIdx (base : Z) :
  meshFits mesh → (getUVSetsCount mesh ≤ uvSet)%Z →
  appendUVChannel mesh uvSet (tgt, tgtCnts, tgtIdx, base)
  = (tgt ++ uvSet0Coords mesh, tgtCnts ++ uvSet0Counts mesh,
     tgtIdx ++ uvSet0Indices mesh base,
     wrap32 (base + wrap32 (size (uvSet0Coords mesh)) / 2)).
Proof.
  intros Hfits Hk. pose proof (getUVSetsCount_fits mesh Hfits) as Hn.
  destruct Hfits as (Hfaces & Hsets & Hidx).
  unfold appendUVChannel, uvSet0Coords, uvSet0Counts, uvSet0Indices.
  rewrite (proj2 (Z.ltb_ge uvSet (getUVSetsCount mesh)) Hk). simpl.
  rewrite Hn. unfold getUVCoords, getFaceUVCounts, getFaceUVIndices, getFaceUVIndicesOf, getFaceCount.
  destruct (getUVSets mesh) as [|s sets] eqn:Hsets'.
  - simpl. rewrite wrap32_small by (unfold size in *; lia).
    unfold size. rewrite Nat2Z.id.
    rewrite concat_imap_nil; [done|].
    intros i x [-> _]%lookup_replicate. done.
  - assert (Hpos : (size (s :: sets) >? 0)%Z = true)
      by (rewrite Z.gtb_ltb; apply Z.ltb_lt; unfold size; simpl; lia).
    rewrite Hpos.
    change (at_ (s :: sets) 0) with (Some s). simpl.
    apply Forall_cons in Hidx as [Hs _].
    assert (Hcnt : (fun f : list Z => wrap32 (size f)) <$> faceUVIndices s
                   = (fun f => size f) <$> faceUVIndices s).
    { apply list_fmap_ext. intros i f Hf.
      rewrite Forall_forall in Hs. apply wrap32_small.
      pose proof (Hs f (list_elem_of_lookup_2 _ _ _ Hf)). unfold size in *. lia. }
    rewrite Hcnt. repeat f_equal.
    rewrite imap_fmap.
    apply list_eq. intros i. rewrite list_lookup_imap, list_lookup_fmap.
    destruct (faceUVIndices s !! i) as [f|] eqn:Hf; simpl; [|done].
    f_equal. apply (reverse_read (fun i => wrap32 (base + i))).
Qed.

(** *** The loop over the channels *)
Lemma copyMeshUVSet_channel mesh st (i k n : nat) :
  channelCount st n → i < n →
  channelCount (copyMeshUVSet mesh st i) n ∧
  channel (copyMeshUVSet mesh st i) k
  = (if decide (k = i) then appendUVChannel mesh (Z.of_nat i) (channel st i)
     else channel st k).
Proof.
  intros (H1 & H2 & H3 & H4) Hi. unfold copyMeshUVSet, channel, channelCount.
  destruct (appendUVChannel mesh (Z.of_nat i) _) as [[[tgt cnts] idx] base].
  simpl. rewrite !length_insert. split; [done|].
  destruct (decide (k = i)) as [->|Hne].
  - by rewrite !list_lookup_total_insert_eq by lia.
  - by rewrite !list_lookup_total_insert_ne by done.
Qed.

Lemma copyMeshUVSet_loop mesh (uvSetsToDo : list nat) st (k n : nat) :
  channelCount st n → NoDup uvSetsToDo → Forall (fun i => i < n) uvSetsToDo →
  channelCount (fold_left (copyMeshUVSet mesh) uvSetsToDo st) n ∧
  channel (fold_left (copyMeshUVSet mesh) uvSetsToDo st) k
  = (if decide (k ∈ uvSetsToDo) then appendUVChannel mesh (Z.of_nat k) (channel st k)
     else channel st k).
Proof.
  revert st. induction uvSetsToDo as [|i rest IH]; intros st Hn Hnd Hlt; simpl.
  - by split.
  - apply NoDup_cons in Hnd as [Hi Hnd]. apply Forall_cons in Hlt as [Hin Hlt].
    destruct (copyMeshUVSet_channel mesh st i k n Hn Hin) as [Hn' Hk].
    destruct (IH (copyMeshUVSet mesh st i) Hn' Hnd Hlt) as [Hn'' Hk'].
    split; [done|]. rewrite Hk', Hk.
    repeat case_decide; subst; try done; exfalso;
      match goal with
      | H : ¬ (_ ∈ _ :: _) |- _ => apply H; rewrite elem_of_cons; tauto
      | H : _ ∈ _ :: _ |- _ => apply elem_of_cons in H; tauto
      end.
Qed.
End Channels.

Lemma fold_max_spec (l : list Z) (a : Z) :
  (a ≤ fold_left Z.max l a)%Z ∧
  (∀ x, x ∈ l → (x ≤ fold_left Z.max l a)%Z) ∧
  (fold_left Z.max l a = a ∨ fold_left Z.max l a ∈ l).
Proof.
  revert a. induction l as [|x l IH]; intros a; simpl.
  - split_and!; [lia| |by left]. intros x []%elem_of_nil.
  - destruct (IH (Z.max a x)) as (H1 & H2 & H3). split_and!.
    + lia.
    + intros y [->|Hy]%elem_of_cons; [lia|by apply H2].
    + destruct H3 as [H3|H3]; [|right; by right].
      destruct (Z.max_spec a x) as [[_ Hm]|[_ Hm]]; rewrite Hm in H3 |- *.
      * right. rewrite H3. by left.
      * by left.
Qed.

Section SerializePasses.
Context {D : Type}.
Implicit Types (mesh : Mesh D) (st : CopyState D).

Lemma copyMeshUVs_channel mesh st (k n : nat) :
  channelCount st n → k < n →
  channelCount (copyMeshUVs mesh st) n ∧
  channel (copyMeshUVs mesh st) k = appendUVChannel mesh (Z.of_nat k) (channel st k).
Proof.
  intros Hn Hk. unfold copyMeshUVs.
  destruct (copyMeshUVSet_loop mesh (seq 0 (length (sg_uvs (sg st)))) st k n Hn)
    as [Hn' Hch].
  - apply NoDup_seq.
  - apply Forall_forall. intros i [_ Hi]%elem_of_seq. destruct Hn as [<- _]. lia.
  - split; [done|]. rewrite Hch. rewrite decide_True; [done|].
    apply elem_of_seq. destruct Hn as [-> _]. lia.
Qed.

Lemma copyFace_loop_uvs (vb nb fb : Z) (faces : list Face) (g : SerializedGeometry D) :
  sg_uvs (fold_left (copyFace vb nb fb) faces g) = sg_uvs g ∧
  sg_uvCounts (fold_left (copyFace vb nb fb) faces g) = sg_uvCounts g ∧
  sg_uvIndices (fold_left (copyFace vb nb fb) faces g) = sg_uvIndices g.
Proof.
  revert g. induction faces as [|f faces IH]; intros g; simpl; [done|].
  destruct (IH (copyFace vb nb fb g f)) as (-> & -> & ->). done.
Qed.

Lemma copyMesh_channel mesh st (k n : nat) :
  channelCount st n → k < n →
  channelCount (copyMesh st mesh) n ∧
  channel (copyMesh st mesh) k = appendUVChannel mesh (Z.of_nat k) (channel st k).
Proof.
  intros Hn Hk. unfold copyMesh.
  match goal with |- context [copyMeshUVs mesh ?s] => set (st1 := s) end.
  destruct (copyMeshUVs_channel mesh st1 k n) as [Hn2 Hch]; [done|done|].
  destruct (copyFace_loop_uvs (vertexIndexBase (copyMeshUVs mesh st1))
              (normalIndexBase (copyMeshUVs mesh st1)) (faceIndexBase (copyMeshUVs mesh st1))
              (getFaces mesh) (sg (copyMeshUVs mesh st1))) as (Hu & Hc & Hi).
  unfold channelCount, channel in *. simpl. rewrite Hu, Hc, Hi. done.
Qed.

Lemma copyMesh_loop_channel (meshes : list (Mesh D)) st (k n : nat) :
  channelCount st n → k < n →
  channelCount (fold_left copyMesh meshes st) n ∧
  channel (fold_left copyMesh meshes st) k
  = fold_left (fun c mesh => appendUVChannel mesh (Z.of_nat k) c) meshes (channel st k).
Proof.
  intros Hn Hk. revert st Hn. induction meshes as [|mesh meshes IH]; intros st Hn; simpl.
  - done.
  - destruct (copyMesh_channel mesh st k n Hn Hk) as [Hn' Hch].
    destruct (IH (copyMesh st mesh) Hn') as [Hn'' Hch'].
    split; [done|]. by rewrite Hch', Hch.
Qed.

Lemma copyMesh_loop_count (meshes : list (Mesh D)) st (n : nat) :
  channelCount st n → channelCount (fold_left copyMesh meshes st) n.
Proof.
  revert st. induction meshes as [|mesh meshes IH]; intros st Hn; simpl; [done|].
  apply IH. unfold copyMesh.
  match goal with |- context [copyMeshUVs mesh ?s] => set (st1 := s) end.
  assert (Hn1 : channelCount (copyMeshUVs mesh st1) n).
  { unfold copyMeshUVs.
    apply (copyMeshUVSet_loop mesh _ st1 0 n Hn); [apply NoDup_seq|].
    apply Forall_forall. intros i [_ Hi]%elem_of_seq. destruct Hn as [<- _]. simpl in Hi. lia. }
  destruct (copyFace_loop_uvs (vertexIndexBase (copyMeshUVs mesh st1))
              (normalIndexBase (copyMeshUVs mesh st1)) (faceIndexBase (copyMeshUVs mesh st1))
              (getFaces mesh) (sg (copyMeshUVs mesh st1))) as (Hu & Hc & Hi).
  unfold channelCount in *. simpl. by rewrite Hu, Hc, Hi.
Qed.

Lemma copy_geometries_flat (geometries : list (Geometry D)) st :
  fold_left (fun st geo => fold_left copyMesh geo st) geometries st
  = fold_left copyMesh (concat geometries) st.
Proof.
  revert st. induction geometries as [|geo geometries IH]; intros st; simpl; [done|].
  by rewrite fold_left_app, IH.
Qed.

(** *** PASS 1 *)
Lemma scanMeshes_max (major : Z) (meshes : list (Mesh D)) (mats : list (Material D))
    (t : ScanTotals) :
  length meshes ≤ length mats →
  ∃ t', scanMeshes major t meshes mats = Some t' ∧
        maxNumUVSets t'
        = fold_left Z.max (requiredUVSets major <$> zip meshes mats) (maxNumUVSets t).
Proof.
  revert mats t. induction meshes as [|mesh meshes IH]; intros mats t Hlen; simpl.
  - eauto.
  - destruct mats as [|mat mats]; simpl in *; [lia|].
    destruct (IH mats (scanMesh major t mesh mat)) as (t' & Ht' & Hmax); [lia|].
    eauto.
Qed.

Lemma scanGeometries_max (major : Z) (geometries : list (Geometry D))
    (materials : list (list (Material D))) (t : ScanTotals) :
  materialsCover geometries materials = true →
  ∃ t', scanGeometries major t geometries materials = Some t' ∧
        maxNumUVSets t'
        = fold_left Z.max (requiredUVSets major <$> meshMaterials geometries materials)
                    (maxNumUVSets t).
Proof.
  revert materials t.
  induction geometries as [|geo geometries IH]; intros materials t Hcov; simpl.
  - eauto.
  - destruct materials as [|mats materials]; simpl in *; [done|].
    apply andb_prop in Hcov as [Hlen%bool_decide_eq_true Hcov].
    destruct (scanMeshes_max major geo mats t Hlen) as (t1 & Ht1 & Hmax1).
    rewrite Ht1. simpl.
    destruct (IH materials t1 Hcov) as (t' & Ht' & Hmax).
    exists t'. split; [done|].
    unfold meshMaterials in *. simpl. rewrite fmap_app, fold_left_app.
    by rewrite Hmax, Hmax1.
Qed.

(** *** [scanValidTextures] *)
Lemma scan_fold_spec (mat : Material D) (table : list TextureUVMapping) (a : Z) :
  let h := fold_left
             (fun (highestUVSet : Z) (t : TextureUVMapping) =>
                if validTextureAt mat t then Z.max highestUVSet (uvSet t) else highestUVSet)
             table a in
  (a ≤ h)%Z ∧
  (∀ t, t ∈ table → validTextureAt mat t = true → (uvSet t ≤ h)%Z) ∧
  (h = a ∨ ∃ t, t ∈ table ∧ validTextureAt mat t = true ∧ h = uvSet t).
Proof.
  cbv zeta. revert a. induction table as [|t table IH]; intros a; simpl.
  - split_and!; [lia| |by left]. intros t []%elem_of_nil.
  - destruct (validTextureAt mat t) eqn:Hv.
    + destruct (IH (Z.max a (uvSet t))) as (H1 & H2 & H3). split_and!.
      * lia.
      * intros t' [->|Ht']%elem_of_cons Hv'; [lia|by apply H2].
      * destruct H3 as [H3|(t' & Ht' & Hv' & H3)].
        -- destruct (Z.max_spec a (uvSet t)) as [[_ Hm]|[_ Hm]]; rewrite Hm in H3 |- *.
           ++ right. exists t. split_and!; [left|done|done].
           ++ by left.
        -- right. exists t'. split_and!; [by right|done|done].
    + destruct (IH a) as (H1 & H2 & H3). split_and!.
      * done.
      * intros t' [->|Ht']%elem_of_cons Hv'; [congruence|by apply H2].
      * destruct H3 as [H3|(t' & Ht' & Hv' & H3)]; [by left|].
        right. exists t'. split_and!; [by right|done|done].
Qed.

Lemma TEXTURE_UV_MAPPINGS_nonneg (major : Z) (t : TextureUVMapping) :
  t ∈ TEXTURE_UV_MAPPINGS major → (0 ≤ uvSet t)%Z.
Proof.
  unfold TEXTURE_UV_MAPPINGS. intros Ht.
  destruct (1 <? major)%Z;
    repeat (apply elem_of_cons in Ht as [->|Ht]; [simpl; lia|]);
    by apply elem_of_nil in Ht.
Qed.

Lemma scanValidTextures_spec (major : Z) (mat : Material D) :
  (∀ t, t ∈ TEXTURE_UV_MAPPINGS major → validTextureAt mat t = true →
        (uvSet t < scanValidTextures major mat)%Z) ∧
  (scanValidTextures major mat = 0%Z ∨
   ∃ t, t ∈ TEXTURE_UV_MAPPINGS major ∧ validTextureAt mat t = true ∧
        scanValidTextures major mat = (uvSet t + 1)%Z).
Proof.
  unfold scanValidTextures.
  destruct (scan_fold_spec mat (TEXTURE_UV_MAPPINGS major) (-1)) as (H1 & H2 & H3).
  cbv zeta in *.
  destruct (_ <? 0)%Z eqn:Hneg.
  - apply Z.ltb_lt in Hneg. split; [|by left].
    intros t Ht Hv. pose proof (H2 t Ht Hv). pose proof (TEXTURE_UV_MAPPINGS_nonneg _ _ Ht). lia.
  - apply Z.ltb_ge in Hneg. split.
    + intros t Ht Hv. pose proof (H2 t Ht Hv). lia.
    + destruct H3 as [H3|(t & Ht & Hv & H3)]; [lia|].
      right. exists t. split_and!; [done|done|lia].
Qed.
End SerializePasses.

Section Serialize.
Context {D : Type}.

(** C5.  When the materials cover the meshes, [serializeGeometry]
    returns, and the number of UV channels it emits is the maximum, over
    all meshes, of the larger of the mesh's own UV-set count and the
    number of UV sets its material requires (one more than the highest UV
    set a valid texture of the fixed table maps to, 0 without one).
    Channel [k] holds what [appendUVChannel] appends for [k], mesh after
    mesh; and for a mesh that has no UV set [k] this is a copy of its UV
    set 0: the coordinates, the per-face counts, and the indices (in
    reversed winding) offset by the running index base of channel [k]. *)
Theorem serializeGeometry_uv_channels (PRT_VERSION_MAJOR : Z)
    (geometries : list (Geometry D)) (materials : list (list (Material D))) :
  materialsCover geometries materials = true →
  ∃ g, serializeGeometry PRT_VERSION_MAJOR geometries materials = Some g ∧
    let required (p : Mesh D * Material D) :=
      Z.max (getUVSetsCount p.1) (scanValidTextures PRT_VERSION_MAJOR p.2) in
    let N := size (sg_uvs g) in
    size (sg_uvCounts g) = N ∧ size (sg_uvIndices g) = N ∧
    (∀ p, p ∈ meshMaterials geometries materials → (required p ≤ N)%Z) ∧
    (N = 0%Z ∨ ∃ p, p ∈ meshMaterials geometries materials ∧ N = required p) ∧
    (∀ p t, p ∈ meshMaterials geometries materials →
       t ∈ TEXTURE_UV_MAPPINGS PRT_VERSION_MAJOR → validTextureAt p.2 t = true →
       (uvSet t < scanValidTextures PRT_VERSION_MAJOR p.2)%Z) ∧
    (∀ p, p ∈ meshMaterials geometries materials →
       scanValidTextures PRT_VERSION_MAJOR p.2 = 0%Z ∨
       ∃ t, t ∈ TEXTURE_UV_MAPPINGS PRT_VERSION_MAJOR ∧ validTextureAt p.2 t = true ∧
            scanValidTextures PRT_VERSION_MAJOR p.2 = (uvSet t + 1)%Z) ∧
    (∀ k : nat, (Z.of_nat k < N)%Z →
       ∃ base,
         (sg_uvs g !!! k, sg_uvCounts g !!! k, sg_uvIndices g !!! k, base)
         = fold_left (fun c mesh => appendUVChannel mesh (Z.of_nat k) c)
                     (concat geometries) ([], [], [], 0%Z)) ∧
    (∀ (mesh : Mesh D) (uvSet : Z) tgt tgtCnts tgtIdx (base : Z),
       meshFits mesh → (getUVSetsCount mesh ≤ uvSet)%Z →
       appendUVChannel mesh uvSet (tgt, tgtCnts, tgtIdx, base)
       = (tgt ++ uvSet0Coords mesh, tgtCnts ++ uvSet0Counts mesh,
          tgtIdx ++ uvSet0Indices mesh base,
          wrap32 (base + wrap32 (size (uvSet0Coords mesh)) / 2))).
Proof.
  intros Hcover. unfold serializeGeometry.
  destruct (scanGeometries_max PRT_VERSION_MAJOR geometries materials
              {| numCoords := 0; numNormalCoords := 0; numCounts := 0; numHoles := 0;
                 numIndices := 0; maxNumUVSets := 0 |} Hcover) as (t & Ht & Hmax).
  rewrite Ht. simpl in Hmax. simpl.
  eexists. split; [reflexivity|]. cbv zeta.
  rewrite copy_geometries_flat.
  set (st0 := {| sg := newSerializedGeometry _ _ _ _ _ _; vertexIndexBase := 0%Z |}).
  set (n := Z.to_nat (maxNumUVSets t)).
  assert (Hn0 : channelCount st0 n) by (unfold channelCount; simpl; by rewrite !length_replicate).
  pose proof (copyMesh_loop_count (concat geometries) st0 n Hn0) as (Hu & Hc & Hi & Hb).
  destruct (fold_max_spec (requiredUVSets PRT_VERSION_MAJOR <$> meshMaterials geometries materials) 0)
    as (Hge & Hall & Hone).
  rewrite <- Hmax in Hge, Hall, Hone.
  assert (HN : size (sg_uvs (sg (fold_left copyMesh (concat geometries) st0)))
               = maxNumUVSets t) by (unfold size; rewrite Hu; subst n; lia).
  rewrite HN. split_and!.
  - unfold size. rewrite Hc. subst n. lia.
  - unfold size. rewrite Hi. subst n. lia.
  - intros p Hp. apply (Hall (requiredUVSets PRT_VERSION_MAJOR p)).
    apply list_elem_of_fmap. eauto.
  - destruct Hone as [Hz|(p & -> & Hp)%list_elem_of_fmap]; [by left|].
    right. exists p. done.
  - intros p t' _. apply scanValidTextures_spec.
  - intros p _. apply scanValidTextures_spec.
  - intros k Hk.
    destruct (copyMesh_loop_channel (concat geometries) st0 k n Hn0) as [_ Hch]; [lia|].
    unfold channel in Hch.
    exists (uvIndexBases (fold_left copyMesh (concat geometries) st0) !!! k).
    rewrite Hch. f_equal. subst st0. simpl.
    rewrite !lookup_total_replicate_2 by lia. done.
  - intros mesh uvSet tgt tgtCnts tgtIdx base. apply appendUVChannel_missing.
Qed.
End Serialize.

Lemma serializeGeometry_backfill_example :
  serializeGeometry 2 [[meshOneUVSet; meshTwoUVSets]] [[untextured; untextured]]
  = Some {| sg_coords := [0; 0; 0; 1; 0; 0; 0; 1; 0; 0; 0; 1; 1; 0; 1; 0; 1; 1]%Z;
            sg_normals := [];
            sg_counts := [3; 3]%Z; sg_holeCounts := [0; 0]%Z; sg_holeIndices := [];
            sg_vertexIndices := [2; 1; 0; 5; 4; 3]%Z; sg_normalIndices := [];
            sg_uvs := [ [10; 11; 12; 13; 14; 15; 20; 21; 22; 23; 24; 25]%Z;
                        [10; 11; 12; 13; 14; 15; 30; 31; 32; 33; 34; 35; 36; 37]%Z ];
            sg_uvCounts := [[3; 3]%Z; [3; 3]%Z];
            sg_uvIndices := [[2; 1; 0; 5; 4; 3]%Z; [2; 1; 0; 3; 4; 6]%Z] |}.
Proof. reflexivity. Qed.

Lemma serializeGeometry_uv_channels_example :
  ∃ g, serializeGeometry 2 [[meshOneUVSet; meshTwoUVSets]] [[untextured; untextured]] = Some g
       ∧ size (sg_uvCounts g) = size (sg_uvs g)
       ∧ size (sg_uvIndices g) = size (sg_uvs g)
       ∧ appendUVChannel meshOneUVSet 1 ([], [], [], 0%Z)
         = ([10; 11; 12; 13; 14; 15]%Z, [3]%Z, [2; 1; 0]%Z, 3%Z).
Proof.
  destruct (serializeGeometry_uv_channels 2 [[meshOneUVSet; meshTwoUVSets]]
              [[untextured; untextured]] eq_refl)
    as (g & Hg & Hc & Hi & _ & _ & _ & _ & _ & Hfill).
  exists g. split_and!; [done|done|done|].
  rewrite (Hfill meshOneUVSet 1%Z [] [] [] 0%Z); [reflexivity| |].
  - unfold meshFits. split_and!; [reflexivity|reflexivity|].
    repeat (constructor; try reflexivity).
  - vm_compute. discriminate.
Defined.

(** ** Utils: strings *)

Section Strings.
Implicit Types (s input extension allowedChars : wstring) (token sep c : ascii)
  (fs : list wstring).

Lemma find_first_of_absent pre s token :
  token ∉ s → find_first_of (pre ++ s) token (length pre) = None.
Proof.
  intros Hs. unfold find_first_of. rewrite drop_app_length.
  replace (list_find (λ x, x = token) s) with (@None (nat * ascii)); [done|].
  symmetry. apply list_find_None. apply Forall_forall. intros x Hx ->. done.
Qed.

Lemma find_first_of_first pre s token rest :
  token ∉ s →
  find_first_of (pre ++ s ++ token :: rest) token (length pre) = Some (length pre + length s).
Proof.
  intros Hs. unfold find_first_of. rewrite drop_app_length.
  replace (list_find (λ x, x = token) (s ++ token :: rest)) with (Some (length s, token));
    [done|].
  symmetry. apply list_find_Some. split_and!; [|done|].
  - by rewrite list_lookup_middle.
  - intros j y Hj Hlt ->. rewrite lookup_app_l in Hj by done.
    apply Hs. by eapply list_elem_of_lookup_2.
Qed.

Lemma find_first_of_absent0 s token :
  token ∉ s → find_first_of s token 0 = None.
Proof. exact (find_first_of_absent [] s token). Qed.

Lemma find_first_of_first0 s token rest :
  token ∉ s → find_first_of (s ++ token :: rest) token 0 = Some (length s).
Proof. exact (find_first_of_first [] s token rest). Qed.

Lemma join_cons sep f g fs : join sep (f :: g :: fs) = f ++ sep :: join sep (g :: fs).
Proof. done. Qed.

Lemma join_length sep f fs : length fs ≤ length (join sep (f :: fs)).
Proof.
  revert f. induction fs as [|g fs IH]; intros f; [simpl; lia|].
  rewrite join_cons, length_app. cbn [length]. specialize (IH g). lia.
Qed.

Lemma tokenizeAllLoop_npos fuel input token out :
  tokenizeAllLoop fuel input token None out = Some out.
Proof. by destruct fuel. Qed.

Lemma tokenizeAllLoop_fields fuel pre f fs out token :
  token ∉ f → Forall (λ g, token ∉ g) fs → length fs < fuel →
  tokenizeAllLoop fuel (pre ++ join token (f :: fs)) token (Some (length pre)) out
  = Some (out ++ filter nonEmpty (f :: fs)).
Proof.
  revert fuel pre f out. induction fs as [|g fs IH]; intros fuel pre f out Hf Hfs Hfuel.
  - destruct fuel as [|fuel]; [lia|]. simpl join. simpl tokenizeAllLoop.
    rewrite find_first_of_absent by done. simpl.
    unfold substr_from. rewrite decide_True by (rewrite length_app; lia).
    simpl. rewrite drop_app_length.
    rewrite tokenizeAllLoop_npos.
    destruct f as [|c f].
    + rewrite (filter_cons_False _ []) by (unfold nonEmpty; tauto).
      by rewrite filter_nil, app_nil_r.
    + rewrite filter_cons_True by done. by rewrite filter_nil.
  - destruct fuel as [|fuel]; [simpl in Hfuel; lia|].
    rewrite join_cons. simpl tokenizeAllLoop.
    rewrite find_first_of_first by done. simpl.
    unfold substr. rewrite decide_True by (rewrite length_app; lia).
    simpl. rewrite drop_app_length.
    replace (length pre + length f - length pre) with (length f) by lia.
    rewrite take_app_length.
    apply Forall_cons in Hfs as [Hg Hfs].
    change (match fs with [] => g | _ :: _ => g ++ token :: join token fs end)
      with (join token (g :: fs)).
    replace (pre ++ f ++ token :: join token (g :: fs))
      with ((pre ++ f ++ [token]) ++ join token (g :: fs))
      by (by rewrite <- !app_assoc).
    replace (length pre + length f + 1) with (length (pre ++ f ++ [token]))
      by (rewrite !length_app; simpl; lia).
    rewrite IH; [|done|done|simpl in Hfuel; lia].
    f_equal. destruct f as [|c f].
    + rewrite (filter_cons_False _ []); [done|]. unfold nonEmpty. tauto.
    + rewrite (filter_cons_True _ (c :: f)) by done. by rewrite <- app_assoc.
Qed.

Lemma fields_nonempty sep s : fields sep s ≠ [].
Proof. destruct s as [|c s]; simpl; [done|]. repeat case_match; done. Qed.

Lemma join_fields sep s : join sep (fields sep s) = s.
Proof.
  induction s as [|c s IH]; [done|]. cbn [fields].
  pose proof (fields_nonempty sep s) as Hne.
  destruct (fields sep s) as [|f fs] eqn:Hf; [done|].
  destruct (decide (c = sep)) as [->|Hc].
  - rewrite join_cons. cbn [app]. by rewrite IH.
  - rewrite <- IH. destruct fs; done.
Qed.

Lemma fields_free sep s : Forall (λ f, sep ∉ f) (fields sep s).
Proof.
  induction s as [|c s IH]; simpl.
  - repeat constructor. by intros ?%elem_of_nil.
  - destruct (decide (c = sep)) as [->|Hc].
    + constructor; [by intros ?%elem_of_nil|done].
    + destruct (fields sep s) as [|f fs]; [repeat constructor|].
      * intros [?|?%elem_of_nil]%elem_of_cons; done.
      * apply Forall_cons in IH as [Hf Hfs]. constructor; [|done].
        intros [?|?]%elem_of_cons; done.
Qed.

Lemma concat_fields sep s : concat (fields sep s) = filter (λ c, c ≠ sep) s.
Proof.
  induction s as [|c s IH]; [done|]. simpl.
  pose proof (fields_nonempty sep s) as Hne.
  destruct (decide (c = sep)) as [->|Hc].
  - rewrite filter_cons_False by tauto. done.
  - rewrite filter_cons_True by done. rewrite <- IH.
    destruct (fields sep s); done.
Qed.

Lemma fields_length sep s : length (fields sep s) ≤ S (length s).
Proof.
  induction s as [|c s IH]; simpl; [lia|].
  destruct (decide (c = sep)); simpl; [lia|].
  destruct (fields sep s); simpl in *; lia.
Qed.

Lemma concat_filter_nonEmpty fs : concat (filter nonEmpty fs) = concat fs.
Proof.
  induction fs as [|f fs IH]; [done|].
  destruct f as [|c f].
  - rewrite filter_cons_False by (unfold nonEmpty; tauto). done.
  - rewrite filter_cons_True by done. simpl. by rewrite IH.
Qed.

Lemma tokenizeAll_join token f fs :
  token ∉ f → Forall (λ g, token ∉ g) fs →
  tokenizeAll (join token (f :: fs)) token = Some (filter nonEmpty (f :: fs)).
Proof.
  intros Hf Hfs. unfold tokenizeAll.
  apply (tokenizeAllLoop_fields _ [] f fs []); [done|done|].
  pose proof (join_length token f fs). lia.
Qed.

(** X1.  [tokenizeAll] never fails (neither by leaving the range of the
    input nor by looping on): it returns tokens that are not empty and
    hold no delimiter, and which, put one after the other, are the input
    without its delimiters. *)
Theorem tokenizeAll_tokens input token :
  ∃ tokens, tokenizeAll input token = Some tokens
    ∧ Forall (λ t, t ≠ [] ∧ token ∉ t) tokens
    ∧ concat tokens = filter (λ c, c ≠ token) input.
Proof.
  pose proof (join_fields token input) as Hjoin.
  pose proof (fields_free token input) as Hfree.
  pose proof (fields_nonempty token input) as Hne.
  destruct (fields token input) as [|f fs] eqn:Hfields; [done|].
  exists (filter nonEmpty (f :: fs)). split_and!.
  - rewrite <- Hjoin. apply Forall_cons in Hfree as [? ?]. by apply tokenizeAll_join.
  - apply Forall_forall. intros t [Ht Hin]%list_elem_of_filter. split; [done|].
    by apply (proj1 (Forall_forall _ _) Hfree).
  - by rewrite concat_filter_nonEmpty, <- Hfields, concat_fields.
Qed.

(** X2.  [tokenizeAll] undoes joining: for strings without the delimiter,
    joined by it, the result is these strings in their order, without the
    empty ones (so leading, trailing and repeated delimiters are
    skipped). *)
Theorem tokenizeAll_of_joined fs token :
  Forall (λ f, token ∉ f) fs →
  tokenizeAll (join token fs) token = Some (filter (λ f, f ≠ []) fs).
Proof.
  intros Hfs. destruct fs as [|f fs]; [done|].
  apply Forall_cons in Hfs as [? ?]. by apply tokenizeAll_join.
Qed.

(** X3.  [tokenizeFirst] splits at the first delimiter, which goes to
    neither part; without a delimiter the whole input is the second part
    and the first is empty. *)
Theorem tokenizeFirst_splits_at_first input token :
  (size input < 2 ^ 64)%Z →
  (token ∉ input → tokenizeFirst input token = Some ([], input)) ∧
  (∀ style name, token ∉ style → input = style ++ token :: name →
     tokenizeFirst input token = Some (style, name)).
Proof.
  intros Hsize. split.
  - intros Hfree. unfold tokenizeFirst.
    by rewrite (find_first_of_absent0 input token Hfree).
  - intros style name Hfree ->. unfold tokenizeFirst.
    rewrite (find_first_of_first0 style token name Hfree).
    assert (Hlast : wrap64 (size (style ++ token :: name) - 1)
                    = (Z.of_nat (length style) + Z.of_nat (length name))%Z).
    { unfold size in *. rewrite length_app in *. cbn [length] in *.
      rewrite wrap64_small by lia. lia. }
    rewrite Hlast.
    assert (Hs1 : substr (style ++ token :: name) 0 (length style) = Some style).
    { unfold substr. rewrite decide_True by lia. by rewrite drop_0, take_app_length. }
    assert (Hs2 : substr_from (style ++ token :: name) (length style + 1) = Some name).
    { unfold substr_from.
      rewrite decide_True by (rewrite length_app; cbn [length]; lia).
      replace (length style + 1) with (length (style ++ [token]))
        by (rewrite length_app; cbn [length]; lia).
      replace (style ++ token :: name) with ((style ++ [token]) ++ name)
        by (by rewrite <- app_assoc).
      by rewrite drop_app_length. }
    rewrite Hs1, Hs2.
    destruct (Z.of_nat (length style) >? 0)%Z eqn:E1;
      destruct (Z.of_nat (length style) <? Z.of_nat (length style) + Z.of_nat (length name))%Z
        eqn:E2; cbn [andb]; try done;
      destruct (Z.of_nat (length style) =? 0)%Z eqn:E3;
      try (apply Z.eqb_eq in E3;
           assert (style = []) as -> by (apply nil_length_inv; lia); done);
      destruct (Z.of_nat (length style) =? Z.of_nat (length style) + Z.of_nat (length name))%Z
        eqn:E4;
      try (apply Z.eqb_eq in E4;
           assert (name = []) as -> by (apply nil_length_inv; lia); done);
      apply Z.eqb_neq in E3, E4; rewrite ?Z.gtb_ltb in E1;
      rewrite ?Z.ltb_lt, ?Z.ltb_ge in E1, E2; lia.
Qed.

Lemma find_first_not_of_absent pre rest allowedChars :
  Forall (λ c, c ∈ allowedChars) rest →
  find_first_not_of (pre ++ rest) allowedChars (length pre) = None.
Proof.
  intros Hall. unfold find_first_not_of. rewrite drop_app_length.
  replace (list_find (λ x, x ∉ allowedChars) rest) with (@None (nat * ascii)); [done|].
  symmetry. apply list_find_None. eapply Forall_impl; [exact Hall|]. tauto.
Qed.

Lemma find_first_not_of_first pre good c rest allowedChars :
  Forall (λ c, c ∈ allowedChars) good → c ∉ allowedChars →
  find_first_not_of (pre ++ good ++ c :: rest) allowedChars (length pre)
  = Some (length pre + length good).
Proof.
  intros Hgood Hc. unfold find_first_not_of. rewrite drop_app_length.
  replace (list_find (λ x, x ∉ allowedChars) (good ++ c :: rest))
    with (Some (length good, c)); [done|].
  symmetry. apply list_find_Some. split_and!; [|done|].
  - by rewrite list_lookup_middle.
  - intros j y Hj Hlt Hy. rewrite lookup_app_l in Hj by done.
    apply Hy. eapply (proj1 (Forall_forall _ _) Hgood). by eapply list_elem_of_lookup_2.
Qed.

Lemma split_allowed allowedChars rest :
  Forall (λ c, c ∈ allowedChars) rest ∨
  ∃ good c rest', rest = good ++ c :: rest' ∧
    Forall (λ c, c ∈ allowedChars) good ∧ c ∉ allowedChars.
Proof.
  induction rest as [|c rest IH]; [by left|].
  destruct (decide (c ∈ allowedChars)) as [Hc|Hc].
  - destruct IH as [Hall|(good & d & rest' & -> & Hgood & Hd)].
    + left. by constructor.
    + right. exists (c :: good), d, rest'. split_and!; [done| |done]. by constructor.
  - right. exists [], c, rest. split_and!; [done| |done]. constructor.
Qed.

Lemma allowedOrUnderscore_allowed allowedChars good :
  Forall (λ c, c ∈ allowedChars) good → allowedOrUnderscore allowedChars <$> good = good.
Proof.
  induction 1 as [|c good Hc _ IH]; [done|]. cbn [fmap list_fmap].
  unfold allowedOrUnderscore at 1. rewrite decide_True by done. f_equal. exact IH.
Qed.

Lemma replaceLoop_spec fuel pre rest allowedChars :
  length rest ≤ fuel →
  replaceLoop fuel (pre ++ rest) allowedChars (length pre)
  = Some (pre ++ (allowedOrUnderscore allowedChars <$> rest)).
Proof.
  revert pre rest. induction fuel as [|fuel IH]; intros pre rest Hfuel.
  - destruct rest; [|simpl in Hfuel; lia]. cbn [replaceLoop].
    rewrite decide_False by (rewrite length_app; simpl; lia). done.
  - cbn [replaceLoop]. destruct rest as [|c0 rest0].
    { rewrite decide_False by (rewrite length_app; simpl; lia). done. }
    rewrite decide_True by (rewrite length_app; simpl; lia).
    destruct (split_allowed allowedChars (c0 :: rest0))
      as [Hall|(good & c & rest' & Heq & Hgood & Hc)].
    + rewrite find_first_not_of_absent by done.
      by rewrite allowedOrUnderscore_allowed.
    + rewrite Heq in *. rewrite find_first_not_of_first by done.
      replace (<[length pre + length good := "_"%char]> (pre ++ good ++ c :: rest'))
        with ((pre ++ good ++ ["_"%char]) ++ rest').
      2:{ rewrite insert_app_r_alt by lia.
          replace (length pre + length good - length pre) with (length good + 0) by lia.
          rewrite insert_app_r. cbn [insert list_insert]. by rewrite <- !app_assoc. }
      replace (S (length pre + length good)) with (length (pre ++ good ++ ["_"%char]))
        by (rewrite !length_app; simpl; lia).
      rewrite IH by (rewrite length_app in Hfuel; simpl in Hfuel; lia).
      rewrite fmap_app, (allowedOrUnderscore_allowed allowedChars good Hgood).
      cbn [fmap list_fmap].
      unfold allowedOrUnderscore at 2. rewrite decide_False by done.
      by rewrite <- !app_assoc.
Qed.

Lemma allowedOrUnderscore_idemp allowedChars c :
  allowedOrUnderscore allowedChars (allowedOrUnderscore allowedChars c)
  = allowedOrUnderscore allowedChars c.
Proof.
  unfold allowedOrUnderscore. destruct (decide (c ∈ allowedChars)) as [Hc|Hc].
  - by rewrite decide_True.
  - by destruct (decide ("_"%char ∈ allowedChars)).
Qed.

(** X4.  [replace_all_not_of] always ends, keeps the length of the
    string and every allowed character in its place, and puts an
    underscore for every other character; applied again it changes
    nothing. *)
Theorem replace_all_not_of_replaces_exactly_the_others s allowedChars :
  replace_all_not_of s allowedChars = Some (allowedOrUnderscore allowedChars <$> s) ∧
  replace_all_not_of (allowedOrUnderscore allowedChars <$> s) allowedChars
  = Some (allowedOrUnderscore allowedChars <$> s).
Proof.
  assert (Hspec : ∀ s, replace_all_not_of s allowedChars
                       = Some (allowedOrUnderscore allowedChars <$> s)).
  { intros s0. unfold replace_all_not_of. exact (replaceLoop_spec _ [] s0 _ (le_n _)). }
  split; [apply Hspec|]. rewrite Hspec. f_equal.
  rewrite <- list_fmap_compose. apply list_fmap_ext. intros i c _.
  apply allowedOrUnderscore_idemp.
Qed.

Lemma rfind0_prefix s v :
  bool_decide (rfind0 s v = Some 0) = bool_decide (v `prefix_of` s).
Proof.
  unfold rfind0. destruct (decide (v `prefix_of` s)) as [Hp|Hp].
  - by rewrite !(bool_decide_eq_true_2 _ Hp), bool_decide_eq_true_2.
  - by rewrite !(bool_decide_eq_false_2 _ Hp), bool_decide_eq_false_2.
Qed.

Lemma cleanFileExtension_cases extension :
  extension ≠ [] →
  FILE_EXTENSION_PREFIX `prefix_of` cleanFileExtension extension ∧
  (cleanFileExtension extension = extension ∨
   cleanFileExtension extension = FILE_ANY ++ extension ∨
   cleanFileExtension extension = FILE_EXTENSION_PREFIX ++ extension).
Proof.
  intros Hne. destruct extension as [|c e]; [done|].
  unfold cleanFileExtension. rewrite !rfind0_prefix.
  destruct (decide (FILE_EXTENSION_PREFIX `prefix_of` c :: e)) as [Hp|Hp].
  - rewrite (bool_decide_eq_true_2 _ Hp). split; [done|by left].
  - rewrite (bool_decide_eq_false_2 _ Hp).
    destruct (decide (FILE_DOT `prefix_of` c :: e)) as [Hd|Hd].
    + rewrite (bool_decide_eq_true_2 _ Hd). split; [|right; by left].
      destruct Hd as [k Hk]. rewrite Hk. by exists k.
    + rewrite (bool_decide_eq_false_2 _ Hd). split; [|right; by right].
      by apply prefix_app_r.
Qed.

(** X5.  [cleanFileExtension] maps the empty extension, and only it, to
    the empty string; every other result is a file pattern: it starts
    with the prefix of a pattern, ends with the extension as it was given
    and is left as it is when cleaned again. *)
Theorem cleanFileExtension_gives_a_pattern extension :
  (cleanFileExtension extension = [] ↔ extension = []) ∧
  (extension = [] ∨ FILE_EXTENSION_PREFIX `prefix_of` cleanFileExtension extension) ∧
  extension `suffix_of` cleanFileExtension extension ∧
  cleanFileExtension (cleanFileExtension extension) = cleanFileExtension extension.
Proof.
  destruct (decide (extension = [])) as [->|Hne].
  { split_and!; [done|by left|done|done]. }
  destruct (cleanFileExtension_cases extension Hne) as [Hp Hcases].
  assert (Hne' : cleanFileExtension extension ≠ []).
  { destruct Hp as [k Hk]. rewrite Hk. done. }
  split_and!.
  - split; [done|]. by intros ->.
  - by right.
  - destruct Hcases as [->|[->| ->]]; [done|by eexists|by eexists].
  - destruct (cleanFileExtension extension) as [|c e] eqn:Hc; [done|].
    unfold cleanFileExtension. rewrite rfind0_prefix.
    by rewrite (bool_decide_eq_true_2 _ Hp).
Qed.

Lemma join_concat sep f fs : join sep (f :: fs) = f ++ concat ((λ g, sep :: g) <$> fs).
Proof.
  revert f. induction fs as [|g fs IH]; intros f.
  - cbn. by rewrite app_nil_r.
  - rewrite join_cons, IH. done.
Qed.

(** The loop of [getFileExtensionString], entered with the string it has
    built so far. *)
Lemma getFileExtensionString_loop (extensions : list wstring) (acc : wstring) :
  fold_left
    (fun (extensionString : wstring) (extension : wstring) =>
       match cleanFileExtension extension with
       | [] => extensionString
       | cleanedFileExtension =>
           match extensionString with
           | [] => extensionString ++ cleanedFileExtension
           | _ :: _ => extensionString ++ (" "%char :: cleanedFileExtension)
           end
       end)
    extensions acc
  = match acc, cleanFileExtension <$> filter nonEmpty extensions with
    | [], [] => []
    | [], c :: cs => join " "%char (c :: cs)
    | _ :: _, cs => acc ++ concat ((λ g, " "%char :: g) <$> cs)
    end.
Proof.
  revert acc. induction extensions as [|e es IH]; intros acc.
  - cbn. destruct acc; [done|]. by rewrite app_nil_r.
  - cbn [fold_left]. rewrite IH. clear IH.
    destruct (decide (e = [])) as [->|Hne].
    + rewrite (filter_cons_False _ []) by (unfold nonEmpty; tauto). done.
    + rewrite filter_cons_True by done. cbn [fmap list_fmap].
      destruct (cleanFileExtension_cases e Hne) as [[k Hk] _].
      rewrite Hk. cbn [FILE_EXTENSION_PREFIX FILE_ANY FILE_DOT app].
      destruct acc as [|a acc].
      * cbn [app]. rewrite join_concat. done.
      * cbn [app fmap list_fmap concat]. by rewrite <- !app_assoc.
Qed.

(** X6.  [getFileExtensionString] skips the empty extensions and returns
    the patterns of the others, in their order and separated by one
    space; without any it returns the pattern for any file, and in no
    other case. *)
Theorem getFileExtensionString_lists_the_patterns (extensions : list wstring) :
  getFileExtensionString extensions
  = match filter nonEmpty extensions with
    | [] => FILE_ANY
    | used => join " "%char (cleanFileExtension <$> used)
    end ∧
  (getFileExtensionString extensions = FILE_ANY ↔ Forall (λ e, e = []) extensions).
Proof.
  assert (Hform : getFileExtensionString extensions
                  = match filter nonEmpty extensions with
                    | [] => FILE_ANY
                    | used => join " "%char (cleanFileExtension <$> used)
                    end).
  { unfold getFileExtensionString. rewrite getFileExtensionString_loop.
    destruct (filter nonEmpty extensions) as [|e es] eqn:Hf; [done|].
    assert (Hne : e ≠ []).
    { assert (e ∈ filter nonEmpty extensions) as [? _]%list_elem_of_filter; [|done].
      rewrite Hf. by left. }
    cbn [fmap list_fmap].
    destruct (cleanFileExtension_cases e Hne) as [[k Hk] _].
    rewrite join_concat, Hk. done. }
  split; [exact Hform|]. rewrite Hform. split.
  - intros Hany. destruct (filter nonEmpty extensions) as [|e es] eqn:Hf.
    + apply Forall_forall. intros x Hx. destruct (decide (x = [])) as [|Hne]; [done|].
      assert (x ∈ filter nonEmpty extensions) as Hin by (by apply list_elem_of_filter).
      rewrite Hf in Hin. by apply elem_of_nil in Hin.
    + exfalso. assert (Hne : e ≠ []).
      { assert (e ∈ filter nonEmpty extensions) as [? _]%list_elem_of_filter; [|done].
        rewrite Hf. by left. }
      cbn [fmap list_fmap] in Hany.
      destruct (cleanFileExtension_cases e Hne) as [[k Hk] _].
      rewrite join_concat, Hk in Hany. done.
  - intros Hall. replace (filter nonEmpty extensions) with (@nil wstring); [done|].
    symmetry. clear Hform. induction Hall as [|e es -> _ IH]; [done|].
    rewrite (filter_cons_False _ []) by (unfold nonEmpty; tauto). exact IH.
Qed.

Lemma find_at_start s v : find s v = Some 0 ↔ v `prefix_of` s.
Proof.
  destruct s as [|c s]; cbn [find].
  - destruct (decide (v `prefix_of` [])) as [Hp|Hp].
    + by rewrite (bool_decide_eq_true_2 _ Hp).
    + by rewrite (bool_decide_eq_false_2 _ Hp).
  - destruct (decide (v `prefix_of` c :: s)) as [Hp|Hp].
    + by rewrite (bool_decide_eq_true_2 _ Hp).
    + rewrite (bool_decide_eq_false_2 _ Hp). destruct (find s v); done.
Qed.

(** X7.  [startsWithAnyOf] holds exactly when one of the given strings
    is a prefix of the string; so never for an empty list, and always
    when the empty string is among the given ones. *)
Theorem startsWithAnyOf_is_a_prefix_test s (sv : list wstring) :
  (startsWithAnyOf s sv = true ↔ ∃ v, v ∈ sv ∧ v `prefix_of` s) ∧
  startsWithAnyOf s [] = false ∧
  ([] ∈ sv → startsWithAnyOf s sv = true).
Proof.
  assert (Hiff : ∀ sv, startsWithAnyOf s sv = true ↔ ∃ v, v ∈ sv ∧ v `prefix_of` s).
  { intros sv0. unfold startsWithAnyOf. rewrite existsb_exists. split.
    - intros (v & Hin%list_elem_of_In & Hv%bool_decide_eq_true).
      exists v. split; [done|]. by apply find_at_start.
    - intros (v & Hin & Hv). exists v. split; [by apply list_elem_of_In|].
      apply bool_decide_eq_true. by apply find_at_start. }
  split_and!; [apply Hiff|done|].
  intros Hin. apply Hiff. exists []. split; [done|]. apply prefix_nil.
Qed.

End Strings.

Lemma tokenizeAll_of_joined_example :
  tokenizeAll (text ";a;;bc;") ";"%char = Some [text "a"; text "bc"].
Proof.
  apply (tokenizeAll_of_joined [text ""; text "a"; text ""; text "bc"; text ""] ";"%char).
  repeat constructor; vm_compute; by intros H; repeat (inversion_clear H as [|? ? ? H']; rename H' into H).
Defined.

Lemma tokenizeFirst_example :
  tokenizeFirst (text "Default$Lot") "$"%char = Some (text "Default", text "Lot").
Proof.
  apply (proj2 (tokenizeFirst_splits_at_first (text "Default$Lot") "$"%char eq_refl)
           (text "Default") (text "Lot")); [|reflexivity].
  vm_compute. by intros H; repeat (inversion_clear H as [|? ? ? H']; rename H' into H).
Defined.

(** ** HoleConverter: the number of rings, and when the walk fails *)

Section DetectLoopCount.
Variable bridges : UndirectedEdgeSet.

Lemma detectStep_count info ringIdx e info' ringIdx' :
  detectStep bridges (info, ringIdx) e = Some (info', ringIdx') →
  length info' = (length info + if entersHole bridges e then 1 else 0)%nat.
Proof.
  unfold detectStep, entersHole.
  destruct (checkBridgeEnding EDGE_START bridges e);
    [|destruct (checkBridgeEnding EDGE_END bridges e)];
    destruct (pushBackAt info ringIdx e.1) as [info1|] eqn:Hpush; simpl;
    intros [= <- <-]; apply pushBackAt_length in Hpush;
    rewrite ?length_app; simpl; lia.
Qed.

Lemma detectLoop_count es info ringIdx info' ringIdx' :
  detectLoop bridges (info, ringIdx) es = Some (info', ringIdx') →
  length info' = (length info + length (List.filter (entersHole bridges) es))%nat.
Proof.
  revert info ringIdx. induction es as [|e es IH]; intros info ringIdx; simpl.
  - intros [= <- <-]. lia.
  - destruct (detectStep bridges (info, ringIdx) e) as [[info1 ringIdx1]|] eqn:Hstep;
      simpl; [|done].
    intros Hloop. apply IH in Hloop. apply detectStep_count in Hstep.
    destruct (entersHole bridges e); simpl; lia.
Qed.

Lemma detectStep_out_of_range info ringIdx e :
  (size info ≤ ringIdx)%Z → detectStep bridges (info, ringIdx) e = None.
Proof.
  intros Hr. unfold detectStep, pushBackAt, at_.
  replace ((0 <=? ringIdx) && (ringIdx <? size info))%Z with false
    by (symmetry; apply andb_false_iff; right; apply Z.ltb_ge; lia).
  by repeat case_match.
Qed.

(** The walk fails as soon as the ring index leaves the list of rings. *)
Lemma detectLoop_undefined es info (depth : nat) :
  ringIndexStaysInRange bridges depth es = false →
  (depth < length info)%nat →
  (size info + size es < 2 ^ 64)%Z →
  detectLoop bridges (info, Z.of_nat depth) es = None.
Proof.
  revert info depth.
  induction es as [|e es IH]; intros info depth Hout Hd Hsz; simpl; [done|].
  simpl in Hout. unfold size in *. simpl length in Hsz.
  destruct (pushBackAt_is_Some info (Z.of_nat depth) e.1) as [info1 Hpush];
    [unfold size; lia|].
  pose proof (pushBackAt_length _ _ _ _ Hpush) as Hlen.
  unfold detectStep. rewrite Hpush.
  destruct (checkBridgeEnding EDGE_START bridges e); simpl.
  - rewrite wrap64_small by lia.
    replace (Z.of_nat depth + 1)%Z with (Z.of_nat (S depth)) by lia.
    apply IH; [done| |]; rewrite length_app; cbn [length]; lia.
  - destruct (checkBridgeEnding EDGE_END bridges e); simpl.
    + destruct depth as [|d].
      * destruct es as [|e' es]; [done|]. simpl.
        rewrite detectStep_out_of_range; [done|].
        unfold wrap64, size. simpl length in Hsz.
        change ((Z.of_nat 0 - 1) mod 2 ^ 64)%Z with (2 ^ 64 - 1)%Z. lia.
      * rewrite wrap64_small by lia.
        replace (Z.of_nat (S d) - 1)%Z with (Z.of_nat d) by lia.
        apply IH; [done|lia|lia].
    + apply IH; [done|lia|lia].
Qed.

End DetectLoopCount.

(** X8.  [extractHoles] returns the outer ring and one more ring for
    every non-bridge edge that ends where a stored bridge starts; so at
    least one ring, also for a polygon without edges. *)
Theorem extractHoles_ring_count (source : EdgeSource) (rings : FaceWithHoles) :
  extractHoles source = Some rings →
  length rings
  = S (length (List.filter (entersHole (collectEdges source).2) (collectEdges source).1)).
Proof.
  unfold extractHoles.
  destruct (collectEdges source) as [es [|b bridges]]; simpl.
  - intros [= <-]. simpl. f_equal. symmetry. apply length_zero_iff_nil.
    induction es as [|e es IH]; [done|]. simpl. exact IH.
  - unfold detectFaceAndHoles.
    destruct (detectLoop _ _ es) as [[info ringIdx]|] eqn:Hloop; simpl; [|done].
    intros [= <-]. apply detectLoop_count in Hloop. simpl in Hloop. lia.
Qed.

Lemma extractHoles_ring_count_example :
  length [[0; 1; 2; 3]; [4; 5; 6; 7]]%Z
  = S (length (List.filter (entersHole (collectEdges squareWithHole).2)
                           (collectEdges squareWithHole).1)).
Proof. apply (extractHoles_ring_count squareWithHole). reflexivity. Defined.

(** X9.  [extractHoles] indexes outside its list of rings, and so has no
    result, exactly when the walk leaves more holes than it has entered
    and goes on afterwards. *)
Theorem extractHoles_fails_iff_ring_index_leaves_range (source : EdgeSource) :
  (size (getEdges source) < 2 ^ 64)%Z →
  extractHoles source = None ↔
  ringIndexStaysInRange (collectEdges source).2 0 (collectEdges source).1 = false.
Proof.
  intros Hsz. split.
  - intros Hnone.
    destruct (ringIndexStaysInRange _ 0 _) eqn:Hin; [|done].
    destruct (extractHoles_defined source Hsz Hin) as [rings Hrings]. congruence.
  - intros Hout. unfold extractHoles.
    pose proof (collect_loop_length source (getEdges source) ([], [])) as Hlen.
    fold (collectEdges source) in Hlen.
    destruct (collectEdges source) as [es [|b bridges]]; simpl in *.
    + exfalso. clear Hlen. revert Hout. generalize 0%nat.
      induction es as [|e es IH]; intros depth; simpl; [done|]. apply IH.
    + unfold detectFaceAndHoles.
      pose proof (detectLoop_undefined (b :: bridges) es [[]] 0 Hout) as Hnone.
      change (Z.of_nat 0) with 0%Z in Hnone.
      rewrite Hnone; [done|simpl; lia|unfold size in *; simpl; lia].
Qed.

Lemma extractHoles_fails_example : extractHoles squareWithHole_outwardFirst = None.
Proof.
  apply (extractHoles_fails_iff_ring_index_leaves_range squareWithHole_outwardFirst);
    reflexivity.
Defined.

(** ** PRTContext: [scheduleRecook] *)

(** X10.  [scheduleRecook] forces a recook of exactly the assign nodes
    set to the rule package: every node keeps its operator and its package,
    a node is forced afterwards when it was before or is an assign node
    whose package equals the given one as paths compare (element by
    element, so also when it is spelled differently), and no other is; the
    caches are left alone, without a director nothing happens, and a second
    pass changes nothing more. *)
Theorem scheduleRecook_forces_the_matching_assign_nodes {C O : Type}
    (OP_PLD_ASSIGN : string) (rpk : path) (w : World C O) :
  let w' := scheduleRecook OP_PLD_ASSIGN rpk w in
  mResolveMapCache w' = mResolveMapCache w ∧
  mPRTCache w' = mPRTCache w ∧
  match director w with
  | None => director w' = None
  | Some nodes =>
      ∃ nodes', director w' = Some nodes' ∧ length nodes' = length nodes ∧
        ∀ i n, nodes !! i = Some n →
          ∃ n', nodes' !! i = Some n' ∧
            getOperatorName n' = getOperatorName n ∧ getRPK n' = getRPK n ∧
            (recookForced n' = true ↔
             recookForced n = true ∨
             (getOperatorName n = OP_PLD_ASSIGN ∧
              root_name (getRPK n) = root_name rpk ∧
              has_root_directory (getRPK n) = has_root_directory rpk ∧
              relative_path (getRPK n) = relative_path rpk))
  end ∧
  director (scheduleRecook OP_PLD_ASSIGN rpk w') = director w'.
Proof.
  cbv zeta. split_and!; [done|done| |].
  - pose proof (scheduleRecook_nodes OP_PLD_ASSIGN rpk w) as Hnodes.
    destruct (director w) as [nodes|]; [|done].
    destruct Hnodes as (nodes' & Hd & Hlen & Hall).
    exists nodes'. split_and!; [done|done|].
    intros i n Hn. destruct (Hall i n Hn) as (n' & Hn' & Hop & Hrpk & Hf).
    exists n'. split_and!; [done|done|done|]. by rewrite Hf, path_equal_spec.
  - unfold scheduleRecook. simpl. destruct (director w) as [nodes|]; [|done].
    f_equal. rewrite <- list_fmap_compose. apply list_fmap_ext. intros i n _. simpl.
    destruct (visit_forces_matching_assign_nodes OP_PLD_ASSIGN rpk n) as (Hop & Hrpk & Hf).
    unfold visit at 1. rewrite Hop, Hrpk.
    unfold visit. destruct (String.eqb _ _); [|done]. destruct (path_equal _ _); done.
Qed.

(** The pass for /a/b.rpk forces the recook of the assign node that is
    set to /a//b.rpk. *)
Lemma scheduleRecook_respelled_path_example :
  path_string packagePathRespelled ≠ path_string packagePath ∧
  ∃ n', director (scheduleRecook "pldAssign" packagePath exampleGraph) ≫= (.!! 0%nat)
        = Some n' ∧
        getRPK n' = packagePathRespelled ∧ recookForced n' = true.
Proof.
  split; [discriminate|].
  destruct (proj1 (proj2 (proj2 (scheduleRecook_forces_the_matching_assign_nodes
                                   "pldAssign" packagePath exampleGraph))))
    as (nodes' & Hd & _ & Hall).
  destruct (Hall 0%nat _ eq_refl) as (n' & Hn' & _ & Hrpk & Hf).
  exists n'. split; [rewrite Hd; exact Hn'|]. split; [exact Hrpk|].
  apply Hf. right. done.
Defined.

(** ** ModelConverter: the attribute callbacks *)

Section AttributeCallbacks.
Context {D G : Type} `{!KeyTaken D}.
Implicit Types (s : State D G) (c : AttrCall D) (cs : list (AttrCall D)).

Lemma runAttrCall_frame s c :
  (runAttrCall s c).2 = STATUS_OK ∧
  mDetail (runAttrCall s c).1 = mDetail s ∧
  mStatuses (runAttrCall s c).1 = mStatuses s ∧
  prtLog (runAttrCall s c).1 = prtLog s.
Proof. by destruct c. Qed.

(** A callback sets its value in the builder of its shape and leaves the
    builders of the other shapes alone. *)
Lemma runAttrCall_builder s c (shapeID : Z) :
  getBuilder (mShapeAttributeBuilders (runAttrCall s c).1) shapeID
  = if bool_decide (callShapeID c = shapeID)
    then setValue (callKey c) (callValue c) (getBuilder (mShapeAttributeBuilders s) shapeID)
    else getBuilder (mShapeAttributeBuilders s) shapeID.
Proof.
  assert (Hset : ∀ b : AttributeMapBuilder D,
    getBuilder (<[callShapeID c := b]> (mShapeAttributeBuilders s)) shapeID
    = if bool_decide (callShapeID c = shapeID) then b
      else getBuilder (mShapeAttributeBuilders s) shapeID).
  { intros b. unfold getBuilder at 1. case_bool_decide as Hid.
    - subst shapeID. by rewrite lookup_insert_eq.
    - by rewrite lookup_insert_ne. }
  destruct (decide (callShapeID c = shapeID)) as [Hid|Hid].
  - subst shapeID. rewrite bool_decide_eq_true_2 by done.
    rewrite bool_decide_eq_true_2 in Hset by done. destruct c; apply Hset.
  - rewrite (bool_decide_eq_false_2 _ Hid). rewrite (bool_decide_eq_false_2 _ Hid) in Hset.
    destruct c; apply Hset.
Qed.

Lemma runAttrCalls_builder cs : ∀ s (shapeID : Z),
  getBuilder (mShapeAttributeBuilders (runAttrCalls s cs)) shapeID
  = recordAll (shapeCalls cs shapeID) (getBuilder (mShapeAttributeBuilders s) shapeID).
Proof.
  induction cs as [|c cs IH]; intros s shapeID; [done|].
  unfold runAttrCalls. cbn [fold_left].
  change (fold_left _ cs ?s0) with (runAttrCalls s0 cs).
  rewrite IH, runAttrCall_builder. unfold shapeCalls.
  case_bool_decide as Hid.
  - by rewrite (filter_cons_True _ c) by done.
  - by rewrite (filter_cons_False _ c) by done.
Qed.

Lemma runAttrCalls_frame cs : ∀ s,
  mStatuses (runAttrCalls s cs) = mStatuses s ∧
  mDetail (runAttrCalls s cs) = mDetail s ∧
  prtLog (runAttrCalls s cs) = prtLog s.
Proof.
  induction cs as [|c cs IH]; intros s; [done|].
  unfold runAttrCalls. cbn [fold_left].
  change (fold_left _ cs ?s0) with (runAttrCalls s0 cs).
  destruct (IH (runAttrCall s c).1) as (-> & -> & ->).
  by destruct (runAttrCall_frame s c) as (_ & -> & -> & ->).
Qed.

(** X11.  The attribute callbacks collect one attribute map per shape:
    after any sequence of calls, the builder of a shape is the builder it
    was before (the empty one, if there was none) with the keys and values
    of the calls made for this shape recorded in their order, the calls
    for other shapes having no part in it.  So where a key of the shape is
    used with one type only, it holds the value of the last call made for
    this shape and key, and what it held before when there was none.  The
    callbacks return success and touch neither the statuses, nor the
    detail, nor the log. *)
Theorem attribute_callbacks_record_per_shape s cs (shapeID : Z) (key : string) :
  getBuilder (mShapeAttributeBuilders (runAttrCalls s cs)) shapeID
  = recordAll (shapeCalls cs shapeID) (getBuilder (mShapeAttributeBuilders s) shapeID) ∧
  (∀ t : PrimitiveType,
     ofOneType t key (shapeCalls cs shapeID) (getBuilder (mShapeAttributeBuilders s) shapeID) →
     getBuilder (mShapeAttributeBuilders (runAttrCalls s cs)) shapeID !! key
     = match lastOf (shapeCalls cs shapeID) key with
       | Some v => Some v
       | None => getBuilder (mShapeAttributeBuilders s) shapeID !! key
       end) ∧
  mStatuses (runAttrCalls s cs) = mStatuses s ∧
  mDetail (runAttrCalls s cs) = mDetail s ∧
  prtLog (runAttrCalls s cs) = prtLog s ∧
  Forall (fun c => ∀ s', (runAttrCall s' c).2 = STATUS_OK) cs.
Proof.
  destruct (runAttrCalls_frame cs s) as (Hst & Hd & Hlog).
  split; [apply runAttrCalls_builder|]. split; [|split_and!; try done].
  - intros t Hone. rewrite runAttrCalls_builder. by apply (recordAll_lookup _ _ _ t).
  - apply Forall_forall. intros c _ s'. by destruct (runAttrCall_frame s' c).
Qed.

End AttributeCallbacks.

Lemma attribute_callbacks_example :
  getBuilder (mShapeAttributeBuilders
                (runAttrCalls twoShapes
                   [CallAttrFloat 0 7 "height" 1; CallAttrFloat 1 8 "height" 5;
                    CallAttrFloat 0 7 "height" 2]%Z)) 7 !! "height"
  = Some (AV_Float 2%Z).
Proof.
  apply (proj1 (proj2 (attribute_callbacks_record_per_shape twoShapes
                         [CallAttrFloat 0 7 "height" 1; CallAttrFloat 1 8 "height" 5;
                          CallAttrFloat 0 7 "height" 2]%Z 7 "height")) PT_FLOAT).
  split; [intros old Hold; discriminate Hold|].
  repeat (apply Forall_cons; split; [intros _; reflexivity|]).
  apply Forall_nil. exact I.
Defined.

(** ** ModelConverter: [convertVertices] *)

Section ConvertVertices.
Context {D : Type}.
Implicit Types (vtx l pre : list D) (pts : list (D * D * D)).

Lemma at_app_r pre l (i : Z) :
  (0 ≤ i)%Z → at_ (pre ++ l) (size pre + i) = at_ l i.
Proof.
  intros Hi. unfold at_, size. rewrite length_app.
  replace (0 <=? Z.of_nat (length pre) + i)%Z with true by (symmetry; apply Z.leb_le; lia).
  replace (0 <=? i)%Z with true by (symmetry; apply Z.leb_le; lia).
  cbn [andb].
  destruct (i <? Z.of_nat (length l))%Z eqn:Hlt.
  - replace (Z.of_nat (length pre) + i <? Z.of_nat (length pre + length l))%Z with true
      by (symmetry; apply Z.ltb_lt; apply Z.ltb_lt in Hlt; lia).
    rewrite lookup_app_r by lia. f_equal. lia.
  - replace (Z.of_nat (length pre) + i <? Z.of_nat (length pre + length l))%Z with false
      by (symmetry; apply Z.ltb_ge; apply Z.ltb_ge in Hlt; lia).
    done.
Qed.

Lemma mapM_cons_eq {A B} (f : A → option B) (a : A) (l : list A) :
  mapM f (a :: l) = y ← f a; k ← mapM f l; Some (y :: k).
Proof. done. Qed.

Lemma seqZ_one (k : Z) : seqZ k 1 = [k].
Proof. rewrite seqZ_cons by lia. done. Qed.

Lemma convertVertices_loop (n : nat) : ∀ pre l (k : Z),
  length l < n → size pre = (3 * k)%Z →
  mapM (fun pi : Z =>
          x ← at_ (pre ++ l) pi;
          y ← at_ (pre ++ l) (pi + 1);
          z ← at_ (pre ++ l) (pi + 2);
          Some (x, y, z))
       ((fun k => 3 * k)%Z <$> seqZ k ((size l + 2) / 3))
  = points l.
Proof.
  induction n as [|n IH]; intros pre l k Hn Hpre; [lia|].
  assert (Hat : ∀ i, (0 ≤ i)%Z → at_ (pre ++ l) (3 * k + i) = at_ l i).
  { intros i Hi. rewrite <- Hpre. by apply at_app_r. }
  destruct l as [|x [|y [|z r]]].
  - done.
  - change ((size [x] + 2) / 3)%Z with 1%Z. rewrite seqZ_one.
    cbn [fmap list_fmap]. rewrite mapM_cons_eq.
    rewrite <- (Z.add_0_r (3 * k)) at 1. rewrite !Hat by lia. done.
  - change ((size [x; y] + 2) / 3)%Z with 1%Z. rewrite seqZ_one.
    cbn [fmap list_fmap]. rewrite mapM_cons_eq.
    rewrite <- (Z.add_0_r (3 * k)) at 1. rewrite !Hat by lia. done.
  - replace ((size (x :: y :: z :: r) + 2) / 3)%Z with (Z.succ ((size r + 2) / 3)).
    2:{ unfold size. cbn [length].
        replace (Z.of_nat (S (S (S (length r)))) + 2)%Z
          with (Z.of_nat (length r) + 2 + 1 * 3)%Z by lia.
        rewrite Z.div_add by lia. lia. }
    assert (Hnn : (0 ≤ (size r + 2) / 3)%Z).
    { apply Z.div_pos; unfold size; lia. }
    rewrite seqZ_cons by lia. rewrite Z.pred_succ.
    cbn [fmap list_fmap]. rewrite mapM_cons_eq.
    rewrite <- (Z.add_0_r (3 * k)) at 1. rewrite !Hat by lia.
    replace (pre ++ x :: y :: z :: r) with ((pre ++ [x; y; z]) ++ r)
      by (by rewrite <- app_assoc).
    rewrite (IH (pre ++ [x; y; z]) r (Z.succ k)).
    + rewrite (proj2 (at_Some (x :: y :: z :: r) 0 x)) by done.
      rewrite (proj2 (at_Some (x :: y :: z :: r) 1 y)) by done.
      rewrite (proj2 (at_Some (x :: y :: z :: r) 2 z)) by done.
      simpl. by destruct (points r).
    + simpl in Hn. lia.
    + unfold size in *. rewrite length_app. simpl. lia.
Qed.

Lemma convertVertices_points vtx : convertVertices vtx (size vtx) = points vtx.
Proof.
  unfold convertVertices.
  exact (convertVertices_loop (S (length vtx)) [] vtx 0 (Nat.lt_succ_diag_r _) eq_refl).
Qed.

Lemma points_flatten pts : points (flatten pts) = Some pts.
Proof.
  induction pts as [|[[x y] z] pts IH]; [done|].
  change (flatten ((x, y, z) :: pts)) with (x :: y :: z :: flatten pts).
  cbn [points]. by rewrite IH.
Qed.

Lemma points_Some (n : nat) : ∀ l pts,
  length l < n → points l = Some pts → flatten pts = l.
Proof.
  induction n as [|n IH]; intros l pts Hn; [lia|].
  destruct l as [|x [|y [|z r]]]; simpl; try done.
  - by intros [= <-].
  - destruct (points r) as [pts'|] eqn:Hr; simpl; [|done].
    intros [= <-].
    change (flatten ((x, y, z) :: pts')) with (x :: y :: z :: flatten pts').
    do 3 f_equal. apply IH; [simpl in Hn; lia|done].
Qed.

Lemma flatten_length pts : length (flatten pts) = 3 * length pts.
Proof.
  induction pts as [|[[x y] z] pts IH]; [done|].
  change (flatten ((x, y, z) :: pts)) with (x :: y :: z :: flatten pts).
  cbn [length]. rewrite IH. lia.
Qed.

(** X12.  [convertVertices] stays within the coordinate array exactly
    when its size is a multiple of three; it then returns the points whose
    coordinates, one point after the other, are the array, a third as
    many as there are coordinates.  So it undoes the flattening of
    points. *)
Theorem convertVertices_reads_whole_points vtx :
  (is_Some (convertVertices vtx (size vtx)) ↔ (size vtx mod 3 = 0)%Z) ∧
  (∀ pts, convertVertices vtx (size vtx) = Some pts →
     flatten pts = vtx ∧ size pts = (size vtx / 3)%Z) ∧
  (∀ pts, convertVertices (flatten pts) (size (flatten pts)) = Some pts).
Proof.
  assert (Hsome : ∀ pts, convertVertices vtx (size vtx) = Some pts →
            flatten pts = vtx ∧ size pts = (size vtx / 3)%Z).
  { intros pts Hpts. rewrite convertVertices_points in Hpts.
    apply (points_Some (S (length vtx))) in Hpts; [|lia].
    split; [done|]. rewrite <- Hpts. unfold size. rewrite flatten_length.
    rewrite Nat2Z.inj_mul, Z.mul_comm, Z.div_mul by lia. done. }
  split_and!; [|exact Hsome|].
  - split.
    + intros [pts Hpts]. destruct (Hsome pts Hpts) as [Hflat _].
      rewrite <- Hflat. unfold size. rewrite flatten_length.
      rewrite Nat2Z.inj_mul, Z.mul_comm. apply Z.mod_mul. lia.
    + intros Hmod. rewrite convertVertices_points.
      assert (Hlen : ∃ m : nat, length vtx = 3 * m).
      { exists (Z.to_nat (size vtx / 3)). unfold size in *.
        pose proof (Z.div_mod (Z.of_nat (length vtx)) 3 ltac:(lia)) as Hdm.
        assert (0 ≤ Z.of_nat (length vtx) / 3)%Z by (apply Z.div_pos; lia). lia. }
      destruct Hlen as [m Hm]. clear Hmod Hsome. revert vtx Hm.
      induction m as [|m IH]; intros vtx Hm.
      * destruct vtx; [by eexists|simpl in Hm; lia].
      * destruct vtx as [|x [|y [|z r]]]; try (simpl in Hm; lia).
        destruct (IH r) as [pts Hpts]; [simpl in Hm; lia|].
        simpl. rewrite Hpts. by eexists.
  - intros pts. rewrite convertVertices_points. apply points_flatten.
Qed.

End ConvertVertices.

(** ** HoudiniEncoder: the geometry arrays of [serializeGeometry] *)

Lemma toInt64_small (x : Z) : (- 2 ^ 63 ≤ x < 2 ^ 63)%Z → toInt64 x = x.
Proof.
  intros Hx. unfold toInt64, wrap64.
  destruct (decide (0 ≤ x)%Z) as [Hpos|Hneg].
  - rewrite Z.mod_small by lia.
    replace (x <? 2 ^ 63)%Z with true by (symmetry; apply Z.ltb_lt; lia). done.
  - replace (x mod 2 ^ 64)%Z with (x + 2 ^ 64)%Z.
    2:{ apply Z.mod_unique with (q := (-1)%Z); lia. }
    replace (x + 2 ^ 64 <? 2 ^ 63)%Z with false by (symmetry; apply Z.ltb_ge; lia). lia.
Qed.

Lemma fmap_concat {A B} (f : A → B) (ls : list (list A)) :
  f <$> concat ls = concat ((fun l : list A => f <$> l) <$> ls).
Proof.
  induction ls as [|l ls IH]; [done|]. cbn [concat fmap list_fmap].
  by rewrite fmap_app, IH.
Qed.

Lemma at_app_l {A} (l post : list A) (i : Z) :
  (i < size l)%Z → at_ (l ++ post) i = at_ l i.
Proof.
  intros Hi. unfold at_, size in *. rewrite length_app.
  destruct (0 <=? i)%Z eqn:H0; [|done]. apply Z.leb_le in H0. cbn [andb].
  replace (i <? Z.of_nat (length l + length post))%Z with true
    by (symmetry; apply Z.ltb_lt; lia).
  replace (i <? Z.of_nat (length l))%Z with true by (symmetry; apply Z.ltb_lt; lia).
  apply lookup_app_l. lia.
Qed.

Lemma tupleAt_app {A} (stride b i : Z) (pre mid post : list A) :
  size pre = (stride * b)%Z → (0 ≤ i)%Z → (stride * i + stride ≤ size mid)%Z →
  tupleAt stride (pre ++ mid ++ post) (b + i) = tupleAt stride mid i.
Proof.
  intros Hpre Hi Hmid. unfold tupleAt. apply list_fmap_ext. intros k c Hc.
  apply lookup_seqZ in Hc as [-> Hk].
  replace (stride * (b + i) + (0 + Z.of_nat k))%Z
    with (size pre + (stride * i + (0 + Z.of_nat k)))%Z by lia.
  assert (0 ≤ stride * i)%Z by nia.
  rewrite at_app_r by lia. apply at_app_l. lia.
Qed.

Section SerializedFaces.
Context {D : Type}.
Implicit Types (mesh : Mesh D) (st : CopyState D) (g : SerializedGeometry D)
  (meshes : list (Mesh D)).

Lemma copyMeshUVs_geometryPart mesh st :
  geometryPart (copyMeshUVs mesh st) = geometryPart st.
Proof.
  unfold copyMeshUVs. generalize (seq 0 (length (sg_uvs (sg st)))). intros l.
  revert st. induction l as [|i l IH]; intros st; simpl; [done|].
  rewrite IH. unfold copyMeshUVSet, geometryPart.
  by destruct (appendUVChannel mesh (Z.of_nat i) _) as [[[? ?] ?] ?].
Qed.

Lemma seqZ_read {B} (h : Z → B) (p : list Z) :
  (fun hi => h (deref p hi)) <$> seqZ 0 (size p) = h <$> p.
Proof.
  apply list_eq. intros i. rewrite !list_lookup_fmap. unfold size.
  destruct (p !! i) as [x|] eqn:Hx.
  - pose proof (lookup_lt_Some _ _ _ Hx). rewrite lookup_seqZ_lt by lia. simpl.
    f_equal. rewrite Z.add_0_l. by rewrite (deref_lookup p i x).
  - apply lookup_ge_None in Hx. by rewrite lookup_seqZ_ge by lia.
Qed.

Lemma copyFace_loop_counts (vb nb fb : Z) (faces : list Face) g :
  let g' := fold_left (copyFace vb nb fb) faces g in
  sg_coords g' = sg_coords g ∧ sg_normals g' = sg_normals g ∧
  sg_counts g' = sg_counts g ++ ((fun f => wrap32 (size (faceVertexIndices f))) <$> faces) ∧
  sg_holeCounts g'
  = sg_holeCounts g ++ ((fun f => wrap32 (size (faceHolesIndices f))) <$> faces).
Proof.
  cbv zeta. revert g. induction faces as [|f faces IH]; intros g.
  - simpl. by rewrite !app_nil_r.
  - cbn [fold_left]. destruct (IH (copyFace vb nb fb g f)) as (-> & -> & -> & ->).
    unfold copyFace at 1 2 3 4. cbn [sg_coords sg_normals sg_counts sg_holeCounts].
    rewrite <- !app_assoc. done.
Qed.

Lemma copyFace_loop_corners (vb nb fb : Z) (faces : list Face) g :
  Forall (fun f => (size (faceVertexIndices f) < 2 ^ 32)%Z) faces →
  sg_vertexIndices (fold_left (copyFace vb nb fb) faces g)
  = sg_vertexIndices g ++ concat (faceCorners vb <$> faces).
Proof.
  intros Hfit. revert g. induction Hfit as [|f faces Hv _ IH]; intros g.
  - simpl. by rewrite !app_nil_r.
  - cbn [fold_left]. rewrite IH. unfold copyFace at 1. cbn [sg_vertexIndices].
    rewrite <- !app_assoc. do 2 f_equal. cbn [fmap list_fmap concat]. f_equal.
    unfold faceCorners.
    rewrite (wrap32_small (size (faceVertexIndices f))) by (unfold size in *; lia).
    rewrite <- list_fmap_compose.
    rewrite <- (reverse_read (fun i => wrap32 (vb + i)) (faceVertexIndices f)).
    apply list_fmap_ext. intros i vi Hvi. simpl.
    apply lookup_seqZ in Hvi as [-> Hi].
    rewrite (wrap32_small (_ - _ - 1)) by (unfold size in *; lia).
    done.
Qed.

Lemma copyFace_loop_holes (vb nb fb : Z) (faces : list Face) g :
  Forall (fun f => (size (faceHolesIndices f) < 2 ^ 32)%Z) faces →
  sg_holeIndices (fold_left (copyFace vb nb fb) faces g)
  = sg_holeIndices g ++ concat (faceHoles fb <$> faces).
Proof.
  intros Hfit. revert g. induction Hfit as [|f faces Hv _ IH]; intros g.
  - simpl. by rewrite !app_nil_r.
  - cbn [fold_left]. rewrite IH. unfold copyFace at 1. cbn [sg_holeIndices].
    rewrite <- !app_assoc. do 2 f_equal. cbn [fmap list_fmap concat]. f_equal.
    unfold faceHoles.
    rewrite (wrap32_small (size (faceHolesIndices f))) by (unfold size in *; lia).
    apply (seqZ_read (fun h => wrap32 (h + fb))).
Qed.

(** One mesh: the state after [copyMesh] in terms of the state before. *)
Lemma copyMesh_geometryPart mesh st :
  ∃ g2, sg (copyMesh st mesh)
        = fold_left (copyFace (vertexIndexBase st) (normalIndexBase st) (faceIndexBase st))
                    (getFaces mesh) g2 ∧
    sg_coords g2 = sg_coords (sg st) ++ getVertexCoords mesh ∧
    sg_normals g2 = sg_normals (sg st) ++ getVertexNormalsCoords mesh ∧
    sg_counts g2 = sg_counts (sg st) ∧ sg_holeCounts g2 = sg_holeCounts (sg st) ∧
    sg_holeIndices g2 = sg_holeIndices (sg st) ∧
    sg_vertexIndices g2 = sg_vertexIndices (sg st) ∧
    vertexIndexBase (copyMesh st mesh)
    = wrap32 (vertexIndexBase st + wrap32 (size (getVertexCoords mesh)) / 3) ∧
    faceIndexBase (copyMesh st mesh) = wrap32 (faceIndexBase st + getFaceCount mesh).
Proof.
  unfold copyMesh.
  match goal with |- context [copyMeshUVs mesh ?s] => set (st1 := s) end.
  pose proof (copyMeshUVs_geometryPart mesh st1) as Hpart.
  unfold geometryPart in Hpart.
  generalize dependent (copyMeshUVs mesh st1). intros st2 Hpart.
  subst st1. cbn [sg vertexIndexBase normalIndexBase faceIndexBase sg_coords sg_normals
    sg_counts sg_holeCounts sg_holeIndices sg_vertexIndices sg_normalIndices] in Hpart.
  injection Hpart as Hc Hn Hcnt Hhc Hhi Hvi Hni Hvb Hnb Hfb.
  exists (sg st2). cbn [sg vertexIndexBase faceIndexBase].
  rewrite Hvb, Hnb, Hfb. done.
Qed.

Lemma copyMesh_loop_counts meshes st :
  let st' := fold_left copyMesh meshes st in
  sg_coords (sg st') = sg_coords (sg st) ++ concat (getVertexCoords <$> meshes) ∧
  sg_normals (sg st') = sg_normals (sg st) ++ concat (getVertexNormalsCoords <$> meshes) ∧
  sg_counts (sg st') = sg_counts (sg st) ++ concat (getFaceVertexCounts <$> meshes) ∧
  sg_holeCounts (sg st') = sg_holeCounts (sg st) ++ concat (getFaceHolesCounts <$> meshes).
Proof.
  cbv zeta. revert st. induction meshes as [|mesh meshes IH]; intros st.
  - simpl. by rewrite !app_nil_r.
  - cbn [fold_left]. destruct (IH (copyMesh st mesh)) as (-> & -> & -> & ->). clear IH.
    destruct (copyMesh_geometryPart mesh st)
      as (g2 & -> & Hc & Hn & Hcnt & Hhc & _ & _ & _ & _).
    destruct (copyFace_loop_counts (vertexIndexBase st) (normalIndexBase st)
                (faceIndexBase st) (getFaces mesh) g2) as (-> & -> & -> & ->).
    rewrite Hc, Hn, Hcnt, Hhc. cbn [fmap list_fmap concat].
    rewrite <- !app_assoc. done.
Qed.

Lemma copyMesh_loop_corners meshes st :
  Forall (fun mesh => Forall (fun f => (size (faceVertexIndices f) < 2 ^ 32)%Z)
                             (getFaces mesh)) meshes →
  sg_vertexIndices (sg (fold_left copyMesh meshes st))
  = sg_vertexIndices (sg st) ++ cornersFrom (vertexIndexBase st) meshes.
Proof.
  intros Hfit. revert st. induction Hfit as [|mesh meshes Hm _ IH]; intros st.
  - simpl. by rewrite !app_nil_r.
  - cbn [fold_left]. rewrite IH. clear IH.
    destruct (copyMesh_geometryPart mesh st)
      as (g2 & -> & _ & _ & _ & _ & _ & Hvi & -> & _).
    rewrite copyFace_loop_corners by done. rewrite Hvi. cbn [cornersFrom].
    by rewrite <- !app_assoc.
Qed.

Lemma copyMesh_loop_holes meshes st :
  Forall (fun mesh => Forall (fun f => (size (faceHolesIndices f) < 2 ^ 32)%Z)
                             (getFaces mesh)) meshes →
  sg_holeIndices (sg (fold_left copyMesh meshes st))
  = sg_holeIndices (sg st) ++ concat (holesFrom (faceIndexBase st) meshes).
Proof.
  intros Hfit. revert st. induction Hfit as [|mesh meshes Hm _ IH]; intros st.
  - simpl. by rewrite !app_nil_r.
  - cbn [fold_left]. rewrite IH. clear IH.
    destruct (copyMesh_geometryPart mesh st)
      as (g2 & -> & _ & _ & _ & _ & Hhi & _ & _ & ->).
    rewrite copyFace_loop_holes by done. rewrite Hhi. cbn [holesFrom].
    by rewrite concat_app, <- !app_assoc.
Qed.

(** The result of [serializeGeometry] is that of the second pass. *)
Lemma serializeGeometry_Some (major : Z) (geometries : list (Geometry D))
    (materials : list (list (Material D))) g :
  serializeGeometry major geometries materials = Some g →
  ∃ st0 : CopyState D,
    g = sg (fold_left copyMesh (concat geometries) st0) ∧
    geometryPart st0 = ([], [], [], [], [], [], [], 0%Z, 0%Z, 0%Z).
Proof.
  unfold serializeGeometry.
  destruct (scanGeometries _ _ _ _) as [t|]; simpl; [|done].
  intros [= <-]. rewrite copy_geometries_flat. eexists. split; [reflexivity|done].
Qed.

(** X13.  [serializeGeometry] puts the meshes one after the other, in the
    order of the geometries: the coordinates and the normals as they
    are, and for every face its vertex count and its hole count, so that
    the two count arrays go face by face. *)
Theorem serializeGeometry_appends_the_meshes (PRT_VERSION_MAJOR : Z)
    (geometries : list (Geometry D)) (materials : list (list (Material D))) g :
  serializeGeometry PRT_VERSION_MAJOR geometries materials = Some g →
  sg_coords g = concat (getVertexCoords <$> concat geometries) ∧
  sg_normals g = concat (getVertexNormalsCoords <$> concat geometries) ∧
  sg_counts g = concat (getFaceVertexCounts <$> concat geometries) ∧
  sg_holeCounts g = concat (getFaceHolesCounts <$> concat geometries) ∧
  size (sg_counts g) = size (concat (getFaces <$> concat geometries)) ∧
  size (sg_holeCounts g) = size (sg_counts g).
Proof.
  intros (st0 & -> & Hst0)%serializeGeometry_Some.
  unfold geometryPart in Hst0. injection Hst0 as Hc Hn Hcnt Hhc _ _ _ _ _ _.
  destruct (copyMesh_loop_counts (concat geometries) st0) as (-> & -> & -> & ->).
  rewrite Hc, Hn, Hcnt, Hhc. cbn [app].
  assert (Hlen : ∀ meshes : list (Mesh D),
            length (concat (getFaceVertexCounts <$> meshes))
            = length (concat (getFaces <$> meshes)) ∧
            length (concat (getFaceHolesCounts <$> meshes))
            = length (concat (getFaces <$> meshes))).
  { induction meshes as [|m ms [IH1 IH2]]; [done|]. cbn [fmap list_fmap concat].
    rewrite !length_app, IH1, IH2.
    unfold getFaceVertexCounts, getFaceHolesCounts. by rewrite !length_fmap. }
  destruct (Hlen (concat geometries)) as [H1 H2].
  unfold size. rewrite H1, H2. done.
Qed.

Lemma corners_positions meshes : ∀ (pre : list D) (vb : Z),
  size pre = (3 * vb)%Z → (0 ≤ vb)%Z →
  Forall meshVerticesFit meshes →
  (size pre + size (concat (getVertexCoords <$> meshes)) < 2 ^ 32)%Z →
  tupleAt 3 (pre ++ concat (getVertexCoords <$> meshes)) <$> cornersFrom vb meshes
  = concat (meshCorners <$> meshes).
Proof.
  induction meshes as [|mesh meshes IH]; intros pre vb Hpre Hvb Hfit Hsz; [done|].
  apply Forall_cons in Hfit as [[Hmod Hfaces] Hfit].
  cbn [fmap list_fmap concat cornersFrom] in *.
  unfold size in Hsz. rewrite length_app in Hsz.
  assert (Hdiv : (size (getVertexCoords mesh) = 3 * (size (getVertexCoords mesh) / 3))%Z).
  { pose proof (Z.div_mod (size (getVertexCoords mesh)) 3 ltac:(lia)). lia. }
  assert (Hbase : wrap32 (vb + wrap32 (size (getVertexCoords mesh)) / 3)
                  = (vb + size (getVertexCoords mesh) / 3)%Z).
  { unfold size in *. rewrite (wrap32_small (Z.of_nat _)) by lia.
    apply wrap32_small. lia. }
  rewrite fmap_app, Hbase. f_equal.
  - unfold meshCorners. rewrite fmap_concat. f_equal.
    rewrite <- list_fmap_compose. apply Forall_fmap_ext_1.
    eapply Forall_impl; [exact Hfaces|]. intros f [_ Hidx]. simpl.
    unfold faceCorners. rewrite <- list_fmap_compose.
    apply Forall_fmap_ext_1, Forall_rev.
    eapply Forall_impl; [exact Hidx|]. intros i [Hi0 Hi3]. simpl.
    rewrite wrap32_small by (unfold size in *; lia).
    apply tupleAt_app; [done|done|lia].
  - replace (pre ++ getVertexCoords mesh ++ concat (getVertexCoords <$> meshes))
      with ((pre ++ getVertexCoords mesh) ++ concat (getVertexCoords <$> meshes))
      by (by rewrite <- app_assoc).
    apply IH; [|unfold size in *; lia|done|].
    + unfold size in *. rewrite length_app. lia.
    + unfold size in *. rewrite length_app. lia.
Qed.

(** X14.  The vertex indices [serializeGeometry] emits refer, in the
    coordinates it emits, to the positions the corners of the faces have in
    their meshes: face after face, each face in reversed winding.  The
    coordinates of every mesh are whole points that hold the corners of its
    faces, and there are less than 2^32 coordinates in all. *)
Theorem serializeGeometry_keeps_the_corners (PRT_VERSION_MAJOR : Z)
    (geometries : list (Geometry D)) (materials : list (list (Material D))) g :
  serializeGeometry PRT_VERSION_MAJOR geometries materials = Some g →
  Forall meshVerticesFit (concat geometries) →
  (size (concat (getVertexCoords <$> concat geometries)) < 2 ^ 32)%Z →
  tupleAt 3 (sg_coords g) <$> sg_vertexIndices g
  = concat (meshCorners <$> concat geometries) ∧
  Forall (fun corner => Forall is_Some corner) (concat (meshCorners <$> concat geometries)).
Proof.
  intros (st0 & -> & Hst0)%serializeGeometry_Some Hfit Hsz.
  unfold geometryPart in Hst0. injection Hst0 as Hc _ _ _ _ Hvi _ Hvb _ _.
  destruct (copyMesh_loop_counts (concat geometries) st0) as (-> & _).
  rewrite copyMesh_loop_corners.
  2:{ eapply Forall_impl; [exact Hfit|]. intros mesh [_ Hfaces].
      eapply Forall_impl; [exact Hfaces|]. by intros f [? _]. }
  rewrite Hc, Hvi, Hvb. cbn [app]. split.
  - apply (corners_positions (concat geometries) [] 0); [done|done|done|].
    unfold size in *. simpl. lia.
  - apply Forall_concat, Forall_fmap.
    eapply Forall_impl; [exact Hfit|]. intros mesh [_ Hfaces]. simpl.
    unfold meshCorners. apply Forall_concat, Forall_fmap.
    eapply Forall_impl; [exact Hfaces|]. intros f [_ Hidx]. simpl.
    apply Forall_fmap, Forall_rev.
    eapply Forall_impl; [exact Hidx|]. intros i [Hi0 Hi3]. simpl.
    unfold tupleAt. apply Forall_fmap, Forall_forall.
    intros c Hc'. apply list_elem_of_lookup in Hc' as [k Hk].
    apply lookup_seqZ in Hk as [-> Hk]. simpl. apply at_is_Some. lia.
Qed.

(** *** Holes *)

Lemma holesFrom_global meshes : ∀ (fb : Z),
  (0 ≤ fb)%Z → Forall meshHolesFit meshes →
  (fb + size (concat (getFaces <$> meshes)) < 2 ^ 32)%Z →
  holesFrom fb meshes = globalHoles fb meshes ∧
  (fun hs : list Z => size hs) <$> globalHoles fb meshes
  = concat (getFaceHolesCounts <$> meshes) ∧
  Forall (fun hs => Forall (fun h => (0 ≤ h < 2 ^ 32)%Z) hs) (globalHoles fb meshes) ∧
  length (globalHoles fb meshes) = length (concat (getFaces <$> meshes)).
Proof.
  induction meshes as [|mesh meshes IH]; intros fb Hfb Hfit Hsz; [done|].
  apply Forall_cons in Hfit as [Hm Hfit].
  cbn [fmap list_fmap concat holesFrom globalHoles] in *.
  unfold size in Hsz. rewrite length_app in Hsz.
  assert (Hbase : wrap32 (fb + getFaceCount mesh) = (fb + size (getFaces mesh))%Z).
  { unfold getFaceCount, size. rewrite (wrap32_small (Z.of_nat _)) by lia.
    apply wrap32_small. lia. }
  rewrite Hbase.
  destruct (IH (fb + size (getFaces mesh))%Z) as (-> & Hcnt & Hrange & Hlen);
    [unfold size; lia|done|unfold size in *; lia|].
  rewrite fmap_app, Hcnt, Forall_app, length_app, Hlen, length_fmap.
  split_and!; [| | |done|by rewrite length_app].
  - f_equal. apply Forall_fmap_ext_1.
    eapply Forall_impl; [exact Hm|]. intros f [_ Hh]. simpl.
    unfold faceHoles. apply Forall_fmap_ext_1.
    eapply Forall_impl; [exact Hh|]. intros h Hh'. simpl.
    rewrite wrap32_small by (unfold size in *; lia). lia.
  - f_equal. unfold getFaceHolesCounts. rewrite <- list_fmap_compose.
    apply Forall_fmap_ext_1.
    eapply Forall_impl; [exact Hm|]. intros f [Hs _]. simpl.
    unfold size in *. rewrite length_fmap. symmetry. apply wrap32_small. lia.
  - apply Forall_fmap.
    eapply Forall_impl; [exact Hm|]. intros f [_ Hh]. simpl.
    apply Forall_fmap. eapply Forall_impl; [exact Hh|]. intros h Hh'. simpl.
    unfold size in *. lia.
Qed.

End SerializedFaces.

Lemma holeGroupsOf_cons (p firstFace : Z) (hs : list Z) (holes : list (list Z)) :
  holeGroupsOf p firstFace (hs :: holes)
  = match hs with
    | [] => []
    | _ :: _ => [(p + firstFace)%Z :: ((fun h => (p + h)%Z) <$> hs)]
    end ++ holeGroupsOf p (firstFace + 1) holes.
Proof.
  unfold holeGroupsOf. cbn [imap concat]. f_equal.
  - destruct hs; [done|]. by rewrite Z.add_0_r.
  - f_equal. apply imap_ext. intros i x _. simpl.
    destruct x; [done|]. do 3 f_equal. lia.
Qed.

Lemma mapM_read (g : Z → Z) (pre h post : list Z) :
  mapM (fun hip : Z => x ← at_ (pre ++ h ++ post) (size pre + hip); Some (g x))
       (seqZ 0 (size h))
  = Some (g <$> h).
Proof.
  apply mapM_Some. apply Forall2_same_length_lookup_2.
  - rewrite length_seqZ, length_fmap. unfold size. lia.
  - intros i hip y Hhip Hy. apply lookup_seqZ in Hhip as [-> Hi].
    rewrite list_lookup_fmap in Hy.
    destruct (h !! i) as [x|] eqn:Hx; [|done]. injection Hy as <-.
    rewrite at_app_r by lia. rewrite at_app_l by (unfold size in *; lia).
    rewrite (proj2 (at_Some h (0 + Z.of_nat i) x)); [done|].
    split; [lia|]. by rewrite Z.add_0_l, Nat2Z.id.
Qed.

Lemma holeGroupsLoop_decode (p : Z) (holes : list (list Z)) :
  ∀ (consumed rest : list Z) (hi : Z) (groups : list (list Z)),
  (0 ≤ p < 2 ^ 62)%Z → (0 ≤ hi)%Z → (hi + size holes ≤ 2 ^ 32)%Z →
  Forall (fun hs => Forall (fun h => (0 ≤ h < 2 ^ 32)%Z) hs) holes →
  holeGroupsLoop p (consumed ++ concat holes ++ rest) hi
    ((fun hs : list Z => size hs) <$> holes) (size consumed) groups
  = Some (groups ++ holeGroupsOf p hi holes).
Proof.
  induction holes as [|hs holes IH]; intros consumed rest hi groups Hp Hhi Hsz Hrange.
  - simpl. by rewrite app_nil_r.
  - apply Forall_cons in Hrange as [Hhs Hrange].
    unfold size in Hsz. cbn [length] in Hsz.
    rewrite holeGroupsOf_cons. cbn [fmap list_fmap holeGroupsLoop concat].
    destruct hs as [|h hs].
    + change (size [] >? 0)%Z with false. cbn [app].
      apply IH; [done|lia|unfold size; lia|done].
    + replace (size (h :: hs) >? 0)%Z with true
        by (symmetry; rewrite Z.gtb_ltb; apply Z.ltb_lt; unfold size; simpl; lia).
      rewrite <- (app_assoc (h :: hs)).
      rewrite (mapM_read (fun x => toInt64 (p + x)) consumed (h :: hs)). cbn [mbind option_bind].
      rewrite toInt64_small by lia.
      replace ((fun x => toInt64 (p + x)) <$> h :: hs) with ((fun x => (p + x)%Z) <$> h :: hs).
      2:{ apply Forall_fmap_ext_1. eapply Forall_impl; [exact Hhs|].
          intros x Hx. cbv beta in *. rewrite toInt64_small by lia. done. }
      replace (size consumed + size (h :: hs))%Z with (size (consumed ++ h :: hs))
        by (unfold size; rewrite length_app; lia).
      replace (consumed ++ (h :: hs) ++ concat holes ++ rest)
        with ((consumed ++ h :: hs) ++ concat holes ++ rest)
        by (by rewrite <- app_assoc).
      rewrite IH; [|done|lia|unfold size; lia|done].
      by rewrite <- app_assoc.
Qed.

Section Holes.
Context {D : Type}.

(** X15.  The hole groups [createPrimitives] builds from the hole counts
    and hole indices [serializeGeometry] emits are, for every face that has
    holes (and for no other), the primitive of the face followed by the
    primitives of its holes; the primitive of a face is the start offset
    plus the number of the face among all faces of all meshes.  The holes
    of a face are faces of its mesh, there are less than 2^32 faces, and
    the start offset is below 2^62. *)
Theorem hole_groups_undo_the_serialization (PRT_VERSION_MAJOR : Z)
    (geometries : list (Geometry D)) (materials : list (list (Material D)))
    (g : SerializedGeometry D) (primStartOffset : Z) (holeGroups : list (list Z)) :
  serializeGeometry PRT_VERSION_MAJOR geometries materials = Some g →
  Forall meshHolesFit (concat geometries) →
  (size (concat (getFaces <$> concat geometries)) < 2 ^ 32)%Z →
  (0 ≤ primStartOffset < 2 ^ 62)%Z →
  createHoleGroups primStartOffset (sg_holeCounts g) (sg_holeIndices g) holeGroups
  = Some (holeGroups ++
          holeGroupsOf primStartOffset 0 (globalHoles 0 (concat geometries))).
Proof.
  intros (st0 & -> & Hst0)%serializeGeometry_Some Hfit Hsz Hp.
  unfold geometryPart in Hst0. injection Hst0 as _ _ _ Hhc Hhi _ _ _ _ Hfb.
  destruct (copyMesh_loop_counts (concat geometries) st0) as (_ & _ & _ & ->).
  rewrite copyMesh_loop_holes.
  2:{ eapply Forall_impl; [exact Hfit|]. intros mesh Hfaces.
      eapply Forall_impl; [exact Hfaces|]. by intros f [? _]. }
  rewrite Hhc, Hhi, Hfb. cbn [app].
  destruct (holesFrom_global (concat geometries) 0) as (-> & Hcnt & Hrange & Hlen);
    [done|done|lia|].
  rewrite <- Hcnt. unfold createHoleGroups.
  destruct (size _ >? 0)%Z eqn:Hpos.
  - pose proof (holeGroupsLoop_decode primStartOffset (globalHoles 0 (concat geometries))
                  [] [] 0 holeGroups Hp) as Hdec.
    rewrite app_nil_r in Hdec. apply Hdec; [done| |done].
    unfold size in *. rewrite Hlen. lia.
  - destruct (globalHoles 0 (concat geometries)) as [|? ?]; [|done].
    unfold holeGroupsOf. simpl. by rewrite app_nil_r.
Qed.

Lemma scanMeshes_Some (major : Z) (meshes : list (Mesh D)) (mats : list (Material D))
    (t t' : ScanTotals) :
  scanMeshes major t meshes mats = Some t' → length meshes ≤ length mats.
Proof.
  revert mats t. induction meshes as [|mesh meshes IH]; intros mats t; simpl; [lia|].
  destruct mats as [|mat mats]; [done|]. intros Hs%IH. simpl. lia.
Qed.

Lemma scanGeometries_Some (major : Z) (geometries : list (Geometry D))
    (materials : list (list (Material D))) (t t' : ScanTotals) :
  scanGeometries major t geometries materials = Some t' →
  materialsCover geometries materials = true.
Proof.
  revert materials t. induction geometries as [|geo geometries IH]; intros materials t;
    simpl; [done|].
  destruct materials as [|mats materials]; [done|].
  destruct (scanMeshes major t geo mats) as [t1|] eqn:Ht1; simpl; [|done].
  intros Hs%IH. apply scanMeshes_Some in Ht1.
  apply andb_true_intro. split; [by apply bool_decide_eq_true|done].
Qed.

(** X16.  [serializeGeometry] stays within the material vectors, and so
    returns, exactly when every geometry has a material vector that holds a
    material for each of its meshes; geometries without meshes need no
    materials, and no geometries give the empty arrays. *)
Theorem serializeGeometry_returns_iff_materials_cover (PRT_VERSION_MAJOR : Z)
    (geometries : list (Geometry D)) (materials : list (list (Material D))) :
  (is_Some (serializeGeometry PRT_VERSION_MAJOR geometries materials) ↔
   materialsCover geometries materials = true) ∧
  serializeGeometry PRT_VERSION_MAJOR [] materials
  = Some (newSerializedGeometry 0 0 0 0 0 0).
Proof.
  split; [|done]. split.
  - intros [g Hg]. unfold serializeGeometry in Hg.
    destruct (scanGeometries _ _ _ _) as [t|] eqn:Ht; [|done].
    by apply scanGeometries_Some in Ht.
  - intros Hcover. unfold serializeGeometry.
    destruct (scanGeometries_max PRT_VERSION_MAJOR geometries materials
                {| numCoords := 0; numNormalCoords := 0; numCounts := 0; numHoles := 0;
                   numIndices := 0; maxNumUVSets := 0 |} Hcover) as (t & -> & _).
    simpl. eauto.
Qed.

End Holes.


(** *** UV channels *)

Lemma sumZ_app (a b : list Z) : sumZ (a ++ b) = (sumZ a + sumZ b)%Z.
Proof. induction a as [|x a IH]; simpl; [done|]. unfold sumZ in *. simpl. lia. Qed.

Lemma concat_imap_seqZ_size {B} (fc : list Z) : ∀ (F : nat → Z → Z → B),
  Forall (fun c => (0 ≤ c)%Z) fc →
  size (concat (imap (fun (fi : nat) (cnt : Z) => F fi cnt <$> seqZ 0 cnt) fc)) = sumZ fc.
Proof.
  induction fc as [|c fc IH]; intros F Hpos; [done|].
  apply Forall_cons in Hpos as [Hc Hpos]. cbn [imap concat].
  pose proof (IH (fun fi => F (S fi)) Hpos) as IH'.
  unfold size in *. rewrite length_app, length_fmap, length_seqZ, Nat2Z.inj_add.
  change (imap ((fun (fi : nat) (cnt : Z) => F fi cnt <$> seqZ 0 cnt) ∘ S) fc)
    with (imap (fun (fi : nat) (cnt : Z) => F (S fi) cnt <$> seqZ 0 cnt) fc).
  rewrite IH'. unfold sumZ. simpl. lia.
Qed.

Section UVChannels.
Context {D : Type}.
Implicit Types (mesh : Mesh D) (st : CopyState D).

Lemma getFaceUVCounts_length mesh (uvSet : Z) :
  meshUVsFit mesh → (0 ≤ uvSet < size (getUVSets mesh))%Z →
  length (getFaceUVCounts mesh uvSet) = length (getFaces mesh).
Proof.
  intros [_ Hsets] Hk. unfold getFaceUVCounts, getFaceUVIndicesOf.
  destruct (proj2 (at_is_Some (getUVSets mesh) uvSet) Hk) as [s Hs]. rewrite Hs.
  rewrite length_fmap. apply at_Some in Hs as [_ Hs].
  apply (proj1 (Forall_forall _ _) Hsets). by eapply list_elem_of_lookup_2.
Qed.

Lemma getFaceUVCounts_nonneg mesh (uvSet : Z) :
  Forall (fun c => (0 ≤ c)%Z) (getFaceUVCounts mesh uvSet).
Proof.
  unfold getFaceUVCounts. apply Forall_fmap, Forall_forall. intros f _. simpl.
  apply wrap32_range.
Qed.

Lemma appendUVChannel_inSync mesh (uvSet : Z) c (faces : nat) :
  meshUVsFit mesh → (0 ≤ uvSet)%Z → inSync c faces →
  inSync (appendUVChannel mesh uvSet c) (faces + length (getFaces mesh)).
Proof.
  intros Hfit Hk [Hcnt Hidx]. pose proof Hfit as [Hm Hsets].
  pose proof (getUVSetsCount_fits mesh Hm) as Hn.
  destruct Hm as (Hfaces & Hnsets & _).
  destruct c as [[[tgt cnts] idx] base]. simpl in Hcnt, Hidx.
  unfold appendUVChannel. rewrite Hn.
  match goal with
  | |- inSync (_, _ ++ ?fc, _ ++ concat (imap ?F ?fc'), _) _ =>
      assert (Hfc : length fc = length (getFaces mesh) ∧ Forall (fun c => (0 ≤ c)%Z) fc)
  end.
  { destruct (_ && _) eqn:Hown.
    - apply andb_prop in Hown as [Hlt%Z.ltb_lt _].
      split; [by apply getFaceUVCounts_length|apply getFaceUVCounts_nonneg].
    - destruct (size (getUVSets mesh) >? 0)%Z eqn:Hpos.
      + rewrite Z.gtb_ltb in Hpos. apply Z.ltb_lt in Hpos.
        split; [apply getFaceUVCounts_length; [done|lia]|apply getFaceUVCounts_nonneg].
      + split.
        * rewrite length_replicate. unfold getFaceCount, size in *.
          rewrite wrap32_small by lia. lia.
        * apply Forall_replicate. lia. }
  destruct Hfc as [Hlen Hpos].
  unfold inSync. simpl. split.
  - rewrite length_app. lia.
  - unfold size in *. rewrite length_app, sumZ_app, Nat2Z.inj_add, Hidx.
    f_equal. apply (concat_imap_seqZ_size _ _ Hpos).
Qed.

Lemma appendUVChannel_loop_inSync (meshes : list (Mesh D)) (k : nat) c (faces : nat) :
  Forall meshUVsFit meshes → inSync c faces →
  inSync (fold_left (fun c mesh => appendUVChannel mesh (Z.of_nat k) c) meshes c)
         (faces + length (concat (getFaces <$> meshes))).
Proof.
  intros Hfit. revert c faces. induction Hfit as [|mesh meshes Hm _ IH]; intros c faces Hc.
  - simpl. by rewrite Nat.add_0_r.
  - cbn [fold_left fmap list_fmap concat]. rewrite length_app, Nat.add_assoc.
    apply IH. apply appendUVChannel_inSync; [done|lia|done].
Qed.

(** X17.  Every UV channel [serializeGeometry] emits goes face by face
    with the geometry: it has one count for each face, zero where the
    mesh of the face has no UV set at all, and as many indices as its
    counts say.  The UV sets of the meshes go face by face themselves. *)
Theorem serializeGeometry_keeps_the_channels_in_sync (PRT_VERSION_MAJOR : Z)
    (geometries : list (Geometry D)) (materials : list (list (Material D)))
    (g : SerializedGeometry D) (k : nat) :
  serializeGeometry PRT_VERSION_MAJOR geometries materials = Some g →
  Forall meshUVsFit (concat geometries) →
  (Z.of_nat k < size (sg_uvs g))%Z →
  size (sg_uvCounts g !!! k) = size (sg_counts g) ∧
  size (sg_uvIndices g !!! k) = sumZ (sg_uvCounts g !!! k) ∧
  (∀ mesh, getUVSets mesh = [] →
     (appendUVChannel mesh (Z.of_nat k) ([], [], [], 0%Z)).1.1.2
     = replicate (Z.to_nat (getFaceCount mesh)) 0%Z).
Proof.
  intros Hg Hfit Hk. split_and!.
  3:{ intros mesh Hnone. unfold appendUVChannel, getUVSetsCount. rewrite Hnone.
      change (wrap32 (size [])) with 0%Z.
      replace (Z.of_nat k <? 0)%Z with false by (symmetry; apply Z.ltb_ge; lia). done. }
  all: pose proof Hg as Hg'; unfold serializeGeometry in Hg';
    destruct (scanGeometries _ _ _ _) as [t|]; simpl in Hg'; [|done];
    injection Hg' as <-; rewrite copy_geometries_flat in *;
    match goal with |- context [fold_left copyMesh _ ?s] => set (st0 := s) in * end;
    set (n := Z.to_nat (maxNumUVSets t));
    assert (Hn0 : channelCount st0 n)
      by (unfold channelCount; simpl; by rewrite !length_replicate);
    pose proof (copyMesh_loop_count (concat geometries) st0 n Hn0) as (Hu & _);
    assert (Hkn : k < n) by (unfold size in Hk; rewrite Hu in Hk; lia);
    destruct (copyMesh_loop_channel (concat geometries) st0 k n Hn0 Hkn) as [_ Hch];
    assert (Hc0 : channel st0 k = ([], [], [], 0%Z))
      by (unfold channel; subst st0; simpl;
          rewrite !lookup_total_replicate_2 by lia; done);
    rewrite Hc0 in Hch;
    pose proof (appendUVChannel_loop_inSync (concat geometries) k ([], [], [], 0%Z) 0
                  Hfit (conj eq_refl eq_refl)) as [Hlen Hsum];
    rewrite <- Hch in Hlen, Hsum; unfold channel in Hlen, Hsum; simpl in Hlen, Hsum.
  - destruct (copyMesh_loop_counts (concat geometries) st0) as (_ & _ & Hcounts & _).
    unfold size. rewrite Hlen, Hcounts. subst st0. cbn [sg sg_counts newSerializedGeometry app].
    f_equal. clear. induction (concat geometries) as [|m ms IH]; [done|].
    cbn [fmap list_fmap concat]. rewrite !length_app, IH.
    unfold getFaceVertexCounts. by rewrite length_fmap.
  - exact Hsum.
Qed.

End UVChannels.

(** ** HoudiniEncoder: reports *)

Section Reports.
Context {D : Type} `{!KeyTaken D}.

Lemma recordAll_app (kvs1 kvs2 : list (string * AttrValue D)) (amb : AttributeMapBuilder D) :
  recordAll (kvs1 ++ kvs2) amb = recordAll kvs2 (recordAll kvs1 amb).
Proof. unfold recordAll. apply fold_left_app. Qed.

Lemma fold_set_recordAll {V} (F : V → AttrValue D) (l : list (string * V)) :
  ∀ amb : AttributeMapBuilder D,
  fold_left (fun amb p => setValue p.1 (F p.2) amb) l amb
  = recordAll ((fun p => (p.1, F p.2)) <$> l) amb.
Proof. induction l as [|p l IH]; intros amb; [done|]. cbn. apply IH. Qed.

(** X18.  [convertReportsToAttributeMap] leaves the builder alone for a
    null pointer; otherwise it records every report under its own name:
    the booleans, then the floats, then the strings.  So a name that is
    not reported keeps what the builder held, and a name that is reported
    with one type only holds its last report afterwards (the builder
    holding nothing of another type under it before, as the empty builder
    the encoder converts into). *)
Theorem convertReports_records_every_report
    (amb : AttributeMapBuilder D) (r : Reports D) (key : string) :
  convertReportsToAttributeMap amb None = amb ∧
  convertReportsToAttributeMap amb (Some r) = recordAll (reportPairs r) amb ∧
  (Forall (fun kv => kv.1 ≠ key) (reportPairs r) →
   convertReportsToAttributeMap amb (Some r) !! key = amb !! key) ∧
  (∀ t : PrimitiveType, ofOneType t key (reportPairs r) amb →
   convertReportsToAttributeMap amb (Some r) !! key
   = match lastOf (reportPairs r) key with
     | Some v => Some v
     | None => amb !! key
     end).
Proof.
  assert (Hall : convertReportsToAttributeMap amb (Some r) = recordAll (reportPairs r) amb).
  { unfold convertReportsToAttributeMap, reportPairs, setBool, setFloat, setString.
    cbv zeta. rewrite !recordAll_app.
    by rewrite (fold_set_recordAll AV_Bool), (fold_set_recordAll AV_Float),
               (fold_set_recordAll AV_String). }
  split; [done|]. split; [exact Hall|]. rewrite Hall. split.
  - apply recordAll_lookup_absent.
  - intros t. apply recordAll_lookup.
Qed.

End Reports.

Lemma convertReports_example :
  convertReportsToAttributeMap ∅
    (Some {| mBools := [("lit", true)]; mFloats := [("area", 1%Z); ("area", 2%Z)];
             mStrings := [] |}) !! "area"
  = Some (AV_Float 2%Z).
Proof.
  apply (proj2 (proj2 (proj2 (convertReports_records_every_report
    ∅ {| mBools := [("lit", true)]; mFloats := [("area", 1%Z); ("area", 2%Z)];
         mStrings := [] |} "area"))) PT_FLOAT).
  split; [intros old Hold; discriminate Hold|].
  apply Forall_cons; split; [intros Hkey; discriminate Hkey|].
  repeat (apply Forall_cons; split; [intros _; reflexivity|]).
  apply Forall_nil. exact I.
Defined.

(** What a name reported with two types holds afterwards is up to the
    builder: one that replaces the value of a taken key ends with the
    float, one that leaves a taken key alone ends with the boolean. *)
Example report_of_two_types_is_up_to_the_builder :
  let r := {| mBools := [("n", true)]; mFloats := [("n", 7%Z)]; mStrings := [] |} in
  @convertReportsToAttributeMap Z replacingBuilder ∅ (Some r) !! "n" = Some (AV_Float 7%Z) ∧
  @convertReportsToAttributeMap Z refusingBuilder ∅ (Some r) !! "n" = Some (AV_Bool true).
Proof. split; vm_compute; reflexivity. Qed.

(** ** HoudiniEncoder and ModelConverter: face ranges *)

Section FaceRanges.
Context {D G : Type} `{!KeyTaken D}.
Variables (major : Z) (emitMaterials emitReports : bool).
Implicit Types (inst : FinalizedInstance D) (acc built : RangesAndMaps D)
  (instances : list (FinalizedInstance D)).

Lemma rangesFrom_app (c : Z) (counts counts' : list Z) :
  ∃ c', rangesFrom c (counts ++ counts') = removelast (rangesFrom c counts) ++ rangesFrom c' counts'
        ∧ rangesFrom c counts = removelast (rangesFrom c counts) ++ [c'].
Proof.
  revert c. induction counts as [|x counts IH]; intros c.
  - exists c. done.
  - destruct (IH (wrap32 (c + x))) as (c' & H1 & H2). exists c'.
    cbn [app rangesFrom]. rewrite H1.
    assert (Hne : rangesFrom (wrap32 (c + x)) counts ≠ []) by (by destruct counts).
    destruct (rangesFrom (wrap32 (c + x)) counts) as [|r rs] eqn:Hr; [done|].
    split; [done|]. cbn [removelast app] in *.
    destruct rs; by rewrite H2.
Qed.

Lemma convertGeometryMesh_None inst (l : list (nat * Mesh D)) :
  fold_left (fun a mim => convertGeometryMesh major emitMaterials emitReports inst
                              a mim.1 mim.2) l None = None.
Proof. by induction l. Qed.

(** The loop over the meshes of one instance, when it ends: every mesh
    has its material, the materials are converted if they are emitted, and
    the ranges and maps are those of the meshes in their order. *)
Lemma convertGeometryMesh_loop inst (meshes : list (Mesh D)) :
  ∀ (mats preMats : list (Material D * list string)) acc built,
  instanceMaterials inst = preMats ++ mats →
  fold_left (fun a mim => convertGeometryMesh major emitMaterials emitReports inst
                              a mim.1 mim.2)
            (imap (fun i m => (length preMats + i, m)) meshes) (Some acc) = Some built →
  ∃ triples,
    mapM (fun mm : Mesh D * (Material D * list string) =>
            meshWithMaps major emitMaterials inst mm.1 mm.2) (zip meshes mats)
    = Some triples ∧
    (fun t => t.1.1) <$> triples = meshes ∧
    faceRanges built ++ [faceCount built]
    = faceRanges acc ++ rangesFrom (faceCount acc) (getFaceCount <$> meshes) ∧
    matAttrMaps built
    = matAttrMaps acc ++ (if emitMaterials then (fun t => t.1.2) <$> triples else []) ∧
    reportAttrMaps built
    = reportAttrMaps acc ++ (if emitReports then (fun t => t.2) <$> triples else []).
Proof.
  induction meshes as [|m meshes IH]; intros mats preMats acc built Hmats Hfold.
  - cbn in Hfold. injection Hfold as <-. exists []. cbn.
    split_and!; [done|done|done| |]; destruct emitMaterials, emitReports;
      by rewrite ?app_nil_r.
  - cbn [imap fold_left] in Hfold. cbn [fst snd] in Hfold.
    destruct (convertGeometryMesh major emitMaterials emitReports inst (Some acc)
                (length preMats + 0) m) as [acc1|] eqn:Hstep;
      [|by rewrite convertGeometryMesh_None in Hfold].
    unfold convertGeometryMesh in Hstep. cbn [mbind option_bind] in Hstep.
    rewrite Hmats, lookup_app_r in Hstep by lia.
    replace (length preMats + 0 - length preMats) with 0 in Hstep by lia.
    destruct mats as [|mat mats]; [done|].
    cbn [lookup list_lookup] in Hstep. cbn [mbind option_bind] in Hstep.
    assert (Hconv : ∃ materialMap,
              (if emitMaterials then convertMaterialToAttributeMap major ∅ mat.1 mat.2
               else Some ∅) = Some materialMap ∧
              (if emitMaterials
               then converted ← convertMaterialToAttributeMap major ∅ mat.1 mat.2;
                    Some (matAttrMaps acc ++ [converted])
               else Some (matAttrMaps acc))
              = Some (matAttrMaps acc ++ if emitMaterials then [materialMap] else [])).
    { destruct emitMaterials.
      - destruct (convertMaterialToAttributeMap major ∅ mat.1 mat.2) as [converted|];
          [by eexists|done].
      - exists ∅. by rewrite app_nil_r. }
    destruct Hconv as (materialMap & HmaterialMap & Hpush).
    rewrite Hpush in Hstep. cbn [mbind option_bind] in Hstep.
    injection Hstep as Hacc1. symmetry in Hacc1.
    destruct (IH mats (preMats ++ [mat]) acc1 built) as (triples & Htriples & Hm1 & Hr & Hm & Hp).
    { by rewrite Hmats, <- app_assoc. }
    { rewrite <- Hfold. f_equal. apply imap_ext. intros i x _. simpl.
      rewrite length_app. simpl. f_equal. lia. }
    exists ((m, materialMap, convertReportsToAttributeMap ∅ (instanceReports inst)) :: triples).
    split_and!.
    + cbn [zip zip_with]. rewrite mapM_cons_eq. cbn [fst snd].
      change (zip_with pair meshes mats) with (zip meshes mats).
      rewrite Htriples. unfold meshWithMaps. cbn [fst snd].
      by rewrite HmaterialMap.
    + cbn [fmap list_fmap]. by rewrite Hm1.
    + rewrite Hr. subst acc1. cbn [faceRanges faceCount fmap list_fmap rangesFrom].
      by rewrite <- app_assoc.
    + rewrite Hm. subst acc1. cbn [matAttrMaps fmap list_fmap].
      destruct emitMaterials; by rewrite <- ?app_assoc, ?app_nil_r.
    + rewrite Hp. subst acc1. cbn [reportAttrMaps fmap list_fmap].
      destruct emitReports; by rewrite <- ?app_assoc, ?app_nil_r.
Qed.

Lemma convertGeometry_None instances :
  fold_left
    (fun a i =>
       fold_left (fun a mim => convertGeometryMesh major emitMaterials emitReports i
                                 a mim.1 mim.2)
                 (imap pair (instanceGeometry i)) a)
    instances None = None.
Proof.
  induction instances as [|inst instances IH]; [done|].
  cbn [fold_left]. by rewrite convertGeometryMesh_None.
Qed.

(** The loops over the instances, when they end. *)
Lemma convertGeometry_loop instances : ∀ acc built,
  fold_left
    (fun a i =>
       fold_left (fun a mim => convertGeometryMesh major emitMaterials emitReports i
                                 a mim.1 mim.2)
                 (imap pair (instanceGeometry i)) a)
    instances (Some acc) = Some built →
  ∃ triples,
    meshesWithMaps major emitMaterials instances = Some triples ∧
    (fun t => t.1.1) <$> triples = concat (instanceGeometry <$> instances) ∧
    faceRanges built ++ [faceCount built]
    = faceRanges acc ++
      rangesFrom (faceCount acc) (getFaceCount <$> concat (instanceGeometry <$> instances)) ∧
    matAttrMaps built
    = matAttrMaps acc ++ (if emitMaterials then (fun t => t.1.2) <$> triples else []) ∧
    reportAttrMaps built
    = reportAttrMaps acc ++ (if emitReports then (fun t => t.2) <$> triples else []).
Proof.
  induction instances as [|inst instances IH]; intros acc built Hfold.
  - cbn in Hfold. injection Hfold as <-. exists []. cbn.
    split_and!; [done|done|done| |]; destruct emitMaterials, emitReports;
      by rewrite ?app_nil_r.
  - cbn [fold_left] in Hfold.
    destruct (fold_left _ (imap pair (instanceGeometry inst)) (Some acc))
      as [built1|] eqn:Hfold1; [|by rewrite convertGeometry_None in Hfold].
    destruct (convertGeometryMesh_loop inst (instanceGeometry inst)
                (instanceMaterials inst) [] acc built1 eq_refl)
      as (triples1 & Htriples1 & Hmeshes1 & Hr1 & Hm1 & Hp1).
    { exact Hfold1. }
    destruct (IH built1 built Hfold) as (triples & Htriples & Hmeshes & Hr & Hm & Hp).
    exists (triples1 ++ triples). split_and!.
    + assert (Hinst : instanceMeshes major emitMaterials inst = Some triples1)
        by exact Htriples1.
      unfold meshesWithMaps in *. rewrite mapM_cons_eq, Hinst. cbn [mbind option_bind].
      destruct (mapM _ instances) as [all|]; [|done].
      cbn [mbind option_bind] in Htriples |- *. injection Htriples as <-. done.
    + rewrite fmap_app, Hmeshes1, Hmeshes. done.
    + rewrite Hr. cbn [fmap list_fmap concat]. rewrite fmap_app.
      destruct (rangesFrom_app (faceCount acc) (getFaceCount <$> instanceGeometry inst)
                  (getFaceCount <$> concat (instanceGeometry <$> instances)))
        as (c' & Happ & Hlast).
      rewrite Happ. rewrite Hlast in Hr1. rewrite app_assoc in Hr1.
      apply app_inj_tail in Hr1 as [-> ->]. by rewrite <- app_assoc.
    + rewrite Hm, Hm1, fmap_app. destruct emitMaterials; by rewrite <- ?app_assoc, ?app_nil_r.
    + rewrite Hp, Hp1, fmap_app. destruct emitReports; by rewrite <- ?app_assoc, ?app_nil_r.
Qed.

Lemma sumZ_nonneg (l : list Z) : Forall (fun x => (0 ≤ x)%Z) l → (0 ≤ sumZ l)%Z.
Proof.
  induction l as [|x l IH]; intros Hl; [done|].
  apply Forall_cons in Hl as [Hx Hl]. cbv beta in Hx. specialize (IH Hl).
  unfold sumZ in *. cbn [foldr]. lia.
Qed.

Lemma sumZ_cons (x : Z) (l : list Z) : sumZ (x :: l) = (x + sumZ l)%Z.
Proof. done. Qed.

Lemma rangesFrom_at (pre post : list Z) : ∀ (c0 : Z),
  (0 ≤ c0)%Z → Forall (fun x => (0 ≤ x)%Z) (pre ++ post) →
  (c0 + sumZ (pre ++ post) < 2 ^ 32)%Z →
  at_ (rangesFrom c0 (pre ++ post)) (size pre) = Some (c0 + sumZ pre)%Z.
Proof.
  induction pre as [|x pre IH]; intros c0 Hc0 Hpos Hsum.
  - cbn [app]. destruct post; cbn [rangesFrom]; apply at_Some; split; try done;
      unfold sumZ; simpl; f_equal; lia.
  - apply Forall_cons in Hpos as [Hx Hpos]. cbv beta in Hx. cbn [app rangesFrom].
    pose proof (sumZ_nonneg _ Hpos) as Hpre.
    unfold sumZ in *. cbn [foldr app] in *.
    assert (Hpre' : (0 ≤ foldr Z.add 0 (pre ++ post))%Z).
    { exact Hpre. }
    rewrite wrap32_small by lia.
    replace (size (x :: pre)) with (size [c0] + size pre)%Z
      by (unfold size; cbn [length]; lia).
    change (c0 :: rangesFrom (c0 + x) (pre ++ post))
      with ([c0] ++ rangesFrom (c0 + x) (pre ++ post)).
    rewrite at_app_r by (unfold size; lia).
    rewrite IH; [f_equal; lia|lia|done|lia].
Qed.

Lemma rangesFrom_length (c : Z) (counts : list Z) :
  length (rangesFrom c counts) = S (length counts).
Proof. revert c. induction counts as [|x counts IH]; intros c; simpl; [done|]. by rewrite IH. Qed.

Implicit Types (t : Mesh D * AttributeMapBuilder D * AttributeMapBuilder D).

Lemma addAttributes_loop (s : State D G) (p : Z) (shapeIDs : list Z)
    (post : list (Mesh D * AttributeMapBuilder D * AttributeMapBuilder D)) :
  ∀ pre : list (Mesh D * AttributeMapBuilder D * AttributeMapBuilder D),
  mShapeAttributeBuilders s = ∅ → (0 ≤ p < 2 ^ 62)%Z →
  (sumZ (facesPerMesh (pre ++ post)) < 2 ^ 32)%Z →
  mapM (fun fri : Z =>
          first ← at_ (rangesFrom 0 (facesPerMesh (pre ++ post))) fri;
          next ← at_ (rangesFrom 0 (facesPerMesh (pre ++ post))) (fri + 1);
          let rangeStart := toInt64 (p + first) in
          let rangeSize := wrap32 (next - first) in
          fromMaterials ←
            match dataOrNull emitMaterials ((fun t => t.1.2) <$> pre ++ post) with
            | Some materials =>
                m ← at_ materials fri;
                Some [ {| convertedMap := m; rangeStart := rangeStart;
                          rangeSize := rangeSize; arrayHandling := None |} ]
            | None => Some []
            end;
          fromReports ←
            match dataOrNull emitReports ((fun t => t.2) <$> pre ++ post) with
            | Some reports =>
                r ← at_ reports fri;
                Some [ {| convertedMap := r; rangeStart := rangeStart;
                          rangeSize := rangeSize; arrayHandling := None |} ]
            | None => Some []
            end;
          fromAttributes ←
            (if bool_decide (mShapeAttributeBuilders s = ∅) then Some []
             else
               shapeID ← at_ shapeIDs fri;
               match mShapeAttributeBuilders s !! shapeID with
               | Some attrMap =>
                   Some [ {| convertedMap := attrMap; rangeStart := rangeStart;
                             rangeSize := rangeSize; arrayHandling := Some ARRAY |} ]
               | None => Some []
               end);
          Some (fromMaterials ++ fromReports ++ fromAttributes))
       (seqZ (size pre) (size post))
  ≫= (fun calls => Some (concat calls))
  = Some (callsOnFaces p (sumZ (facesPerMesh pre)) (emitted emitMaterials emitReports <$> post)).
Proof.
  induction post as [|t post IH]; intros pre Hnone Hp Hsum; [done|].
  assert (Hcpos : ∀ l : list (Mesh D * AttributeMapBuilder D * AttributeMapBuilder D),
            Forall (fun x => (0 ≤ x)%Z) (facesPerMesh l)).
  { intros l. apply Forall_fmap, Forall_forall. intros ? _. simpl. unfold size. lia. }
  assert (Hsumpos : ∀ l : list (Mesh D * AttributeMapBuilder D * AttributeMapBuilder D),
            (0 ≤ sumZ (facesPerMesh l))%Z).
  { intros l. apply sumZ_nonneg, Hcpos. }
  assert (Hsplit : sumZ (facesPerMesh (pre ++ t :: post))
                   = (sumZ (facesPerMesh pre) + size (getFaces t.1.1)
                      + sumZ (facesPerMesh post))%Z).
  { unfold facesPerMesh. rewrite fmap_app, sumZ_app, fmap_cons, sumZ_cons. lia. }
  pose proof (Hsumpos pre) as Hpre0. pose proof (Hsumpos post) as Hpost0.
  assert (Hface0 : (0 ≤ size (getFaces t.1.1))%Z) by (unfold size; lia).
  replace (size (t :: post)) with (Z.succ (size post)) by (unfold size; simpl; lia).
  rewrite seqZ_cons by (unfold size; lia). rewrite Z.pred_succ. rewrite mapM_cons_eq.
  (* the first iteration *)
  assert (Hat : ∀ a b : list (Mesh D * AttributeMapBuilder D * AttributeMapBuilder D),
            (sumZ (facesPerMesh (a ++ b)) < 2 ^ 32)%Z →
                 at_ (rangesFrom 0 (facesPerMesh (a ++ b))) (size a) = Some (sumZ (facesPerMesh a))).
  { intros a b Hab.
    assert (Heq : facesPerMesh (a ++ b) = facesPerMesh a ++ facesPerMesh b) by apply fmap_app.
    assert (Hsize : size a = size (facesPerMesh a))
      by (unfold facesPerMesh, size; by rewrite length_fmap).
    rewrite Hsize, Heq, rangesFrom_at; [f_equal; lia|lia| |].
    - rewrite <- Heq. apply Hcpos.
    - rewrite <- Heq. lia. }
  assert (Hfirst : at_ (rangesFrom 0 (facesPerMesh (pre ++ t :: post))) (size pre)
                   = Some (sumZ (facesPerMesh pre))).
  { apply Hat. lia. }
  assert (Hnext : at_ (rangesFrom 0 (facesPerMesh (pre ++ t :: post))) (size pre + 1)
                  = Some (sumZ (facesPerMesh pre) + size (getFaces t.1.1))%Z).
  { replace (pre ++ t :: post) with ((pre ++ [t]) ++ post) by (by rewrite <- app_assoc).
    replace (size pre + 1)%Z with (size (pre ++ [t]))
      by (unfold size; rewrite length_app; simpl; lia).
    rewrite Hat.
    - f_equal. unfold facesPerMesh. rewrite fmap_app, sumZ_app, fmap_cons, sumZ_cons.
      change (sumZ ((fun t => size (getFaces t.1.1)) <$> [])) with 0%Z. lia.
    - rewrite <- app_assoc. cbn [app]. lia. }
  rewrite Hfirst, Hnext. cbn [mbind option_bind].
  rewrite (bool_decide_eq_true_2 _ Hnone).
  rewrite toInt64_small by lia.
  replace (sumZ (facesPerMesh pre) + size (getFaces t.1.1) - sumZ (facesPerMesh pre))%Z
    with (size (getFaces t.1.1)) by lia.
  rewrite wrap32_small by lia.
  assert (Hmat : ∀ (f : Mesh D * AttributeMapBuilder D * AttributeMapBuilder D →
                        AttributeMapBuilder D),
            at_ (f <$> (pre ++ t :: post)) (size pre) = Some (f t)).
  { intros f. apply at_Some. split; [unfold size; lia|].
    unfold size. rewrite Nat2Z.id, list_lookup_fmap, list_lookup_middle; done. }
  assert (Hm : match dataOrNull emitMaterials ((fun t => t.1.2) <$> pre ++ t :: post) with
               | Some materials =>
                   m ← at_ materials (size pre);
                   Some [ {| convertedMap := m;
                             rangeStart := (p + sumZ (facesPerMesh pre))%Z;
                             rangeSize := size (getFaces t.1.1); arrayHandling := None |} ]
               | None => Some []
               end
               = Some ((fun map => {| convertedMap := map;
                                      rangeStart := (p + sumZ (facesPerMesh pre))%Z;
                                      rangeSize := size (getFaces t.1.1);
                                      arrayHandling := None |})
                         <$> (if emitMaterials then [t.1.2] else []))).
  { unfold dataOrNull. destruct emitMaterials; [|done].
    pose proof (Hmat (fun t => t.1.2)) as Hx.
    destruct ((fun t => t.1.2) <$> pre ++ t :: post); [by destruct pre|]. by rewrite Hx. }
  assert (Hr : match dataOrNull emitReports ((fun t => t.2) <$> pre ++ t :: post) with
               | Some reports =>
                   r ← at_ reports (size pre);
                   Some [ {| convertedMap := r;
                             rangeStart := (p + sumZ (facesPerMesh pre))%Z;
                             rangeSize := size (getFaces t.1.1); arrayHandling := None |} ]
               | None => Some []
               end
               = Some ((fun map => {| convertedMap := map;
                                      rangeStart := (p + sumZ (facesPerMesh pre))%Z;
                                      rangeSize := size (getFaces t.1.1);
                                      arrayHandling := None |})
                         <$> (if emitReports then [t.2] else []))).
  { unfold dataOrNull. destruct emitReports; [|done].
    pose proof (Hmat (fun t => t.2)) as Hx.
    destruct ((fun t => t.2) <$> pre ++ t :: post); [by destruct pre|]. by rewrite Hx. }
  rewrite Hm, Hr. cbn [mbind option_bind].
  (* the other iterations *)
  specialize (IH (pre ++ [t]) Hnone Hp).
  replace ((pre ++ [t]) ++ post) with (pre ++ t :: post) in IH by (by rewrite <- app_assoc).
  replace (size (pre ++ [t])) with (Z.succ (size pre)) in IH
    by (unfold size; rewrite length_app; simpl; lia).
  specialize (IH Hsum).
  rewrite (bool_decide_eq_true_2 _ Hnone) in IH. cbn [mbind option_bind] in IH.
  match type of IH with
  | ?m ≫= _ = _ => destruct m as [calls|] eqn:Hcalls; [|done]
  end.
  cbn [mbind option_bind] in IH |- *. injection IH as IH.
  f_equal. rewrite fmap_cons. cbn [concat callsOnFaces]. unfold emitted at 1.
  cbn [fst snd]. rewrite IH, app_nil_r, fmap_app. f_equal.
  unfold facesPerMesh. rewrite fmap_app, sumZ_app, fmap_cons, sumZ_cons.
  change (sumZ ((fun t => size (getFaces t.1.1)) <$> [])) with 0%Z. f_equal. lia.
Qed.

End FaceRanges.

(** X19 ([HoudiniEncoder::convertGeometry] and [ModelConverter::add]): the
    encoder hands [add] one face range per mesh, and [add] converts the
    attribute maps of each mesh on exactly the primitives of its faces: the
    ranges start at the first new primitive, follow one another in the
    order of the meshes and are as long as the mesh has faces; each mesh
    gets its material map (if materials are emitted) and then the report
    map of its instance (if reports are emitted).  This holds when the
    faces fit the [uint32_t] that counts them and no attribute callback
    was called. *)
Theorem add_converts_each_map_on_the_faces_of_its_mesh {D G} `{!KeyTaken D}
    (PRT_VERSION_MAJOR : Z) (emitMaterials emitReports : bool)
    (instances : list (FinalizedInstance D)) (args : AddArguments D)
    (s : State D G) (primStartOffset : Z) :
  convertGeometry PRT_VERSION_MAJOR emitMaterials emitReports instances = Some args →
  mShapeAttributeBuilders s = ∅ →
  (sumZ ((fun m => size (getFaces m)) <$> concat (instanceGeometry <$> instances))
   < 2 ^ 32)%Z →
  (0 ≤ primStartOffset < 2 ^ 62)%Z →
  ∃ maps,
    emittedMaps PRT_VERSION_MAJOR emitMaterials emitReports instances = Some maps ∧
    fst <$> maps = concat (instanceGeometry <$> instances) ∧
    addAttributes s primStartOffset (addFaceRanges args) (addMaterials args)
                  (addReports args) (addShapeIDs args)
    = Some (callsOnFaces primStartOffset 0 maps).
Proof.
  intros Hconv Hnone Hfaces Hp. unfold convertGeometry in Hconv.
  destruct (serializeGeometry _ _ _) as [g|] eqn:Hg; [|done].
  cbn [mbind option_bind] in Hconv.
  destruct (fold_left _ instances _) as [built|] eqn:Hbuilt; [|done].
  destruct (convertGeometry_loop PRT_VERSION_MAJOR emitMaterials emitReports instances
              {| faceCount := 0; faceRanges := []; matAttrMaps := []; reportAttrMaps := [] |}
              built Hbuilt) as (triples & Htriples & Hmeshes & Hranges & Hmats & Hreps).
  cbn [mbind option_bind] in Hconv.
  injection Hconv as <-. cbn [addFaceRanges addMaterials addReports addShapeIDs].
  exists (emitted emitMaterials emitReports <$> triples). split_and!.
  { unfold emittedMaps. by rewrite Htriples. }
  { rewrite <- Hmeshes, <- list_fmap_compose. done. }
  rewrite Hranges, Hmats, Hreps. cbn [faceRanges matAttrMaps reportAttrMaps faceCount app].
  rewrite <- Hmeshes in Hfaces |- *. rewrite <- list_fmap_compose in Hfaces.
  change (sumZ ((fun t : Mesh D * AttributeMapBuilder D * AttributeMapBuilder D =>
                   size (getFaces t.1.1)) <$> triples) < 2 ^ 32)%Z in Hfaces.
  assert (Hcounts : getFaceCount <$> ((fun t => t.1.1) <$> triples)
                    = (fun t => size (getFaces t.1.1)) <$> triples).
  { rewrite <- list_fmap_compose. apply Forall_fmap_ext_1.
    assert (Hall : Forall (fun x => (0 ≤ x)%Z) ((fun t => size (getFaces t.1.1)) <$> triples)).
    { apply Forall_fmap, Forall_forall. intros ? _. simpl. unfold size. lia. }
    clear -Hfaces Hall. induction triples as [|t triples IH]; [done|].
    rewrite fmap_cons in Hfaces, Hall. rewrite sumZ_cons in Hfaces.
    apply Forall_cons in Hall as [Ht Hall].
    pose proof (sumZ_nonneg _ Hall) as Hrest. cbv beta in Ht.
    constructor.
    - cbn. unfold getFaceCount. apply wrap32_small. lia.
    - apply IH; [lia|done]. }
  rewrite Hcounts. unfold addAttributes.
  clear Hranges Hmats Hreps Hbuilt Hcounts Htriples Hmeshes.
  destruct (decide (triples = [])) as [->|Hne].
  { cbn. by destruct emitMaterials, emitReports. }
  assert (Hsize : size (rangesFrom 0 ((fun t => size (getFaces t.1.1)) <$> triples))
                  = (size triples + 1)%Z).
  { unfold size. rewrite rangesFrom_length, length_fmap. lia. }
  rewrite Hsize.
  replace (size triples + 1 >? 1)%Z with true
    by (symmetry; apply Z.gtb_lt; destruct triples; [done|unfold size; cbn [length]; lia]).
  replace (size triples + 1 - 1)%Z with (size triples) by lia.
  pose proof (addAttributes_loop emitMaterials emitReports s primStartOffset
                (instanceShapeId <$> instances) triples [] Hnone Hp) as Hloop.
  cbn [app] in Hloop. change (size []) with 0%Z in Hloop.
  by apply Hloop.
Qed.

(** ** Examples of the serialized geometry *)

Lemma serializeGeometry_appends_the_meshes_example :
  ∃ g, serializeGeometry 2 [[meshOneUVSet; meshWithHole]] [[untextured; untextured]] = Some g
       ∧ sg_counts g = [3; 4; 3]%Z ∧ sg_holeCounts g = [0; 1; 0]%Z.
Proof.
  eexists. split; [reflexivity|].
  destruct (serializeGeometry_appends_the_meshes 2 [[meshOneUVSet; meshWithHole]]
              [[untextured; untextured]] _ eq_refl) as (_ & _ & Hc & Hh & _).
  split; [exact Hc|exact Hh].
Defined.

Lemma serializeGeometry_keeps_the_corners_example :
  ∃ g, serializeGeometry 2 [[meshOneUVSet; meshWithHole]] [[untextured; untextured]] = Some g
       ∧ take 4 (tupleAt 3 (sg_coords g) <$> sg_vertexIndices g)
         = [[Some 0; Some 1; Some 0]; [Some 1; Some 0; Some 0]; [Some 0; Some 0; Some 0];
            [Some 0; Some 4; Some 0]]%Z.
Proof.
  eexists. split; [reflexivity|].
  rewrite (proj1 (serializeGeometry_keeps_the_corners 2 [[meshOneUVSet; meshWithHole]]
                    [[untextured; untextured]] _ eq_refl
                    ltac:(repeat constructor; vm_compute; congruence)
                    ltac:(reflexivity))).
  reflexivity.
Defined.

Lemma hole_groups_example :
  ∃ g, serializeGeometry 2 [[meshOneUVSet; meshWithHole]] [[untextured; untextured]] = Some g
       ∧ createHoleGroups 100 (sg_holeCounts g) (sg_holeIndices g) [] = Some [[101; 102]%Z].
Proof.
  eexists. split; [reflexivity|].
  rewrite (hole_groups_undo_the_serialization 2 [[meshOneUVSet; meshWithHole]]
             [[untextured; untextured]] _ 100 [] eq_refl
             ltac:(repeat constructor; vm_compute; congruence)
             ltac:(reflexivity) ltac:(lia)).
  reflexivity.
Defined.

Lemma serializeGeometry_channels_example :
  ∃ g, serializeGeometry 2 [[meshOneUVSet; meshWithHole]] [[untextured; untextured]] = Some g
       ∧ size (sg_uvCounts g !!! 0%nat) = 3%Z ∧ size (sg_uvIndices g !!! 0%nat) = 3%Z.
Proof.
  eexists. split; [reflexivity|].
  destruct (serializeGeometry_keeps_the_channels_in_sync 2 [[meshOneUVSet; meshWithHole]]
              [[untextured; untextured]] _ 0%nat eq_refl
              ltac:(repeat constructor; vm_compute; congruence)
              ltac:(reflexivity)) as (Hc & Hi & _).
  split; [exact Hc|exact Hi].
Defined.

Lemma add_converts_each_map_example :
  ∃ args calls,
    convertGeometry 2 true true [instanceOfTwoMeshes] = Some args
    ∧ addAttributes twoShapes 100 (addFaceRanges args) (addMaterials args)
                    (addReports args) (addShapeIDs args) = Some calls
    ∧ (fun c => (rangeStart c, rangeSize c)) <$> calls
      = [(100, 1); (100, 1); (101, 2); (101, 2)]%Z.
Proof.
  destruct (add_converts_each_map_on_the_faces_of_its_mesh 2 true true [instanceOfTwoMeshes]
              _ twoShapes 100 eq_refl eq_refl ltac:(reflexivity) ltac:(lia))
    as (maps & Hmaps & _ & Hcalls).
  vm_compute in Hmaps. injection Hmaps as <-.
  eexists. eexists. split; [reflexivity|]. split; [exact Hcalls|reflexivity].
Defined.

(** ** ShapeConverter: texture coordinates *)

Section TextureCoordinates.
Context {D : Type}.
Implicit Types (ch : ConversionHelper D) (uvHandles : list (GA_ROHandleV2D D))
  (uvSet : UV D) (uvh : Z → D * D).

Lemma forEachUVSetFrom_lookup uvHandles (func : (Z → D * D) → UV D → UV D) :
  ∀ (u0 : nat) (sets sets' : list (UV D)),
  forEachUVSetFrom u0 uvHandles sets func = Some sets' →
  (∀ j, j < u0 → sets' !! j = sets !! j) ∧
  (∀ u, sets' !! (u0 + u)
        = match uvHandles !! u with
          | Some (Some uvh) => func uvh <$> sets !! (u0 + u)
          | _ => sets !! (u0 + u)
          end).
Proof.
  induction uvHandles as [|[uvh|] rest IH]; intros u0 sets sets' Hrun; cbn in Hrun.
  - injection Hrun as <-. split; [done|]. by intros u.
  - destruct (sets !! u0) as [uvSet|] eqn:Hu0; [|done]. cbn in Hrun.
    destruct (IH _ _ _ Hrun) as [Hlow Hhigh]. split.
    + intros j Hj. rewrite Hlow by lia. apply list_lookup_insert_ne. lia.
    + intros [|u].
      * rewrite Nat.add_0_r. cbn. rewrite Hlow by lia.
        rewrite list_lookup_insert_eq by (by eapply lookup_lt_Some). by rewrite Hu0.
      * replace (u0 + S u) with (S u0 + u) by lia. rewrite Hhigh. cbn.
        rewrite list_lookup_insert_ne by lia. done.
  - destruct (IH _ _ _ Hrun) as [Hlow Hhigh]. split.
    + intros j Hj. apply Hlow. lia.
    + intros [|u].
      * rewrite Nat.add_0_r. cbn. apply Hlow. lia.
      * replace (u0 + S u) with (S u0 + u) by lia. by rewrite Hhigh.
Qed.

Lemma fmap_rev {A B} (f : A → B) (l : list A) : f <$> rev l = rev (f <$> l).
Proof.
  induction l as [|x l IH]; [done|]. cbn [rev fmap list_fmap].
  by rewrite fmap_app, IH.
Qed.

Lemma fold_push_pairs {A} (f g : A → D) (l : list A) : ∀ c0 : list D,
  fold_left (fun c j => c ++ [f j; g j]) l c0 = c0 ++ concat ((fun j => [f j; g j]) <$> l).
Proof.
  induction l as [|x l IH]; intros c0; cbn [fold_left fmap list_fmap concat].
  - by rewrite app_nil_r.
  - rewrite IH. by rewrite <- app_assoc.
Qed.

Lemma pairs_length {A} (f g : A → D) (l : list A) :
  length (concat ((fun j => [f j; g j]) <$> l)) = 2 * length l.
Proof. induction l as [|x l IH]; cbn; [done|]. rewrite IH. lia. Qed.

Lemma pairs_lookup {A} (f g : A → D) (l : list A) : ∀ (i : nat) (x : A),
  l !! i = Some x →
  concat ((fun j => [f j; g j]) <$> l) !! (2 * i) = Some (f x) ∧
  concat ((fun j => [f j; g j]) <$> l) !! (2 * i + 1) = Some (g x).
Proof.
  induction l as [|y l IH]; intros i x Hx; [done|].
  destruct i as [|i].
  - injection Hx as ->. done.
  - cbn in Hx. destruct (IH i x Hx) as [H1 H2].
    replace (2 * S i) with (S (S (2 * i))) by lia.
    replace (S (S (2 * i)) + 1) with (S (S (2 * i + 1))) by lia. done.
Qed.

(** Reading back the points that were pushed after [2 * base] entries. *)
Lemma pairs_read {A} (f g : A → D) (l : list A) (pre post : list D) (base : Z) :
  size pre = (2 * base)%Z →
  (fun k => tupleAt 2 (pre ++ concat ((fun j => [f j; g j]) <$> l) ++ post) (base + k))
    <$> seqZ 0 (size l)
  = (fun j => [Some (f j); Some (g j)]) <$> l.
Proof.
  intros Hpre. apply list_eq. intros i. rewrite !list_lookup_fmap. unfold size in *.
  destruct (l !! i) as [x|] eqn:Hx.
  - pose proof (lookup_lt_Some _ _ _ Hx) as Hi. rewrite lookup_seqZ_lt by lia.
    cbn [fmap option_fmap option_map]. f_equal. rewrite Z.add_0_l.
    rewrite tupleAt_app; [|done|lia|unfold size; rewrite pairs_length; lia].
    destruct (pairs_lookup f g l i x Hx) as [H1 H2].
    unfold tupleAt. change (seqZ 0 2) with [0%Z; 1%Z]. cbn [fmap list_fmap].
    rewrite (proj2 (at_Some _ (2 * Z.of_nat i + 0) (f x)));
      [|split; [lia|]; by replace (Z.to_nat (2 * Z.of_nat i + 0)) with (2 * i) by lia].
    rewrite (proj2 (at_Some _ (2 * Z.of_nat i + 1) (g x)));
      [|split; [lia|]; by replace (Z.to_nat (2 * Z.of_nat i + 1)) with (2 * i + 1) by lia].
    done.
  - apply lookup_ge_None in Hx. by rewrite lookup_seqZ_ge by lia.
Qed.

Lemma polygonUVs_cons (prim : GA_Primitive) uvh (ring : list Z) (rings : list (list Z))
    uvSet :
  polygonUVs prim (ring :: rings) uvh uvSet
  = polygonUVs prim rings uvh
      {| uvs := fold_left (fun c j => c ++ [(uvh (primVertexOffset prim j)).1;
                                            (uvh (primVertexOffset prim j)).2])
                          ring (uvs uvSet);
         idx := idx uvSet ++
                (wrap32 <$> rev ((fun k => (toInt32 (size (idx uvSet)) + k)%Z)
                                   <$> seqZ 0 (size ring))) |}.
Proof. reflexivity. Qed.

Lemma polygonUVs_follow (prim : GA_Primitive) uvh (rings : list (list Z)) :
  ∀ uvSet,
  uvInSync uvSet →
  (size (idx uvSet) + size (concat rings) < 2 ^ 31)%Z →
  ∃ newIdx newUVs,
    idx (polygonUVs prim rings uvh uvSet) = idx uvSet ++ newIdx ∧
    uvs (polygonUVs prim rings uvh uvSet) = uvs uvSet ++ newUVs ∧
    size newUVs = (2 * size newIdx)%Z ∧
    ∀ post,
      tupleAt 2 (uvs uvSet ++ newUVs ++ post) <$> newIdx
      = (fun o => uvPoint (uvh (primVertexOffset prim o))) <$> concat (@rev Z <$> rings).
Proof.
  induction rings as [|ring rings IH]; intros uvSet Hsync Hsz.
  - exists [], []. cbn. by rewrite !app_nil_r.
  - rewrite polygonUVs_cons.
    set (uvSet1 := {| uvs := _; idx := _ |}).
    assert (Hlen : (size (concat (ring :: rings)) = size ring + size (concat rings))%Z)
      by (unfold size; cbn [concat]; rewrite length_app; lia).
    assert (Hidx1 : idx uvSet1
                    = idx uvSet ++ rev ((fun k => (size (idx uvSet) + k)%Z)
                                          <$> seqZ 0 (size ring))).
    { subst uvSet1. cbn [idx]. f_equal. rewrite <- fmap_rev. rewrite <- list_fmap_compose.
      rewrite fmap_rev. f_equal. apply list_fmap_ext. intros i k Hk.
      apply lookup_seqZ in Hk as [-> Hi]. cbn.
      destruct (toInt32_range (size (idx uvSet))) as [_ Hw].
      unfold wrap32 in *. rewrite Zplus_mod, Hw, <- Zplus_mod.
      apply Z.mod_small. unfold size in *. lia. }
    assert (Huvs1 : uvs uvSet1
                    = uvs uvSet ++ concat ((fun j => [(uvh (primVertexOffset prim j)).1;
                                                      (uvh (primVertexOffset prim j)).2])
                                             <$> ring)).
    { subst uvSet1. cbn [uvs]. apply fold_push_pairs. }
    destruct (IH uvSet1) as (newIdx & newUVs & Hi & Hu & Hsize & Hread).
    { unfold uvInSync, size in *. rewrite Hidx1, Huvs1, !length_app, length_rev,
        length_fmap, length_seqZ, pairs_length. lia. }
    { unfold size in *. rewrite Hidx1, length_app, length_rev, length_fmap, length_seqZ. lia. }
    eexists (_ ++ newIdx), (_ ++ newUVs). split_and!.
    + rewrite Hi, Hidx1. by rewrite <- app_assoc.
    + rewrite Hu, Huvs1. by rewrite <- app_assoc.
    + unfold size in *. rewrite !length_app, length_rev, length_fmap, length_seqZ,
        pairs_length. lia.
    + intros post. cbn [fmap list_fmap concat]. rewrite !fmap_app. f_equal.
      * rewrite fmap_rev, <- list_fmap_compose. rewrite fmap_rev. f_equal.
        rewrite <- app_assoc.
        apply (pairs_read (fun j => (uvh (primVertexOffset prim j)).1)
                 (fun j => (uvh (primVertexOffset prim j)).2) ring (uvs uvSet)
                 (newUVs ++ post) (size (idx uvSet))).
        exact Hsync.
      * rewrite <- Hread with (post := post). rewrite Huvs1.
        by rewrite <- !app_assoc.
Qed.

Lemma soupUVs_follow (prim : PolygonIterator) uvh (l : list Z) : ∀ uvSet,
  uvInSync uvSet →
  (size (idx uvSet) + size l < 2 ^ 32)%Z →
  let uvSet' :=
    fold_left (fun (acc : UV D) (i : Z) =>
                 let v := uvh (pitVertexOffset prim i) in
                 {| uvs := uvs acc ++ [v.1; v.2];
                    idx := idx acc ++ [wrap32 (size (idx acc))] |}) l uvSet in
  ∃ newIdx newUVs,
    idx uvSet' = idx uvSet ++ newIdx ∧ uvs uvSet' = uvs uvSet ++ newUVs ∧
    size newUVs = (2 * size newIdx)%Z ∧
    ∀ post,
      tupleAt 2 (uvs uvSet ++ newUVs ++ post) <$> newIdx
      = (fun i => uvPoint (uvh (pitVertexOffset prim i))) <$> l.
Proof.
  induction l as [|i l IH]; intros uvSet Hsync Hsz; cbv zeta.
  - exists [], []. cbn. by rewrite !app_nil_r.
  - cbn [fold_left]. set (uvSet1 := {| uvs := _; idx := _ |}).
    assert (Hw : wrap32 (size (idx uvSet)) = size (idx uvSet))
      by (apply wrap32_small; unfold size in *; cbn [length] in Hsz; lia).
    destruct (IH uvSet1) as (newIdx & newUVs & Hi & Hu & Hsize & Hread).
    { unfold uvInSync, size in *. subst uvSet1. cbn [uvs idx].
      rewrite !length_app. cbn [length]. lia. }
    { unfold size in *. subst uvSet1. cbn [idx]. rewrite length_app.
      cbn [length] in *. lia. }
    cbv zeta in Hi, Hu. subst uvSet1. cbn [uvs idx] in *. rewrite Hw in *.
    eexists (_ :: newIdx), (_ :: _ :: newUVs). split_and!.
    + rewrite Hi. by rewrite <- app_assoc.
    + rewrite Hu. by rewrite <- app_assoc.
    + unfold size in *. cbn [length]. lia.
    + intros post. cbn [fmap list_fmap]. f_equal.
      * pose proof (pairs_read (fun j => (uvh (pitVertexOffset prim j)).1)
                      (fun j => (uvh (pitVertexOffset prim j)).2) [i] (uvs uvSet)
                      (newUVs ++ post) (size (idx uvSet)) Hsync) as Hone.
        change (seqZ 0 (size [i])) with [0%Z] in Hone. cbn [fmap list_fmap concat] in Hone.
        rewrite Z.add_0_r, app_nil_r in Hone. exact (f_equal (fun r => default [] (head r)) Hone).
      * rewrite <- Hread with (post := post).
        by rewrite <- !app_assoc.
Qed.

(** X20 ([convertPolygon] for a polygon primitive, with [forEachUVSet]):
    for every valid UV handle, the index entries the conversion adds to
    the UV set refer to the texture coordinates of the very vertices whose
    point indices it adds to the vertex indices, entry by entry: ring after
    ring in reversed winding.  The entries from before stay, and the set
    keeps one coordinate for each entry.  The set holds one coordinate for
    each entry before, and less than 2^31 entries after. *)
Theorem convertPolygon_uvs_follow_the_corners ch (prim : GA_Primitive) uvHandles
    (rings : list (list Z)) ch' (u : nat) uvh uvSet :
  extractHoles (GeoFaceHoleSource prim) = Some rings →
  convertPolygon ch prim uvHandles = Some ch' →
  uvHandles !! u = Some (Some uvh) →
  uvSets ch !! u = Some uvSet →
  uvInSync uvSet →
  (size (idx uvSet) + size (concat rings) < 2 ^ 31)%Z →
  ∃ uvSet',
    uvSets ch' !! u = Some uvSet' ∧
    take (length (idx uvSet)) (idx uvSet') = idx uvSet ∧
    drop (length (indices ch)) (indices ch')
    = (fun o => wrap32 (primPointIndex prim o)) <$> concat (@rev Z <$> rings) ∧
    drop (length (idx uvSet)) (uvAt uvSet')
    = (fun o => uvPoint (uvh (primVertexOffset prim o))) <$> concat (@rev Z <$> rings) ∧
    uvInSync uvSet'.
Proof.
  intros Hrings Hconv Hh Hu Hsync Hsz. unfold convertPolygon in Hconv.
  rewrite Hrings in Hconv. cbn [mbind option_bind] in Hconv. unfold forEachUVSet in Hconv.
  destruct (forEachUVSetFrom _ _ _ _) as [sets'|] eqn:Hsets; [|done].
  cbn [mbind option_bind] in Hconv. injection Hconv as <-. cbn [uvSets indices] in *.
  destruct (convertRing_loop prim rings ch) as (_ & _ & Hi & Hu1 & _).
  rewrite Hu1 in Hsets.
  destruct (forEachUVSetFrom_lookup _ _ _ _ _ Hsets) as [_ Hlookup].
  specialize (Hlookup u). rewrite Hh in Hlookup. cbn [Nat.add] in Hlookup.
  rewrite Hu in Hlookup. cbn in Hlookup.
  destruct (polygonUVs_follow prim uvh rings uvSet Hsync Hsz)
    as (newIdx & newUVs & Hidx & Huvs & Hsize & Hread).
  eexists. split; [exact Hlookup|]. split_and!.
  - by rewrite Hidx, take_app_length.
  - rewrite Hi, drop_app_length. clear. induction rings as [|r rs IH]; [done|].
    cbn [map concat fmap list_fmap]. rewrite fmap_app, IH. f_equal.
    by rewrite <- map_rev.
  - unfold uvAt. rewrite Hidx, fmap_app.
    replace (length (idx uvSet)) with (length (tupleAt 2 (uvs (polygonUVs prim rings uvh uvSet))
                                                <$> idx uvSet))
      by apply length_fmap.
    rewrite drop_app_length, Huvs.
    specialize (Hread []). by rewrite app_nil_r in Hread.
  - unfold uvInSync, size in *. rewrite Hidx, Huvs, !length_app. lia.
Qed.

(** X21 ([convertPolygon] for a polygon of a polygon soup): the same
    for the soup: the index entries added to a UV set with a valid handle
    refer to the texture coordinates of the vertices whose point indices
    are added, entry by entry, from the last vertex to the first.  The set
    holds one coordinate for each entry before, and less than 2^32 entries
    after. *)
Theorem convertSoupPolygon_uvs_follow_the_corners ch (prim : PolygonIterator) uvHandles
    ch' (u : nat) uvh uvSet :
  convertSoupPolygon ch prim uvHandles = Some ch' →
  uvHandles !! u = Some (Some uvh) →
  uvSets ch !! u = Some uvSet →
  uvInSync uvSet →
  (0 ≤ pitVertexCount prim)%Z →
  (size (idx uvSet) + pitVertexCount prim < 2 ^ 32)%Z →
  ∃ uvSet',
    uvSets ch' !! u = Some uvSet' ∧
    take (length (idx uvSet)) (idx uvSet') = idx uvSet ∧
    drop (length (indices ch)) (indices ch')
    = (fun i => wrap32 (pitPointIndex prim i)) <$> rev (seqZ 0 (pitVertexCount prim)) ∧
    drop (length (idx uvSet)) (uvAt uvSet')
    = (fun i => uvPoint (uvh (pitVertexOffset prim i))) <$> rev (seqZ 0 (pitVertexCount prim)) ∧
    uvInSync uvSet'.
Proof.
  intros Hconv Hh Hu Hsync Hcnt Hsz. unfold convertSoupPolygon, forEachUVSet in Hconv.
  cbv zeta in Hconv. cbn [uvSets] in Hconv.
  destruct (forEachUVSetFrom _ _ _ _) as [sets'|] eqn:Hsets; [|done].
  cbn [mbind option_bind] in Hconv. injection Hconv as <-. cbn [uvSets indices] in *.
  destruct (forEachUVSetFrom_lookup _ _ _ _ _ Hsets) as [_ Hlookup].
  specialize (Hlookup u). rewrite Hh in Hlookup. cbn [Nat.add] in Hlookup.
  rewrite Hu in Hlookup. cbn [fmap option_fmap option_map] in Hlookup.
  destruct (soupUVs_follow prim uvh (rev (seqZ 0 (pitVertexCount prim))) uvSet Hsync)
    as (newIdx & newUVs & Hidx & Huvs & Hsize & Hread).
  { unfold size in *. rewrite length_rev, length_seqZ. lia. }
  assert (Hidx' : idx (soupUVs prim (pitVertexCount prim) uvh uvSet) = idx uvSet ++ newIdx)
    by exact Hidx.
  assert (Huvs' : uvs (soupUVs prim (pitVertexCount prim) uvh uvSet) = uvs uvSet ++ newUVs)
    by exact Huvs.
  clear Hidx Huvs. rename Hidx' into Hidx, Huvs' into Huvs.
  eexists. split; [exact Hlookup|]. split_and!.
  - by rewrite Hidx, take_app_length.
  - rewrite push_back_each, drop_app_length. done.
  - unfold uvAt. rewrite Hidx, fmap_app.
    replace (length (idx uvSet))
      with (length (tupleAt 2 (uvs (soupUVs prim (pitVertexCount prim) uvh uvSet))
                      <$> idx uvSet))
      by apply length_fmap.
    rewrite drop_app_length, Huvs.
    specialize (Hread []). by rewrite app_nil_r in Hread.
  - unfold uvInSync, size in *. rewrite Hidx, Huvs, !length_app. lia.
Qed.

End TextureCoordinates.

Lemma convertPolygon_uvs_example :
  ∃ ch', convertPolygon (newConversionHelper ([] : list Z) [Some exampleUVHandle])
           hostSquareWithHole [Some exampleUVHandle] = Some ch'
         ∧ indices ch' = [3; 2; 1; 0; 7; 6; 5; 4]%Z
         ∧ uvAt <$> uvSets ch' !! 0%nat
           = Some [[Some 30; Some 31]; [Some 20; Some 21]; [Some 10; Some 11];
                   [Some 0; Some 1]; [Some 70; Some 71]; [Some 60; Some 61];
                   [Some 50; Some 51]; [Some 40; Some 41]]%Z.
Proof.
  eexists. split; [reflexivity|].
  destruct (convertPolygon_uvs_follow_the_corners
              (newConversionHelper ([] : list Z) [Some exampleUVHandle])
              hostSquareWithHole [Some exampleUVHandle] [[0; 1; 2; 3]; [4; 5; 6; 7]]%Z _ 0
              exampleUVHandle {| uvs := []; idx := [] |} eq_refl eq_refl eq_refl eq_refl
              eq_refl ltac:(reflexivity))
    as (uvSet' & Hset & _ & Hi & Hu & _).
  split; [exact Hi|]. rewrite Hset. cbn [fmap option_fmap option_map]. f_equal. exact Hu.
Defined.

Lemma convertSoupPolygon_uvs_example :
  ∃ ch', convertSoupPolygon (newConversionHelper ([] : list Z) [Some exampleUVHandle])
           soupTriangle [Some exampleUVHandle] = Some ch'
         ∧ indices ch' = [2; 1; 0]%Z
         ∧ uvAt <$> uvSets ch' !! 0%nat
           = Some [[Some 20; Some 21]; [Some 10; Some 11]; [Some 0; Some 1]]%Z.
Proof.
  eexists. split; [reflexivity|].
  destruct (convertSoupPolygon_uvs_follow_the_corners
              (newConversionHelper ([] : list Z) [Some exampleUVHandle])
              soupTriangle [Some exampleUVHandle] _ 0 exampleUVHandle
              {| uvs := []; idx := [] |} eq_refl eq_refl eq_refl eq_refl
              ltac:(vm_compute; congruence) ltac:(reflexivity))
    as (uvSet' & Hset & _ & Hi & Hu & _).
  split; [exact Hi|]. rewrite Hset. cbn [fmap option_fmap option_map]. f_equal. exact Hu.
Defined.
